(** * Reshine International website: behaviour layer

    A shallow embedding of [scripts.js]. The two stateful components come
    first: the testimonial carousel ([Carousel.init] and its closures) and
    the form controller ([FormValidation]: [showError], [validateField],
    [createFallbackUI], [initContactForm], [initQuickQuoteForm]). Of the two
    variants of the form controller the one that composes a mail and shows
    the fallback panel is followed; [showError], [validateField] and the
    guards of [initContactForm] are the same in both. The smaller components
    follow: [throttle], the mobile menu of [Navigation], the accordions, the
    resource downloads and the hero video.

    JavaScript strings are sequences of UTF-16 code units, numbers that the
    code only ever uses as integers are [Z], the DOM is an explicit store,
    [setTimeout] is an explicit timer queue driven by a clock. The markup of
    the pages is not part of the sources: what a statement needs of it is a
    hypothesis on the document. *)

From Stdlib Require Import ZArith NArith Lia Ascii String Sorted.
From stdpp Require Import base decidable option numbers list strings.

Local Open Scope Z_scope.

(** ** Timers

    [setTimeout(cb, ms)] appends [cb] to a queue ordered by deadline, callbacks
    with equal deadlines keep the order in which they were scheduled. *)

Module Timers.

Section Queue.
Context {C : Type}.

Record timer := { tid : nat; deadline : N; callback : C }.

Fixpoint enqueue (t : timer) (q : list timer) : list timer :=
  match q with
  | [] => [t]
  | u :: q' => if (deadline u <=? deadline t)%N then u :: enqueue t q' else t :: q
  end.

Definition cancel (i : nat) (q : list timer) : list timer :=
  filter (fun u => tid u <> i) q.

Definition due (now : N) (q : list timer) : list timer :=
  filter (fun u => (deadline u <= now)%N) q.

Definition later (now : N) (q : list timer) : list timer :=
  filter (fun u => ~ (deadline u <= now)%N) q.
End Queue.

Arguments timer : clear implicits.

End Timers.

(** ** JavaScript strings

    A string is its sequence of UTF-16 code units. The platform functions the
    forms rely on ([String.prototype.trim], [RegExp.prototype.test] for
    anchored patterns, [encodeURIComponent], [decodeURIComponent] and
    [replace(/\n/g, ...)]) are written out after ECMA-262. *)

Module JS.

Local Open Scope N_scope.

Definition str := list N.

Definition lit (s : string) : str := N_of_ascii <$> list_ascii_of_string s.

(** Values that may be [undefined] are options; [truthy] is [ToBoolean]. *)
Definition truthy (v : option str) : bool :=
  match v with
  | Some (_ :: _) => true
  | _ => false
  end.

(** [v || ''] *)
Definition orEmpty (v : option str) : str :=
  match v with
  | Some (c :: s) => c :: s
  | _ => []
  end.

(** WhiteSpace and LineTerminator, the code units [trim] strips and [\s]
    matches. *)
Definition isWhiteSpace (c : N) : bool :=
  (c =? 0x09) || (c =? 0x0A) || (c =? 0x0B) || (c =? 0x0C) || (c =? 0x0D)
  || (c =? 0x20) || (c =? 0xA0) || (c =? 0x1680)
  || ((0x2000 <=? c) && (c <=? 0x200A))
  || (c =? 0x2028) || (c =? 0x2029) || (c =? 0x202F) || (c =? 0x205F)
  || (c =? 0x3000) || (c =? 0xFEFF).

Fixpoint trimStart (s : str) : str :=
  match s with
  | c :: s' => if isWhiteSpace c then trimStart s' else s
  | [] => []
  end.

Definition trimEnd (s : str) : str := reverse (trimStart (reverse s)).

Definition trim (s : str) : str := trimEnd (trimStart s).

(** [s.replace(/\n/g, r)] *)
Definition replaceNewlines (r : str) (s : str) : str :=
  s ≫= (fun c => if c =? 0x0A then r else [c]).

(** *** Regular expressions

    The patterns of the forms are anchored at both ends and carry no flag,
    so [test] is a whole-string match; it is computed with derivatives. *)

Inductive regex :=
| Fail
| Eps
| Class (p : N -> bool)
| Seq (r1 r2 : regex)
| Alt (r1 r2 : regex)
| Star (r : regex).

Definition Plus (r : regex) : regex := Seq r (Star r).

Fixpoint nullable (r : regex) : bool :=
  match r with
  | Fail => false
  | Eps => true
  | Class _ => false
  | Seq r1 r2 => nullable r1 && nullable r2
  | Alt r1 r2 => nullable r1 || nullable r2
  | Star _ => true
  end.

Fixpoint deriv (c : N) (r : regex) : regex :=
  match r with
  | Fail => Fail
  | Eps => Fail
  | Class p => if p c then Eps else Fail
  | Seq r1 r2 =>
      if nullable r1 then Alt (Seq (deriv c r1) r2) (deriv c r2)
      else Seq (deriv c r1) r2
  | Alt r1 r2 => Alt (deriv c r1) (deriv c r2)
  | Star r1 => Seq (deriv c r1) (Star r1)
  end.

(** [/^r$/.test(s)] *)
Definition test (r : regex) (s : str) : bool :=
  nullable (foldl (fun acc c => deriv c acc) r s).

(** *** URI component coding *)

Definition isAlnum (c : N) : bool :=
  ((0x30 <=? c) && (c <=? 0x39)) || ((0x41 <=? c) && (c <=? 0x5A))
  || ((0x61 <=? c) && (c <=? 0x7A)).

(** uriMark: [- _ . ! ~ * ' ( )] *)
Definition isMark (c : N) : bool :=
  (c =? 0x2D) || (c =? 0x5F) || (c =? 0x2E) || (c =? 0x21) || (c =? 0x7E)
  || (c =? 0x2A) || (c =? 0x27) || (c =? 0x28) || (c =? 0x29).

Definition unescaped (c : N) : bool := isAlnum c || isMark c.

Definition isLead (c : N) : bool := (0xD800 <=? c) && (c <=? 0xDBFF).
Definition isTrail (c : N) : bool := (0xDC00 <=? c) && (c <=? 0xDFFF).

Definition codePoint (lead trail : N) : N :=
  (lead - 0xD800) * 0x400 + (trail - 0xDC00) + 0x10000.

Definition utf8 (cp : N) : list N :=
  if cp <? 0x80 then [cp]
  else if cp <? 0x800 then [0xC0 + cp / 0x40; 0x80 + cp mod 0x40]
  else if cp <? 0x10000 then
    [0xE0 + cp / 0x1000; 0x80 + (cp / 0x40) mod 0x40; 0x80 + cp mod 0x40]
  else
    [0xF0 + cp / 0x40000; 0x80 + (cp / 0x1000) mod 0x40;
     0x80 + (cp / 0x40) mod 0x40; 0x80 + cp mod 0x40].

Definition hexDigit (d : N) : N := if d <? 10 then 0x30 + d else 0x41 + (d - 10).

Definition percent (octets : list N) : str :=
  octets ≫= (fun b => [0x25; hexDigit (b / 16); hexDigit (b mod 16)]).

(** [encodeURIComponent(s)]; [None] is the [URIError] thrown at an unpaired
    surrogate. *)
Fixpoint encodeURIComponent (s : str) : option str :=
  match s with
  | [] => Some []
  | c :: rest =>
      if unescaped c then (fun r => c :: r) <$> encodeURIComponent rest
      else if isLead c then
        match rest with
        | d :: rest' =>
            if isTrail d
            then (fun r => percent (utf8 (codePoint c d)) ++ r) <$> encodeURIComponent rest'
            else None
        | [] => None
        end
      else if isTrail c then None
      else (fun r => percent (utf8 c) ++ r) <$> encodeURIComponent rest
  end.

Definition hexValue (c : N) : option N :=
  if (0x30 <=? c) && (c <=? 0x39) then Some (c - 0x30)
  else if (0x41 <=? c) && (c <=? 0x46) then Some (c - 0x41 + 10)
  else if (0x61 <=? c) && (c <=? 0x66) then Some (c - 0x61 + 10)
  else None.

(** The two passes of Decode: escape sequences become octets, then runs of
    octets are read as UTF-8. Every failure is the same [URIError]. *)
Inductive token := Raw (c : N) | Octet (b : N).

Fixpoint unpercent (s : str) : option (list token) :=
  match s with
  | [] => Some []
  | c :: rest =>
      if c =? 0x25 then
        match rest with
        | h :: l :: rest' =>
            match hexValue h, hexValue l with
            | Some x, Some y => (fun r => Octet (16 * x + y) :: r) <$> unpercent rest'
            | _, _ => None
            end
        | _ => None
        end
      else (fun r => Raw c :: r) <$> unpercent rest
  end.

Definition isCont (b : N) : bool := (0x80 <=? b) && (b <=? 0xBF).

Definition utf16 (cp : N) : str :=
  if cp <? 0x10000 then [cp]
  else [0xD800 + (cp - 0x10000) / 0x400; 0xDC00 + (cp - 0x10000) mod 0x400].

Fixpoint readUtf8 (ts : list token) : option str :=
  match ts with
  | [] => Some []
  | Raw c :: ts' => (fun r => c :: r) <$> readUtf8 ts'
  | Octet b :: ts' =>
      if b <? 0x80 then (fun r => b :: r) <$> readUtf8 ts'
      else if (0xC0 <=? b) && (b <=? 0xDF) then
        match ts' with
        | Octet b1 :: ts1 =>
            let cp := (b - 0xC0) * 0x40 + (b1 - 0x80) in
            if isCont b1 && (0x80 <=? cp)
            then (fun r => utf16 cp ++ r) <$> readUtf8 ts1
            else None
        | _ => None
        end
      else if (0xE0 <=? b) && (b <=? 0xEF) then
        match ts' with
        | Octet b1 :: Octet b2 :: ts2 =>
            let cp := (b - 0xE0) * 0x1000 + (b1 - 0x80) * 0x40 + (b2 - 0x80) in
            if isCont b1 && isCont b2 && (0x800 <=? cp)
               && negb ((0xD800 <=? cp) && (cp <=? 0xDFFF))
            then (fun r => utf16 cp ++ r) <$> readUtf8 ts2
            else None
        | _ => None
        end
      else if (0xF0 <=? b) && (b <=? 0xF7) then
        match ts' with
        | Octet b1 :: Octet b2 :: Octet b3 :: ts3 =>
            let cp := (b - 0xF0) * 0x40000 + (b1 - 0x80) * 0x1000
                      + (b2 - 0x80) * 0x40 + (b3 - 0x80) in
            if isCont b1 && isCont b2 && isCont b3
               && (0x10000 <=? cp) && (cp <=? 0x10FFFF)
            then (fun r => utf16 cp ++ r) <$> readUtf8 ts3
            else None
        | _ => None
        end
      else None
  end.

(** [decodeURIComponent(s)] *)
Definition decodeURIComponent (s : str) : option str :=
  unpercent s ≫= readUtf8.

End JS.

(** ** Carousel *)

Module Carousel.

Import Timers.

(** What [update] reads from the live layout: [items[0].offsetWidth] and
    [parseInt(getComputedStyle(track).gap)], the latter [None] for [NaN]. *)
Record Layout := { offsetWidth : Z; gapParsed : option Z }.

(** [parseInt(...) || 16]: [NaN] and [0] are falsy. *)
Definition gap (L : Layout) : Z :=
  match gapParsed L with
  | Some g => if g =? 0 then 16 else g
  | None => 16
  end.

Record Button := { disabled : bool; ariaDisabled : option bool }.

(** A [.carousel-dot]: the [active] class, [aria-current], and the slide its
    click listener jumps to (dots created by [init] have one). *)
Record Dot := { active : bool; ariaCurrent : option bool; target : option nat }.

Inductive Callback := Unlock | Rerender.

(** The closure variables of [init] and the part of the DOM they render to.
    [items] holds the [aria-hidden] attribute of every child of the track. *)
Record State := {
  items : list (option bool);
  index : Z;
  isTransitioning : bool;
  translateX : option Z;
  prev : Button;
  next : Button;
  dots : list Dot;
  clock : N;
  nextId : nat;
  timers : list (timer Callback);
  resizeTimeout : option nat
}.

Definition slideCount (s : State) : Z := Z.of_nat (length (items s)).

Definition updateButtons (s : State) : State :=
  {| items := items s; index := index s; isTransitioning := isTransitioning s;
     translateX := translateX s;
     prev := {| disabled := index s =? 0; ariaDisabled := Some (index s =? 0) |};
     next := {| disabled := index s =? slideCount s - 1;
                ariaDisabled := Some (index s =? slideCount s - 1) |};
     dots := dots s; clock := clock s; nextId := nextId s; timers := timers s;
     resizeTimeout := resizeTimeout s |}.

Definition updateDots (s : State) : State :=
  {| items := items s; index := index s; isTransitioning := isTransitioning s;
     translateX := translateX s; prev := prev s; next := next s;
     dots := imap (fun i d => {| active := Z.of_nat i =? index s;
                                 ariaCurrent := Some (Z.of_nat i =? index s);
                                 target := target d |}) (dots s);
     clock := clock s; nextId := nextId s; timers := timers s;
     resizeTimeout := resizeTimeout s |}.

Definition setTransform (x : Z) (s : State) : State :=
  {| items := items s; index := index s; isTransitioning := isTransitioning s;
     translateX := Some x; prev := prev s; next := next s; dots := dots s;
     clock := clock s; nextId := nextId s; timers := timers s;
     resizeTimeout := resizeTimeout s |}.

Definition hideOthers (s : State) : State :=
  {| items := imap (fun i _ => Some (negb (Z.of_nat i =? index s))) (items s);
     index := index s; isTransitioning := isTransitioning s;
     translateX := translateX s; prev := prev s; next := next s; dots := dots s;
     clock := clock s; nextId := nextId s; timers := timers s;
     resizeTimeout := resizeTimeout s |}.

Definition update (L : Layout) (s : State) : State :=
  if (length (items s) =? 0)%nat then s
  else
    let itemWidth := offsetWidth L in
    let width := itemWidth + gap L in
    hideOthers (updateDots (updateButtons (setTransform (- index s * width) s))).

(** [isTransitioning = true; index = i] *)
Definition moveTo (i : Z) (s : State) : State :=
  {| items := items s; index := i; isTransitioning := true;
     translateX := translateX s; prev := prev s; next := next s; dots := dots s;
     clock := clock s; nextId := nextId s; timers := timers s;
     resizeTimeout := resizeTimeout s |}.

Definition setLock (b : bool) (s : State) : State :=
  {| items := items s; index := index s; isTransitioning := b;
     translateX := translateX s; prev := prev s; next := next s; dots := dots s;
     clock := clock s; nextId := nextId s; timers := timers s;
     resizeTimeout := resizeTimeout s |}.

(** [setTimeout(cb, ms)]; the fresh timer id is [nextId s]. *)
Definition setTimeout (cb : Callback) (ms : N) (s : State) : State :=
  {| items := items s; index := index s; isTransitioning := isTransitioning s;
     translateX := translateX s; prev := prev s; next := next s; dots := dots s;
     clock := clock s; nextId := S (nextId s);
     timers := enqueue {| tid := nextId s; deadline := (clock s + ms)%N;
                          callback := cb |} (timers s);
     resizeTimeout := resizeTimeout s |}.

Definition goToNext (L : Layout) (s : State) : State :=
  if isTransitioning s || (index s >=? slideCount s - 1) then s
  else setTimeout Unlock 400 (update L (moveTo (index s + 1) s)).

Definition goToPrev (L : Layout) (s : State) : State :=
  if isTransitioning s || (index s <=? 0) then s
  else setTimeout Unlock 400 (update L (moveTo (index s - 1) s)).

Definition goToSlide (L : Layout) (i : Z) (s : State) : State :=
  if isTransitioning s || (i =? index s) || (i <? 0) || (i >=? slideCount s) then s
  else setTimeout Unlock 400 (update L (moveTo i s)).

(** The debounced resize handler [debounce(update, 250)]: every call clears
    the pending timer and schedules [update] again. *)
Definition handleResize (s : State) : State :=
  let q := match resizeTimeout s with Some i => cancel i (timers s) | None => timers s end in
  {| items := items s; index := index s; isTransitioning := isTransitioning s;
     translateX := translateX s; prev := prev s; next := next s; dots := dots s;
     clock := clock s; nextId := S (nextId s);
     timers := enqueue {| tid := nextId s; deadline := (clock s + 250)%N;
                          callback := Rerender |} q;
     resizeTimeout := Some (nextId s) |}.

Definition runCallback (L : Layout) (cb : Callback) (s : State) : State :=
  match cb with
  | Unlock => setLock false s
  | Rerender => update L s
  end.

(** Let [dt] milliseconds pass: the callbacks that are due run in queue
    order; none of them schedules a timer. *)
Definition elapse (L : Layout) (dt : N) (s : State) : State :=
  let now := (clock s + dt)%N in
  let s' := {| items := items s; index := index s; isTransitioning := isTransitioning s;
               translateX := translateX s; prev := prev s; next := next s; dots := dots s;
               clock := now; nextId := nextId s; timers := later now (timers s);
               resizeTimeout := resizeTimeout s |} in
  foldl (fun acc t => runCallback L (callback t) acc) s' (due now (timers s)).

(** What [init] finds in the document. [track] lists the [aria-hidden]
    attribute of the track's children, [dotsContainer] the dots already in
    the container, [region] tells whether [track.closest('.carousel')]
    exists. *)
Record Dom := {
  track : option (list (option bool));
  prevBtn : option Button;
  nextBtn : option Button;
  dotsContainer : option (list Dot);
  region : bool
}.

Inductive Listener :=
| NextClick | PrevClick | DotClick (i : nat) | RegionKeydown | WindowResize.

Record Widget := { state : State; listeners : list Listener }.

Definition newDot (i : nat) : Dot :=
  {| active := (i =? 0)%nat; ariaCurrent := None; target := Some i |}.

(** [init]: [None] is any of the early [return]s, which leave the document
    untouched and register nothing. *)
Definition init (L : Layout) (d : Dom) : option Widget :=
  match track d with
  | None => None
  | Some children =>
    match prevBtn d, nextBtn d with
    | Some p, Some n =>
      if (length children =? 0)%nat then None
      else
        let created := match dotsContainer d with
                       | Some _ => imap (fun i _ => newDot i) children
                       | None => []
                       end in
        let s0 := {| items := children; index := 0; isTransitioning := false;
                     translateX := None; prev := p; next := n;
                     dots := default [] (dotsContainer d) ++ created;
                     clock := 0%N; nextId := 0%nat; timers := [];
                     resizeTimeout := None |} in
        Some {| state := setTimeout Rerender 300 (update L s0);
                listeners :=
                  ((fun i => DotClick i) <$> seq 0 (length created))
                  ++ [NextClick; PrevClick]
                  ++ (if region d then [RegionKeydown] else [])
                  ++ [WindowResize] |}
    | _, _ => None
    end
  end.

(** The calls the claims speak about, and the passing of time. *)
Inductive Call := Next | Prev | Slide (i : Z) | Resize | Wait (dt : N).

Definition step (L : Layout) (c : Call) (s : State) : State :=
  match c with
  | Next => goToNext L s
  | Prev => goToPrev L s
  | Slide i => goToSlide L i s
  | Resize => handleResize s
  | Wait dt => elapse L dt s
  end.

(** Every call may see a different layout (responsive reflow). *)
Definition run (cs : list (Layout * Call)) (s : State) : State :=
  foldl (fun acc lc => step lc.1 lc.2 acc) s cs.

End Carousel.

(** ** Documents

    The elements of the page in tree order; an element is referred to by its
    position. Only what the form controller reads or writes is kept, and
    error elements are taken to hold text only, so that writing their
    [textContent] removes no other element. *)

Module Dom.

Import JS.

Record Element := {
  id : string;
  form : option nat;          (* the form the element is a descendant of *)
  submitButton : bool;        (* matches button[type="submit"] *)
  select : bool;              (* tagName === 'SELECT' *)
  value : str;
  selectedText : option str;  (* options[selectedIndex].text, if there is such an option *)
  textContent : str;
  ariaInvalid : option str;
  role : option str;
  errorField : bool;          (* class error-field *)
  disabled : bool;
  hidden : bool
}.

Definition setTextContent (t : str) (e : Element) : Element :=
  {| id := id e; form := form e; submitButton := submitButton e; select := select e;
     value := value e; selectedText := selectedText e; textContent := t;
     ariaInvalid := ariaInvalid e; role := role e; errorField := errorField e;
     disabled := disabled e; hidden := hidden e |}.

Definition setRole (r : str) (e : Element) : Element :=
  {| id := id e; form := form e; submitButton := submitButton e; select := select e;
     value := value e; selectedText := selectedText e; textContent := textContent e;
     ariaInvalid := ariaInvalid e; role := Some r; errorField := errorField e;
     disabled := disabled e; hidden := hidden e |}.

(** [setAttribute('aria-invalid', 'true'); classList.add('error-field')] for
    [Some], [removeAttribute] and [classList.remove] for [None]. *)
Definition setInvalid (a : option str) (e : Element) : Element :=
  {| id := id e; form := form e; submitButton := submitButton e; select := select e;
     value := value e; selectedText := selectedText e; textContent := textContent e;
     ariaInvalid := a; role := role e;
     errorField := match a with Some _ => true | None => false end;
     disabled := disabled e; hidden := hidden e |}.

Definition setDisabled (b : bool) (e : Element) : Element :=
  {| id := id e; form := form e; submitButton := submitButton e; select := select e;
     value := value e; selectedText := selectedText e; textContent := textContent e;
     ariaInvalid := ariaInvalid e; role := role e; errorField := errorField e;
     disabled := b; hidden := hidden e |}.

Definition setHidden (b : bool) (e : Element) : Element :=
  {| id := id e; form := form e; submitButton := submitButton e; select := select e;
     value := value e; selectedText := selectedText e; textContent := textContent e;
     ariaInvalid := ariaInvalid e; role := role e; errorField := errorField e;
     disabled := disabled e; hidden := b |}.

Definition getElementById (i : string) (d : list Element) : option nat :=
  fst <$> list_find (fun e => id e = i) d.

(** [f.querySelector(sel)]: the first descendant of [f] that [sel] selects. *)
Definition querySelector (f : nat) (sel : Element -> bool) (d : list Element) : option nat :=
  fst <$> list_find (fun e => form e = Some f /\ sel e = true) d.

(** [[aria-invalid="true"]] *)
Definition isAriaInvalid (e : Element) : bool :=
  bool_decide (ariaInvalid e = Some (lit "true")).

Definition valueOf (h : nat) (d : list Element) : str :=
  default [] (value <$> d !! h).

Definition textOf (h : nat) (d : list Element) : str :=
  default [] (textContent <$> d !! h).

End Dom.

(** ** Form validation *)

Module FormValidation.

Import Timers JS Dom.

(** A rule object; absent properties are [None]. [pattern] is the [test]
    method of the rule's regular expression. *)
Record Rules := {
  required : option str;
  pattern : option (str -> bool);
  patternError : option str;
  minLength : option Z;
  minLengthError : option str
}.

Definition showError (field : nat) (message : option str) (d : list Element)
  : list Element :=
  match d !! field with
  | None => d
  | Some f =>
      let errorId := String.append "error-" (id f) in
      let d1 :=
        match getElementById errorId d with
        | Some errorElement =>
            alter (fun e => setRole (if truthy message then lit "alert" else [])
                              (setTextContent (orEmpty message) e)) errorElement d
        | None => d
        end in
      if truthy message
      then alter (setInvalid (Some (lit "true"))) field d1
      else alter (setInvalid None) field d1
  end.

Definition nonEmpty (s : str) : bool :=
  match s with [] => false | _ => true end.

Definition validateField (field : nat) (rules : Rules) (d : list Element)
  : bool * list Element :=
  let value := trim (valueOf field d) in
  if truthy (required rules) && negb (nonEmpty value) then
    (false, showError field (required rules) d)
  else if nonEmpty value
          && match pattern rules with Some t => negb (t value) | None => false end then
    (false, showError field (patternError rules) d)
  else if nonEmpty value
          && match minLength rules with
             | Some n => negb (n =? 0) && (Z.of_nat (length value) <? n)
             | None => false
             end then
    (false, showError field (minLengthError rules) d)
  else (true, showError field (Some []) d).

(** [/^[^\s@]+@[^\s@]+\.[^\s@]+$/] *)
Definition notSpaceOrAt (c : N) : bool := negb (isWhiteSpace c || (c =? 0x40)%N).

Definition emailPattern : regex :=
  Seq (Plus (Class notSpaceOrAt))
    (Seq (Class (fun c => c =? 0x40)%N)
       (Seq (Plus (Class notSpaceOrAt))
          (Seq (Class (fun c => c =? 0x2E)%N)
             (Plus (Class notSpaceOrAt))))).

Definition requiredOnly (m : string) : Rules :=
  {| required := Some (lit m); pattern := None; patternError := None;
     minLength := None; minLengthError := None |}.

Definition emailRules : Rules :=
  {| required := Some (lit "Please enter your email");
     pattern := Some (test emailPattern);
     patternError := Some (lit "Please enter a valid email address");
     minLength := None; minLengthError := None |}.

(** The rule table of the contact form. *)
Definition nameRules : Rules := requiredOnly "Please enter your name".
Definition messageRules : Rules :=
  {| required := Some (lit "Please enter a message");
     pattern := None; patternError := None;
     minLength := Some 10;
     minLengthError := Some (lit "Message must be at least 10 characters") |}.

(** The rule table of the quote form. *)
Definition quoteTypeRules : Rules := requiredOnly "Please select a service type".
Definition quotePortRules : Rules := requiredOnly "Please select a port/location".
Definition quoteNameRules : Rules := requiredOnly "Please enter your name".
Definition quotePhoneRules : Rules := requiredOnly "Please enter your phone number".
Definition quoteEmailRules : Rules := emailRules.

Inductive Error := TypeError | URIError.

Inductive result (A : Type) := Ok (a : A) | Throw (e : Error).
Arguments Ok {A} a.
Arguments Throw {A} e.

Definition bind {A B} (r : result A) (k : A -> result B) : result B :=
  match r with
  | Ok a => k a
  | Throw e => Throw e
  end.

Notation "'let!' x ':=' r 'in' k" := (bind r (fun x => k))
  (at level 10, x name, r at level 100, k at level 200).

Definition orThrow {A} (e : Error) (o : option A) : result A :=
  match o with
  | Some a => Ok a
  | None => Throw e
  end.

(** The [.email-fallback] panel that [createFallbackUI] appends to a form:
    the three links, the markup of the copy box and the label of the copy
    button. *)
Record Fallback := {
  pid : nat;
  owner : nat;
  mailtoUrl : str;
  gmailUrl : str;
  yahooUrl : str;
  copyBox : str;
  copyBtnText : str
}.

Definition setCopyBtnText (t : str) (f : Fallback) : Fallback :=
  {| pid := pid f; owner := owner f; mailtoUrl := mailtoUrl f; gmailUrl := gmailUrl f;
     yahooUrl := yahooUrl f; copyBox := copyBox f; copyBtnText := t |}.

Inductive Focus := OnElement (h : nat) | OnCopyBox (panel : nat).

Inductive Callback :=
| ContactSend (form name email message submitBtn success : nat) (originalBtnText : str)
| QuoteSend (form type port name phone email : nat) (details : option nat)
            (submitBtn : nat) (originalBtnText : str)
| RemoveNotice (notice : nat)
| RestoreLabel (panel : nat) (originalText : str).

Inductive Listener :=
| Blur (field : nat) (rules : Rules)
| Change (field : nat) (rules : Rules)
| SubmitContact (form name email message submitBtn success : nat)
| SubmitQuote (form type port name phone email : nat) (details : option nat)
              (submitBtn : nat).

(** The page: the document, the panels and success notices appended to
    forms, and what the handlers reach outside the document. *)
Record Page := {
  doc : list Element;
  panels : list Fallback;
  notices : list (nat * nat);       (* notice, form *)
  focus : option Focus;
  selection : option nat;           (* the copy box selected by selectAll *)
  href : option str;                (* the last window.location.href assigned *)
  console : list str;
  uncaught : list Error;
  listeners : list Listener;
  clock : N;
  nextId : nat;
  timers : list (timer Callback)
}.

Definition setDoc (d : list Element) (p : Page) : Page :=
  {| doc := d; panels := panels p; notices := notices p; focus := focus p;
     selection := selection p; href := href p; console := console p;
     uncaught := uncaught p; listeners := listeners p; clock := clock p;
     nextId := nextId p; timers := timers p |}.

Definition setPanels (l : list Fallback) (p : Page) : Page :=
  {| doc := doc p; panels := l; notices := notices p; focus := focus p;
     selection := selection p; href := href p; console := console p;
     uncaught := uncaught p; listeners := listeners p; clock := clock p;
     nextId := nextId p; timers := timers p |}.

Definition setNotices (l : list (nat * nat)) (p : Page) : Page :=
  {| doc := doc p; panels := panels p; notices := l; focus := focus p;
     selection := selection p; href := href p; console := console p;
     uncaught := uncaught p; listeners := listeners p; clock := clock p;
     nextId := nextId p; timers := timers p |}.

Definition setFocus (f : Focus) (p : Page) : Page :=
  {| doc := doc p; panels := panels p; notices := notices p; focus := Some f;
     selection := selection p; href := href p; console := console p;
     uncaught := uncaught p; listeners := listeners p; clock := clock p;
     nextId := nextId p; timers := timers p |}.

Definition setSelection (b : nat) (p : Page) : Page :=
  {| doc := doc p; panels := panels p; notices := notices p; focus := focus p;
     selection := Some b; href := href p; console := console p;
     uncaught := uncaught p; listeners := listeners p; clock := clock p;
     nextId := nextId p; timers := timers p |}.

Definition setHref (u : str) (p : Page) : Page :=
  {| doc := doc p; panels := panels p; notices := notices p; focus := focus p;
     selection := selection p; href := Some u; console := console p;
     uncaught := uncaught p; listeners := listeners p; clock := clock p;
     nextId := nextId p; timers := timers p |}.

(** [console.error(m, err)] *)
Definition consoleError (m : str) (p : Page) : Page :=
  {| doc := doc p; panels := panels p; notices := notices p; focus := focus p;
     selection := selection p; href := href p; console := console p ++ [m];
     uncaught := uncaught p; listeners := listeners p; clock := clock p;
     nextId := nextId p; timers := timers p |}.

(** An exception that leaves a handler is reported and otherwise lost. *)
Definition raise (e : Error) (p : Page) : Page :=
  {| doc := doc p; panels := panels p; notices := notices p; focus := focus p;
     selection := selection p; href := href p; console := console p;
     uncaught := uncaught p ++ [e]; listeners := listeners p; clock := clock p;
     nextId := nextId p; timers := timers p |}.

Definition addEventListeners (l : list Listener) (p : Page) : Page :=
  {| doc := doc p; panels := panels p; notices := notices p; focus := focus p;
     selection := selection p; href := href p; console := console p;
     uncaught := uncaught p; listeners := listeners p ++ l; clock := clock p;
     nextId := nextId p; timers := timers p |}.

Definition setTimeout (cb : Callback) (ms : N) (p : Page) : Page :=
  {| doc := doc p; panels := panels p; notices := notices p; focus := focus p;
     selection := selection p; href := href p; console := console p;
     uncaught := uncaught p; listeners := listeners p; clock := clock p;
     nextId := S (nextId p);
     timers := enqueue {| tid := nextId p; deadline := (clock p + ms)%N;
                          callback := cb |} (timers p) |}.

(** A fresh identity for an element created by a handler. *)
Definition fresh (p : Page) : nat * Page :=
  (nextId p,
   {| doc := doc p; panels := panels p; notices := notices p; focus := focus p;
      selection := selection p; href := href p; console := console p;
      uncaught := uncaught p; listeners := listeners p; clock := clock p;
      nextId := S (nextId p); timers := timers p |}).

(** Removes the first element that [P] selects, as
    [const e = form.querySelector(...); if (e) e.remove()] does. *)
Fixpoint removeFirst {A} (P : A -> bool) (l : list A) : list A :=
  match l with
  | [] => []
  | x :: l' => if P x then l' else x :: removeFirst P l'
  end.

Definition recipient : str := lit "reshineinternational@gmail.com".

Definition createFallbackUI (form : nat) (recipient subject body : str) (p : Page)
  : Page * option Error :=
  let p1 := setPanels (removeFirst (fun f => Nat.eqb (owner f) form) (panels p)) p in
  let gmailUrl := lit "https://mail.google.com/mail/?view=cm&fs=1&to=" ++ recipient
                  ++ lit "&su=" ++ subject ++ lit "&body=" ++ body in
  let yahooUrl := lit "http://compose.mail.yahoo.com/?to=" ++ recipient
                  ++ lit "&subject=" ++ subject ++ lit "&body=" ++ body in
  let mailtoUrl := lit "mailto:" ++ recipient ++ lit "?subject=" ++ subject
                   ++ lit "&body=" ++ body in
  match decodeURIComponent body with
  | None => (p1, Some URIError)
  | Some text =>
      let (i, p2) := fresh p1 in
      (setPanels (panels p2 ++
                  [{| pid := i; owner := form; mailtoUrl := mailtoUrl;
                      gmailUrl := gmailUrl; yahooUrl := yahooUrl;
                      copyBox := replaceNewlines (lit "<br>") text;
                      copyBtnText := lit "Copy to Clipboard" |}]) p2,
       None)
  end.

(** The listener of the copy button of panel [panel]; [written] tells
    whether the promise of [navigator.clipboard.writeText] is fulfilled. *)
Definition copyClick (panel : nat) (written : bool) (p : Page) : Page :=
  match list_find (fun f => pid f = panel) (panels p) with
  | None => p
  | Some (_, f) =>
      if written then
        let originalText := copyBtnText f in
        setTimeout (RestoreLabel panel originalText) 2000
          (setPanels ((fun g => if Nat.eqb (pid g) panel
                                then setCopyBtnText (lit "Copied!") g else g)
                      <$> panels p) p)
      else
        setSelection panel (setFocus (OnCopyBox panel)
                              (consoleError (lit "Failed to copy: ") p))
  end.

Definition restoreLabel (panel : nat) (originalText : str) (p : Page) : Page :=
  setPanels ((fun g => if Nat.eqb (pid g) panel
                       then setCopyBtnText originalText g else g)
             <$> panels p) p.

(** The text the contact form hands to [encodeURIComponent]. *)
Definition contactBody (name email message : str) : str :=
  lit "Name: " ++ name ++ [10%N]
  ++ lit "Email: " ++ email ++ [10; 10]%N
  ++ lit "Message:" ++ [10%N] ++ message.

Definition contactSubmit (form name email message submitBtn success : nat)
  (p : Page) : Page :=
  let isValid := true in
  let r1 := validateField name nameRules (doc p) in
  let isValid := r1.1 && isValid in
  let r2 := validateField email emailRules r1.2 in
  let isValid := r2.1 && isValid in
  let r3 := validateField message messageRules r2.2 in
  let isValid := r3.1 && isValid in
  let p1 := setDoc r3.2 p in
  if negb isValid then
    match querySelector form isAriaInvalid (doc p1) with
    | Some firstError => setFocus (OnElement firstError) p1
    | None => p1
    end
  else
    let originalBtnText := textOf submitBtn (doc p1) in
    setTimeout
      (ContactSend form name email message submitBtn success originalBtnText) 800
      (setDoc (alter (fun e => setTextContent (lit "Processing...")
                                 (setDisabled true e)) submitBtn (doc p1)) p1).

Definition contactSend (form name email message submitBtn success : nat)
  (originalBtnText : str) (p : Page) : Page :=
  let d := doc p in
  match encodeURIComponent (lit "Contact Form Submission: " ++ valueOf name d) with
  | None => raise URIError p
  | Some subject =>
    match encodeURIComponent
            (contactBody (valueOf name d) (valueOf email d) (valueOf message d)) with
    | None => raise URIError p
    | Some body =>
      let p1 := setHref (lit "mailto:" ++ recipient ++ lit "?subject=" ++ subject
                         ++ lit "&body=" ++ body) p in
      let d1 := alter (setTextContent (lit "Opening Email...")) submitBtn (doc p1) in
      let d2 := alter (fun e =>
                  setTextContent
                    (lit "Opening your email client... Please click Send in the new window.")
                    (setHidden false e)) success d1 in
      let p2 := setFocus (OnElement success) (setDoc d2 p1) in
      match createFallbackUI form recipient subject body p2 with
      | (p3, Some e) => raise e p3
      | (p3, None) =>
          setDoc (alter (fun e => setTextContent originalBtnText (setDisabled false e))
                    submitBtn (doc p3)) p3
      end
    end
  end.

(** [x.options[x.selectedIndex].text] *)
Definition selectedTextOf (h : nat) (d : list Element) : result str :=
  orThrow TypeError (d !! h ≫= selectedText).

(** [details.value], where [details] may be [null]. *)
Definition detailsValue (details : option nat) (d : list Element) : result str :=
  match details with
  | Some h => Ok (valueOf h d)
  | None => Throw TypeError
  end.

(** The text the quote form hands to [encodeURIComponent];
    [details || 'N/A'] is [orNA]. *)
Definition orNA (details : str) : str :=
  match details with
  | [] => lit "N/A"
  | _ => details
  end.

Definition quoteBody (type port name phone email details : str) : str :=
  lit "Service Type: " ++ type ++ [10%N]
  ++ lit "Port/Location: " ++ port ++ [10; 10]%N
  ++ lit "Name: " ++ name ++ [10%N]
  ++ lit "Phone: " ++ phone ++ [10%N]
  ++ lit "Email: " ++ email ++ [10; 10]%N
  ++ lit "Additional Details:" ++ [10%N] ++ orNA details.

Definition quoteSubmit (form type port name phone email : nat) (details : option nat)
  (submitBtn : nat) (p : Page) : Page :=
  let isValid := true in
  let r1 := validateField type quoteTypeRules (doc p) in
  let isValid := r1.1 && isValid in
  let r2 := validateField port quotePortRules r1.2 in
  let isValid := r2.1 && isValid in
  let r3 := validateField name quoteNameRules r2.2 in
  let isValid := r3.1 && isValid in
  let r4 := validateField phone quotePhoneRules r3.2 in
  let isValid := r4.1 && isValid in
  let r5 := validateField email quoteEmailRules r4.2 in
  let isValid := r5.1 && isValid in
  let p1 := setDoc r5.2 p in
  if negb isValid then
    match querySelector form isAriaInvalid (doc p1) with
    | Some firstError => setFocus (OnElement firstError) p1
    | None => p1
    end
  else
    let originalBtnText := textOf submitBtn (doc p1) in
    setTimeout
      (QuoteSend form type port name phone email details submitBtn originalBtnText) 800
      (setDoc (alter (fun e => setTextContent (lit "Processing...")
                                 (setDisabled true e)) submitBtn (doc p1)) p1).

(** The subject and the body of a quote request, both URI-encoded. *)
Definition quoteMessage (type port name phone email : nat) (details : option nat)
  (d : list Element) : result (str * str) :=
  let! t := selectedTextOf type d in
  let! subject := orThrow URIError (encodeURIComponent (lit "Quote Request: " ++ t)) in
  let! t' := selectedTextOf type d in
  let! q := selectedTextOf port d in
  let! extra := detailsValue details d in
  let! body := orThrow URIError
                 (encodeURIComponent
                    (quoteBody t' q (valueOf name d) (valueOf phone d)
                       (valueOf email d) extra)) in
  Ok (subject, body).

Definition quoteSend (form type port name phone email : nat) (details : option nat)
  (submitBtn : nat) (originalBtnText : str) (p : Page) : Page :=
  match quoteMessage type port name phone email details (doc p) with
  | Throw e => raise e p
  | Ok (subject, body) =>
      let p1 := setHref (lit "mailto:" ++ recipient ++ lit "?subject=" ++ subject
                         ++ lit "&body=" ++ body) p in
      let p2 := setDoc (alter (setTextContent (lit "Opening Email...")) submitBtn
                          (doc p1)) p1 in
      let (successMsg, p3) := fresh p2 in
      let p4 := setNotices (removeFirst (fun n => Nat.eqb n.2 form) (notices p3)
                            ++ [(successMsg, form)]) p3 in
      match createFallbackUI form recipient subject body p4 with
      | (p5, Some e) => raise e p5
      | (p5, None) =>
          setTimeout (RemoveNotice successMsg) 30000
            (setDoc (alter (fun e => setTextContent originalBtnText
                                       (setDisabled false e)) submitBtn (doc p5)) p5)
      end
  end.

Definition removeNotice (notice : nat) (p : Page) : Page :=
  setNotices (filter (fun n => n.1 <> notice) (notices p)) p.

Definition runCallback (cb : Callback) (p : Page) : Page :=
  match cb with
  | ContactSend form name email message submitBtn success originalBtnText =>
      contactSend form name email message submitBtn success originalBtnText p
  | QuoteSend form type port name phone email details submitBtn originalBtnText =>
      quoteSend form type port name phone email details submitBtn originalBtnText p
  | RemoveNotice notice => removeNotice notice p
  | RestoreLabel panel originalText => restoreLabel panel originalText p
  end.

(** *** Timers of the page

    The earliest timer that is due runs first, at its deadline; a callback
    may schedule a timer of its own ([quoteSend] does), which runs in the
    same wait when it falls due. [budget] bounds the number of callbacks a
    queue can give rise to. *)

Definition weight (cb : Callback) : nat :=
  match cb with
  | QuoteSend _ _ _ _ _ _ _ _ _ => 2
  | _ => 1
  end.

Definition budget (q : list (timer Callback)) : nat :=
  foldr (fun t n => (weight (callback t) + n)%nat) 0%nat q.

Definition popTimer (t : timer Callback) (q : list (timer Callback)) (p : Page) : Page :=
  {| doc := doc p; panels := panels p; notices := notices p; focus := focus p;
     selection := selection p; href := href p; console := console p;
     uncaught := uncaught p; listeners := listeners p;
     clock := N.max (clock p) (deadline t);
     nextId := nextId p; timers := q |}.

Definition setClock (now : N) (p : Page) : Page :=
  {| doc := doc p; panels := panels p; notices := notices p; focus := focus p;
     selection := selection p; href := href p; console := console p;
     uncaught := uncaught p; listeners := listeners p; clock := now;
     nextId := nextId p; timers := timers p |}.

Fixpoint fire (fuel : nat) (now : N) (p : Page) : Page :=
  match fuel with
  | O => p
  | S k =>
      match timers p with
      | t :: q =>
          if (deadline t <=? now)%N
          then fire k now (runCallback (callback t) (popTimer t q p))
          else p
      | [] => p
      end
  end.

Definition elapse (dt : N) (p : Page) : Page :=
  let now := (clock p + dt)%N in
  setClock now (fire (budget (timers p)) now p).

(** *** Events *)

Inductive Event :=
| BlurOn (h : nat)
| ChangeOn (h : nat)
| Submit (form : nat)
| CopyClick (panel : nat) (written : bool)
| Wait (dt : N).

Definition handle (ev : Event) (l : Listener) (p : Page) : Page :=
  match ev, l with
  | BlurOn h, Blur field rules =>
      if Nat.eqb h field then setDoc (validateField field rules (doc p)).2 p else p
  | ChangeOn h, Change field rules =>
      if Nat.eqb h field then setDoc (validateField field rules (doc p)).2 p else p
  | Submit f, SubmitContact form name email message submitBtn success =>
      if Nat.eqb f form
      then contactSubmit form name email message submitBtn success p else p
  | Submit f, SubmitQuote form type port name phone email details submitBtn =>
      if Nat.eqb f form
      then quoteSubmit form type port name phone email details submitBtn p else p
  | _, _ => p
  end.

Definition dispatch (ev : Event) (p : Page) : Page :=
  match ev with
  | CopyClick panel written => copyClick panel written p
  | Wait dt => elapse dt p
  | _ => foldl (fun acc l => handle ev l acc) p (listeners p)
  end.

(** *** Initialisation

    The blur listeners look the rules up under [field.id], which is the id
    the field was found by. *)

Definition initContactForm (p : Page) : Page :=
  match getElementById "contact-form" (doc p) with
  | None => p
  | Some form =>
      let name := getElementById "name" (doc p) in
      let email := getElementById "email" (doc p) in
      let message := getElementById "message" (doc p) in
      let submitBtn := querySelector form submitButton (doc p) in
      let success := getElementById "form-success" (doc p) in
      match name, email, message, submitBtn, success with
      | Some name, Some email, Some message, Some submitBtn, Some success =>
          addEventListeners
            [Blur name nameRules; Blur email emailRules; Blur message messageRules;
             SubmitContact form name email message submitBtn success] p
      | _, _, _, _, _ => p
      end
  end.

Definition fieldListeners (d : list Element) (fr : nat * Rules) : list Listener :=
  Blur fr.1 fr.2
  :: (if default false (select <$> d !! fr.1) then [Change fr.1 fr.2] else []).

Definition initQuickQuoteForm (p : Page) : Page :=
  match getElementById "quick-quote-form" (doc p) with
  | None => p
  | Some form =>
      let type := getElementById "quote-type" (doc p) in
      let port := getElementById "quote-port" (doc p) in
      let name := getElementById "quote-name" (doc p) in
      let phone := getElementById "quote-phone" (doc p) in
      let email := getElementById "quote-email" (doc p) in
      let details := getElementById "quote-details" (doc p) in
      let submitBtn := querySelector form submitButton (doc p) in
      match type, port, name, phone, email, submitBtn with
      | Some type, Some port, Some name, Some phone, Some email, Some submitBtn =>
          addEventListeners
            (([(type, quoteTypeRules); (port, quotePortRules); (name, quoteNameRules);
               (phone, quotePhoneRules); (email, quoteEmailRules)]
              ≫= fieldListeners (doc p))
             ++ [SubmitQuote form type port name phone email details submitBtn]) p
      | _, _, _, _, _, _ => p
      end
  end.

Definition init (p : Page) : Page := initQuickQuoteForm (initContactForm p).

(** A freshly loaded page. *)
Definition load (d : list Element) : Page :=
  {| doc := d; panels := []; notices := []; focus := None; selection := None;
     href := None; console := []; uncaught := []; listeners := []; clock := 0%N;
     nextId := 0%nat; timers := [] |}.

Definition run (evs : list Event) (p : Page) : Page :=
  foldl (fun acc ev => dispatch ev acc) p evs.

End FormValidation.

(** ** Throttling

    [throttle(func, limit)]: the closure variable [inThrottle] (falsy at
    first), the timer that clears it, and the environment [func] acts on.
    [func] is taken to return normally and not to call the throttled
    function itself. *)

Module Throttle.

Import Timers.

Section Throttled.
Context {E : Type} (func : E -> E) (limit : N).

Record State := {
  inThrottle : bool;
  env : E;
  clock : N;
  nextId : nat;
  timers : list (timer unit)
}.

(** The function [throttle] returns. *)
Definition throttled (s : State) : State :=
  if negb (inThrottle s) then
    {| inThrottle := true; env := func (env s); clock := clock s;
       nextId := S (nextId s);
       timers := enqueue {| tid := nextId s; deadline := (clock s + limit)%N;
                            callback := tt |} (timers s) |}
  else s.

(** [() => inThrottle = false] *)
Definition release (s : State) : State :=
  {| inThrottle := false; env := env s; clock := clock s; nextId := nextId s;
     timers := timers s |}.

Definition elapse (dt : N) (s : State) : State :=
  let now := (clock s + dt)%N in
  let s' := {| inThrottle := inThrottle s; env := env s; clock := now;
               nextId := nextId s; timers := later now (timers s) |} in
  foldl (fun acc _ => release acc) s' (due now (timers s)).

Definition create (e : E) : State :=
  {| inThrottle := false; env := e; clock := 0%N; nextId := 0%nat; timers := [] |}.

Inductive Event := Invoke | Wait (dt : N).

Definition step (ev : Event) (s : State) : State :=
  match ev with
  | Invoke => throttled s
  | Wait dt => elapse dt s
  end.

Definition run (evs : list Event) (s : State) : State :=
  foldl (fun acc ev => step ev acc) s evs.

End Throttled.

Arguments State : clear implicits.

End Throttle.

(** ** The mobile menu

    What [toggleMenu] and [closeMenu] read and write: the [aria-expanded]
    attribute of the hamburger, [menu.style.display] and
    [document.body.style.overflow]. The events are those of the listeners
    that [initMobileMenu] registers; the click listeners that
    [initSmoothScroll] gives to same-page links are left out. *)

Module Navigation.

Import JS.

Record Menu := {
  ariaExpanded : option str;
  display : str;
  overflow : str
}.

(** [hamburger.getAttribute('aria-expanded') === 'true'] *)
Definition isExpanded (s : Menu) : bool :=
  bool_decide (ariaExpanded s = Some (lit "true")).

Definition toggleMenu (s : Menu) : Menu :=
  let expanded := isExpanded s in
  {| ariaExpanded := Some (if negb expanded then lit "true" else lit "false");
     display := if expanded then [] else lit "block";
     overflow := if expanded then [] else lit "hidden" |}.

(** Where a click lands: [hamburger.contains(e.target)] and
    [menu.contains(e.target)]. *)
Record Target := { inHamburger : bool; inMenu : bool }.

(** [closeMenu], given what [hamburger.click()] does. *)
Definition closeMenu (click : Menu -> Menu) (s : Menu) : Menu :=
  if isExpanded s then click s else s.

(** The click listener of the document. *)
Definition onDocumentClick (click : Menu -> Menu) (t : Target) (s : Menu) : Menu :=
  if bool_decide (display s = lit "block") && negb (inHamburger t) && negb (inMenu t)
  then closeMenu click s
  else s.

(** The keydown listener of the document. *)
Definition onDocumentKeydown (click : Menu -> Menu) (key : str) (s : Menu) : Menu :=
  if bool_decide (key = lit "Escape") && isExpanded s then closeMenu click s else s.

(** [hamburger.click()]: the listener of the hamburger runs, then the event
    bubbles to the document, whose listener finds the target inside the
    hamburger and leaves the menu alone. *)
Definition hamburgerClick (inMenu : bool) (s : Menu) : Menu :=
  onDocumentClick (fun x => x) {| inHamburger := true; inMenu := inMenu |}
    (toggleMenu s).

Inductive Event := Click (t : Target) | Keydown (key : str).

(** The listeners [initMobileMenu] registers, when both elements exist;
    [nested] tells whether the hamburger lies inside the menu. *)
Definition dispatch (nested : bool) (ev : Event) (s : Menu) : Menu :=
  match ev with
  | Click t =>
      if inHamburger t then onDocumentClick (hamburgerClick nested) t (toggleMenu s)
      else onDocumentClick (hamburgerClick nested) t s
  | Keydown key => onDocumentKeydown (hamburgerClick nested) key s
  end.

Definition run (nested : bool) (evs : list Event) (s : Menu) : Menu :=
  foldl (fun acc ev => dispatch nested ev acc) s evs.

End Navigation.

(** ** Accordions

    The toggles of one accordion root, in document order. A toggle carries
    its [aria-expanded] attribute and, when its next sibling is an
    [.accordion-panel], the [style.maxHeight] of that panel in pixels
    ([None] is the empty value). *)

Module Accordion.

Import JS.

Record Toggle := {
  ariaExpanded : option str;
  panel : option (option Z)
}.

(** [btn.getAttribute('aria-expanded') === 'true'] *)
Definition isExpanded (b : Toggle) : bool :=
  bool_decide (ariaExpanded b = Some (lit "true")).

Definition closePanel (b : Toggle) : Toggle :=
  match panel b with
  | Some _ => {| ariaExpanded := Some (lit "false"); panel := Some None |}
  | None => b
  end.

(** [togglePanel(btn, rootSelector, allowMultiple, allToggles)], where [btn]
    is the toggle at position [i] and [scrollHeight] is what
    [panel.scrollHeight] reads at that moment. *)
Definition togglePanel (i : nat) (rootSelector : string) (allowMultiple : bool)
  (scrollHeight : Z) (allToggles : list Toggle) : list Toggle :=
  match allToggles !! i with
  | None => allToggles
  | Some btn =>
      let expanded := isExpanded btn in
      match panel btn with
      | None => allToggles
      | Some _ =>
          let others :=
            if negb expanded && negb allowMultiple
               && bool_decide (rootSelector = "#faq-accordion"%string)
            then imap (fun j otherBtn =>
                         if negb (Nat.eqb j i) && isExpanded otherBtn
                         then closePanel otherBtn else otherBtn) allToggles
            else allToggles in
          <[i := {| ariaExpanded := Some (if negb expanded then lit "true" else lit "false");
                    panel := Some (if negb expanded then Some scrollHeight else None) |}]>
            others
      end
  end.

(** The listeners [setup] gives each toggle: the click, and the keydown that
    turns Enter and the space bar into a click. *)
Inductive Event :=
| Click (i : nat) (scrollHeight : Z)
| Keydown (i : nat) (key : str) (scrollHeight : Z).

Definition dispatch (rootSelector : string) (allowMultiple : bool) (ev : Event)
  (toggles : list Toggle) : list Toggle :=
  match ev with
  | Click i h => togglePanel i rootSelector allowMultiple h toggles
  | Keydown i key h =>
      if bool_decide (key = lit "Enter") || bool_decide (key = lit " ")
      then togglePanel i rootSelector allowMultiple h toggles
      else toggles
  end.

Definition run (rootSelector : string) (allowMultiple : bool) (evs : list Event)
  (toggles : list Toggle) : list Toggle :=
  foldl (fun acc ev => dispatch rootSelector allowMultiple ev acc) toggles evs.

End Accordion.

(** ** Resource downloads

    The [.resource-download] buttons and the [.resource-card]s of the page.
    A button knows the card [closest] finds for it, a card the text of its
    first [h3] and the [.download-success] messages appended to it. *)

Module ResourceDownload.

Import Timers JS.

Record Button := {
  textContent : str;
  spinner : bool;               (* holds the [.download-spinner] span *)
  disabled : bool;
  downloading : bool;           (* the [downloading] class *)
  card : option nat             (* [button.closest('.resource-card')] *)
}.

Record Message := {
  mid : nat;
  text : str;                   (* the text of its second span *)
  faded : bool                  (* [style.opacity = '0'] and the transform *)
}.

Record Card := {
  title : option str;           (* [querySelector('h3')?.textContent] *)
  messages : list Message
}.

Inductive Callback :=
| Finish (button : nat) (resourceCard : option nat) (resourceTitle : option str)
         (originalText : str)
| Fade (successMessage : nat)
| Remove (successMessage : nat).

Record Page := {
  buttons : list Button;
  cards : list Card;
  uncaught : nat;               (* the [TypeError]s that left a callback *)
  clock : N;
  nextId : nat;
  timers : list (timer Callback)
}.

Definition setTimeout (cb : Callback) (ms : N) (p : Page) : Page :=
  {| buttons := buttons p; cards := cards p; uncaught := uncaught p; clock := clock p;
     nextId := S (nextId p);
     timers := enqueue {| tid := nextId p; deadline := (clock p + ms)%N;
                          callback := cb |} (timers p) |}.

Definition setButtons (l : list Button) (p : Page) : Page :=
  {| buttons := l; cards := cards p; uncaught := uncaught p; clock := clock p;
     nextId := nextId p; timers := timers p |}.

Definition setCards (l : list Card) (p : Page) : Page :=
  {| buttons := buttons p; cards := l; uncaught := uncaught p; clock := clock p;
     nextId := nextId p; timers := timers p |}.

Definition raise (p : Page) : Page :=
  {| buttons := buttons p; cards := cards p; uncaught := S (uncaught p);
     clock := clock p; nextId := nextId p; timers := timers p |}.

(** A template literal writes [undefined] for a missing title. *)
Definition shown (resourceTitle : option str) : str :=
  match resourceTitle with
  | Some t => t
  | None => lit "undefined"
  end.

(** [handleDownload(button)] for the button at position [b]. *)
Definition handleDownload (b : nat) (p : Page) : Page :=
  match buttons p !! b with
  | None => p
  | Some button =>
      let resourceCard := card button in
      let resourceTitle :=
        match resourceCard with
        | Some c => cards p !! c ≫= title
        | None => Some (lit "Resource")
        end in
      let originalText := textContent button in
      setTimeout (Finish b resourceCard resourceTitle originalText) 1500
        (setButtons
           (<[b := {| textContent := lit " Downloading..."; spinner := true;
                      disabled := true; downloading := true;
                      card := card button |}]> (buttons p)) p)
  end.

(** Removes the first message of a card, as
    [const m = card.querySelector('.download-success'); if (m) m.remove()]
    does. *)
Definition dropFirst (c : Card) : Card :=
  {| title := title c; messages := tail (messages c) |}.

(** [showDownloadSuccess(card, title)]; [None] is the [TypeError] of
    [card.querySelector] on [null]. *)
Definition showDownloadSuccess (resourceCard : option nat) (resourceTitle : option str)
  (p : Page) : option Page :=
  match resourceCard with
  | None => None
  | Some c =>
      let successMessage := nextId p in
      let p1 := {| buttons := buttons p;
                   cards := alter (fun x =>
                              {| title := title x;
                                 messages := messages (dropFirst x)
                                   ++ [{| mid := successMessage;
                                          text := shown resourceTitle
                                                  ++ lit " downloaded successfully!";
                                          faded := false |}] |}) c (cards p);
                   uncaught := uncaught p; clock := clock p; nextId := S (nextId p);
                   timers := timers p |} in
      Some (setTimeout (Fade successMessage) 3000 p1)
  end.

Definition finish (b : nat) (resourceCard : option nat) (resourceTitle : option str)
  (originalText : str) (p : Page) : Page :=
  match showDownloadSuccess resourceCard resourceTitle p with
  | None => raise p
  | Some p1 =>
      setButtons (alter (fun button =>
                           {| textContent := originalText; spinner := false;
                              disabled := false; downloading := false;
                              card := card button |}) b (buttons p1)) p1
  end.

Definition onMessage (m : nat) (f : Message -> Message) (c : Card) : Card :=
  {| title := title c;
     messages := (fun x => if Nat.eqb (mid x) m then f x else x) <$> messages c |}.

Definition fade (m : nat) (p : Page) : Page :=
  setTimeout (Remove m) 300
    (setCards (onMessage m (fun x => {| mid := mid x; text := text x; faded := true |})
               <$> cards p) p).

Definition remove (m : nat) (p : Page) : Page :=
  setCards ((fun c => {| title := title c;
                         messages := filter (fun x => mid x <> m) (messages c) |})
            <$> cards p) p.

Definition runCallback (cb : Callback) (p : Page) : Page :=
  match cb with
  | Finish b resourceCard resourceTitle originalText =>
      finish b resourceCard resourceTitle originalText p
  | Fade m => fade m p
  | Remove m => remove m p
  end.

(** A callback may schedule the next one; [budget] bounds the callbacks a
    queue gives rise to. *)
Definition weight (cb : Callback) : nat :=
  match cb with
  | Finish _ _ _ _ => 3
  | Fade _ => 2
  | Remove _ => 1
  end.

Definition budget (q : list (timer Callback)) : nat :=
  foldr (fun t n => (weight (callback t) + n)%nat) 0%nat q.

Definition popTimer (t : timer Callback) (q : list (timer Callback)) (p : Page) : Page :=
  {| buttons := buttons p; cards := cards p; uncaught := uncaught p;
     clock := N.max (clock p) (deadline t); nextId := nextId p; timers := q |}.

Fixpoint fire (fuel : nat) (now : N) (p : Page) : Page :=
  match fuel with
  | O => p
  | S k =>
      match timers p with
      | t :: q =>
          if (deadline t <=? now)%N
          then fire k now (runCallback (callback t) (popTimer t q p))
          else p
      | [] => p
      end
  end.

Definition elapse (dt : N) (p : Page) : Page :=
  let now := (clock p + dt)%N in
  let p' := fire (budget (timers p)) now p in
  {| buttons := buttons p'; cards := cards p'; uncaught := uncaught p'; clock := now;
     nextId := nextId p'; timers := timers p' |}.

(** [Click b] is a click that reaches the listener of button [b]; whether a
    disabled control still receives clicks depends on the element and is
    left to the sequence of events. *)
Inductive Event := Click (b : nat) | Wait (dt : N).

Definition dispatch (ev : Event) (p : Page) : Page :=
  match ev with
  | Click b => handleDownload b p
  | Wait dt => elapse dt p
  end.

Definition run (evs : list Event) (p : Page) : Page :=
  foldl (fun acc ev => dispatch ev acc) p evs.

Definition load (bs : list Button) (cs : list Card) : Page :=
  {| buttons := bs; cards := cs; uncaught := 0%nat; clock := 0%N; nextId := 0%nat;
     timers := [] |}.

End ResourceDownload.

(** ** The hero video

    The [.hero-image] container: its [video-error] class, its first video
    with [style.display] and whether [video.error] is set, and the images it
    contains, by their [src]. *)

Module VideoPlayer.

Import JS.

Record Video := { display : str; error : bool }.

Record Container := {
  videoError : bool;
  video : option Video;
  imgs : list str
}.

Definition handleVideoError (container : Container) : Container :=
  match video container with
  | Some v =>
      {| videoError := true;
         video := Some {| display := lit "none"; error := error v |};
         imgs := match imgs container with
                 | [] => [lit "images/container_ship.jpg"]
                 | _ => imgs container
                 end |}
  | None => {| videoError := true; video := None; imgs := imgs container |}
  end.

(** The page as far as [init] is concerned; [listening] tells whether the
    error listener has been registered. *)
Record Page := {
  container : option Container;
  console : list str;
  listening : bool
}.

(** [init]; [playRejected] tells whether the promise of [video.play()] is
    rejected. *)
Definition init (playRejected : bool) (p : Page) : Page :=
  match container p with
  | None => p
  | Some c =>
      match video c with
      | None => p
      | Some v =>
          {| container := Some (if error v then handleVideoError c else c);
             console := console p
                        ++ (if playRejected then [lit "Auto-play prevented:"] else []);
             listening := true |}
      end
  end.

(** The [error] event of the video. *)
Definition onError (p : Page) : Page :=
  if listening p then
    {| container := handleVideoError <$> container p;
       console := console p ++ [lit "Video failed to load, switching to fallback."];
       listening := true |}
  else p.

(** [n] error events in a row. *)
Fixpoint errors (n : nat) (p : Page) : Page :=
  match n with
  | O => p
  | S k => onError (errors k p)
  end.

End VideoPlayer.

(** * Notions used in the statements *)

Section CarouselNotions.

Import Timers Carousel.

(** The bounds of the specification: [0 <= currentIndex < slideCount]. *)
Definition inBounds (s : State) : Prop := 0 <= index s <= slideCount s - 1.

(** A three-slide page with a dots container, as served. *)
Definition threeSlides : Dom :=
  {| track := Some [None; None; None];
     prevBtn := Some {| disabled := false; ariaDisabled := None |};
     nextBtn := Some {| disabled := false; ariaDisabled := None |};
     dotsContainer := Some [];
     region := true |}.

Definition someLayout : Layout := {| offsetWidth := 320; gapParsed := Some 24 |}.

(** Its state once [init] has run (the second branch is not taken). *)
Definition threeSlideState : State :=
  match init someLayout threeSlides with
  | Some w => state w
  | None => {| items := []; index := 0; isTransitioning := false; translateX := None;
               prev := {| disabled := false; ariaDisabled := None |};
               next := {| disabled := false; ariaDisabled := None |};
               dots := []; clock := 0%N; nextId := 0%nat; timers := [];
               resizeTimeout := None |}
  end.

(** The timers of the carousel: [Unlock] ends a transition, [Rerender] is
    the first render of [init] or the debounced one of a resize. *)
Definition isUnlock (t : timer Callback) : bool :=
  match callback t with Unlock => true | Rerender => false end.

Definition pendingUnlocks (q : list (timer Callback)) : nat :=
  length (filter (fun t => isUnlock t = true) q).

(** What holds of the timer queue between two calls: identifiers are fresh
    and distinct, [resizeTimeout] names a render and every render but the
    first is the one it names, every timer falls due within 400 ms, and the
    lock is set exactly while one [Unlock] is pending. *)
Record wellTimed (s : State) : Prop := {
  wt_ids : (0 < nextId s)%nat /\ Forall (fun t => (tid t < nextId s)%nat) (timers s);
  wt_nodup : NoDup (tid <$> timers s);
  wt_resize : forall i, resizeTimeout s = Some i -> (0 < i < nextId s)%nat;
  wt_debounce : forall t, t ∈ timers s -> resizeTimeout s = Some (tid t) ->
                          callback t = Rerender;
  wt_render : forall t, t ∈ timers s -> callback t = Rerender ->
                        tid t = 0%nat \/ resizeTimeout s = Some (tid t);
  wt_future : Forall (fun t => (clock s < deadline t <= clock s + 400)%N) (timers s);
  wt_lock : pendingUnlocks (timers s) = if isTransitioning s then 1%nat else 0%nat
}.

(** The controls, the dots and the slides show the index. *)
Definition synced (s : State) : Prop :=
  disabled (prev s) = (index s =? 0)
  /\ disabled (next s) = (index s =? slideCount s - 1)
  /\ (forall i dot, dots s !! i = Some dot -> active dot = (Z.of_nat i =? index s))
  /\ (forall i h, items s !! i = Some h -> h = Some (negb (Z.of_nat i =? index s))).

End CarouselNotions.

Section Notions.

Import Timers JS Dom FormValidation.

(** The error element of field [f]: [document.getElementById('error-' + f.id)]. *)
Definition errOf (d : list Element) (f : nat) : option nat :=
  d !! f ≫= (fun x => getElementById (String.append "error-" (id x)) d).

(** What [showError(f, m)] does to the element at position [h], [err] being
    the error element of [f]. *)
Definition touch (f : nat) (m : option str) (err : option nat) (h : nat)
  (e : Element) : Element :=
  let e1 := if bool_decide (err = Some h)
            then setRole (if truthy m then lit "alert" else [])
                   (setTextContent (orEmpty m) e)
            else e in
  if bool_decide (h = f)
  then setInvalid (if truthy m then Some (lit "true") else None) e1
  else e1.

(** The branch [validateField] takes on a trimmed value: its result and the
    message it hands to [showError]. *)
Definition verdict (rules : Rules) (value : str) : bool * option str :=
  if truthy (required rules) && negb (nonEmpty value) then (false, required rules)
  else if nonEmpty value
          && match pattern rules with Some t => negb (t value) | None => false end
  then (false, patternError rules)
  else if nonEmpty value
          && match minLength rules with
             | Some n => negb (n =? 0) && (Z.of_nat (length value) <? n)
             | None => false
             end
  then (false, minLengthError rules)
  else (true, Some []).

(** [showError] writes [textContent], [role], [aria-invalid] and the
    [error-field] class, nothing else: the rest of an element is
    [static]. *)
Definition static (e : Element) :=
  (id e, form e, submitButton e, select e, value e, selectedText e, disabled e, hidden e).

(** A rule table is worded when every rule that can fail has a message. *)
Definition worded (r : Rules) : Prop :=
  forall v, (verdict r v).1 = false -> truthy (verdict r v).2 = true.

(** The validation loop of a submit handler, over the fields in the order the
    handler lists them: [isValid = validateField(f, rules) && isValid]. *)
Definition validateAll (fs : list (nat * Rules)) (d : list Element)
  : bool * list Element :=
  foldl (fun acc fr =>
           let r := validateField fr.1 fr.2 acc.2 in (r.1 && acc.1, r.2))
        (true, d) fs.

(** Whether the value a field holds in [d] passes its rules, and the message
    [validateField] shows for it. *)
Definition passes (d : list Element) (fr : nat * Rules) : bool :=
  (verdict fr.2 (trim (valueOf fr.1 d))).1.

Definition messageFor (d : list Element) (fr : nat * Rules) : option str :=
  (verdict fr.2 (trim (valueOf fr.1 d))).2.

(** The combined effect of the loop on the element at position [h]. *)
Definition touchAll (d : list Element) (fs : list (nat * Rules)) (h : nat)
  (e : Element) : Element :=
  foldl (fun acc fr => touch fr.1 (messageFor d fr) (errOf d fr.1) h acc) e fs.

(** The field tables of the two forms. *)
Definition contactFields (name email message : nat) : list (nat * Rules) :=
  [(name, nameRules); (email, emailRules); (message, messageRules)].

Definition quoteFields (type port name phone email : nat) : list (nat * Rules) :=
  [(type, quoteTypeRules); (port, quotePortRules); (name, quoteNameRules);
   (phone, quotePhoneRules); (email, quoteEmailRules)].

(** The shape both submit handlers share: the loop, then either the focus on
    the first element of the form that carries [aria-invalid="true"], or the
    processing state and the timer that sends the message. *)
Definition submitLoop (frm submitBtn : nat) (fs : list (nat * Rules))
  (send : str -> Callback) (p : Page) : Page :=
  let res := validateAll fs (doc p) in
  let p1 := setDoc res.2 p in
  if negb res.1 then
    match querySelector frm isAriaInvalid (doc p1) with
    | Some firstError => setFocus (OnElement firstError) p1
    | None => p1
    end
  else
    let originalBtnText := textOf submitBtn (doc p1) in
    setTimeout (send originalBtnText) 800
      (setDoc (alter (fun e => setTextContent (lit "Processing...")
                                 (setDisabled true e)) submitBtn (doc p1)) p1).

(** The fields of [fs] are the elements found under the ids [ids]. *)
Definition foundBy (d : list Element) (ids : list string) (fs : list (nat * Rules))
  : Prop :=
  NoDup ids /\ Forall2 (fun i fr => getElementById i d = Some fr.1) ids fs.

(** The fields lie in form [frm] in the order of the table, and no other
    element of the form carries [aria-invalid="true"]. *)
Definition inOrder (d : list Element) (frm : nat) (fs : list (nat * Rules)) : Prop :=
  StronglySorted lt fs.*1
  /\ (forall fr, fr ∈ fs -> exists e, d !! fr.1 = Some e /\ form e = Some frm)
  /\ (forall h e, d !! h = Some e -> form e = Some frm -> isAriaInvalid e = true ->
                  h ∈ fs.*1).

(** What one submission does: [p] is the page before, [p'] the page after. *)
Definition SubmitSpec (frm submitBtn : nat) (fs : list (nat * Rules))
  (send : str -> Callback) (p p' : Page) : Prop :=
  let d := doc p in
  (forall fr e', fr ∈ fs -> doc p' !! fr.1 = Some e' ->
     ariaInvalid e' = (if passes d fr then None else Some (lit "true"))
     /\ errorField e' = negb (passes d fr)
     /\ forall eh, errOf d fr.1 = Some eh -> eh <> submitBtn ->
          textOf eh (doc p') = orEmpty (messageFor d fr))
  /\ (forall h, value <$> doc p' !! h = value <$> d !! h)
  /\ ((exists fr, fr ∈ fs /\ passes d fr = false) ->
       timers p' = timers p /\ href p' = href p /\ panels p' = panels p
       /\ forall h, disabled <$> doc p' !! h = disabled <$> d !! h)
  /\ ((forall fr, fr ∈ fs -> passes d fr = true) ->
       (exists original,
           timers p' = enqueue {| tid := nextId p; deadline := (clock p + 800)%N;
                                  callback := send original |} (timers p))
       /\ forall e, d !! submitBtn = Some e ->
            exists e', doc p' !! submitBtn = Some e' /\ disabled e' = true
                       /\ textContent e' = lit "Processing...")
  /\ (inOrder d frm fs ->
       forall k fr, fs !! k = Some fr -> passes d fr = false ->
         (forall j fr', (j < k)%nat -> fs !! j = Some fr' -> passes d fr' = true) ->
         focus p' = Some (OnElement fr.1)).

(** When each of the three checks of [validateField] fails on a trimmed
    value. *)
Definition failsRequired (r : Rules) (v : str) : Prop :=
  truthy (required r) = true /\ v = [].

Definition failsPattern (r : Rules) (v : str) : Prop :=
  v <> [] /\ exists t, pattern r = Some t /\ t v = false.

Definition failsMinLength (r : Rules) (v : str) : Prop :=
  v <> [] /\ exists n, minLength r = Some n /\ n <> 0 /\ Z.of_nat (length v) < n.

Definition blank (s : str) : Prop := Forall (fun c => isWhiteSpace c = true) s.

(** A contact page as served: the form, its three fields each followed by
    its error element, the submit button and the success notice. *)
Definition element (i : string) (f : option nat) (v : str) : Element :=
  {| id := i; form := f; submitButton := false; select := false; value := v;
     selectedText := None; textContent := []; ariaInvalid := None; role := None;
     errorField := false; disabled := false; hidden := false |}.

Definition submitControl (f : option nat) (label : str) : Element :=
  {| id := ""; form := f; submitButton := true; select := false; value := [];
     selectedText := None; textContent := label; ariaInvalid := None; role := None;
     errorField := false; disabled := false; hidden := false |}.

Definition contactPage (name email message : str) : Page :=
  load [ element "contact-form" None [];
         element "name" (Some 0%nat) name; element "error-name" (Some 0%nat) [];
         element "email" (Some 0%nat) email; element "error-email" (Some 0%nat) [];
         element "message" (Some 0%nat) message;
         element "error-message" (Some 0%nat) [];
         submitControl (Some 0%nat) (lit "Send Message");
         {| id := "form-success"; form := Some 0%nat; submitButton := false;
            select := false; value := []; selectedText := None; textContent := [];
            ariaInvalid := None; role := None; errorField := false;
            disabled := false; hidden := true |} ].

(** An optional field with a pattern and a minimum length, left blank. *)
Definition optionalRules : Rules :=
  {| required := None;
     pattern := Some (test emailPattern);
     patternError := Some (lit "Please enter a valid email address");
     minLength := Some 10;
     minLengthError := Some (lit "Message must be at least 10 characters") |}.

Definition blankField : list Element :=
  [ {| id := "cc"; form := None; submitButton := false; select := false;
       value := [32; 9; 160]%N; selectedText := None; textContent := [];
       ariaInvalid := Some (lit "true"); role := None; errorField := true;
       disabled := false; hidden := false |};
    element "error-cc" None (lit "Please enter a valid email address") ].

Definition janePage : Page :=
  contactPage (lit "Jane") (lit "not-an-email") (lit "hi").

(** A contact page on which the form has been submitted with valid entries
    and the send has run, so that the fallback panel is shown. *)
Definition submitted (name email message : str) : Page :=
  run [Submit 0; Wait 800] (init (contactPage name email message)).

(** A quote page; [withDetails] tells whether the page has the
    [quote-details] text area. *)
Definition choice (i : string) (v text : str) : Element :=
  {| id := i; form := Some 0%nat; submitButton := false; select := true; value := v;
     selectedText := Some text; textContent := []; ariaInvalid := None; role := None;
     errorField := false; disabled := false; hidden := false |}.

Definition quotePage (withDetails : bool) (details : str) : Page :=
  load ([ element "quick-quote-form" None [];
          choice "quote-type" (lit "customs") (lit "Customs Clearance");
          choice "quote-port" (lit "mundra") (lit "Mundra Port");
          element "quote-name" (Some 0%nat) (lit "Jane");
          element "quote-phone" (Some 0%nat) (lit "+91 98765 43210");
          element "quote-email" (Some 0%nat) (lit "jane@x.com");
          submitControl (Some 0%nat) (lit "Get Quote") ]
        ++ (if withDetails then [element "quote-details" (Some 0%nat) details] else [])).

(** A timer queue in the order in which its callbacks run, and a page on
    which no callback is due at time [now]. *)
Definition byDeadline (q : list (timer Callback)) : Prop :=
  StronglySorted (fun a b => (deadline a <= deadline b)%N) q.

Definition settled (now : N) (p : Page) : Prop :=
  Forall (fun t => (now < deadline t)%N) (timers p).

(** The labels of the copy buttons on the page. *)
Definition copyLabels (p : Page) : list str := copyBtnText <$> panels p.

Definition shipment : Page :=
  submitted (lit "Jane") (lit "jane@x.com") (lit "Please quote me for a shipment").

(** The text that is URI-encoded by [encodeURIComponent] without loss: 16-bit
    code units. *)
Definition codeUnits (s : str) : Prop := Forall (fun c => (c < 0x10000)%N) s.

(** No form carries two fallback panels or two success notices. *)
Definition onePerForm (p : Page) : Prop :=
  NoDup (owner <$> panels p) /\ NoDup (snd <$> notices p).

(** The strings a pattern denotes. *)
Inductive lang : regex -> str -> Prop :=
| lang_eps : lang Eps []
| lang_class p c : p c = true -> lang (Class p) [c]
| lang_seq r1 r2 s1 s2 : lang r1 s1 -> lang r2 s2 -> lang (Seq r1 r2) (s1 ++ s2)
| lang_alt_l r1 r2 s : lang r1 s -> lang (Alt r1 r2) s
| lang_alt_r r1 r2 s : lang r2 s -> lang (Alt r1 r2) s
| lang_star_nil r : lang (Star r) []
| lang_star_more r s1 s2 : lang r s1 -> lang (Star r) s2 -> lang (Star r) (s1 ++ s2).

(** A part of an address, not empty and free of white space and of [@],
    and an address: three parts, [@] after the first, a dot before the
    last. *)
Definition addressPart (s : str) : Prop :=
  s <> [] /\ Forall (fun c => notSpaceOrAt c = true) s.

Definition address (s : str) : Prop :=
  exists name host tail,
    s = name ++ [0x40%N] ++ host ++ [0x2E%N] ++ tail
    /\ addressPart name /\ addressPart host /\ addressPart tail.

End Notions.

Section ThrottleNotions.

Import Timers Throttle.

(** The throttle is closed exactly while its one timer is pending, and that
    timer falls due no later than [limit] from now. *)
Definition windowed {E} (limit : N) (s : State E) : Prop :=
  (inThrottle s = true -> exists t, timers s = [t]
                                    /\ (clock s <= deadline t <= clock s + limit)%N)
  /\ (inThrottle s = false -> timers s = []).

End ThrottleNotions.

Section MenuNotions.

Import JS Navigation.

(** The three places the state of the menu is kept in agree. *)
Definition opened (s : Menu) : Prop :=
  ariaExpanded s = Some (lit "true") /\ display s = lit "block"
  /\ overflow s = lit "hidden".

Definition closed (s : Menu) : Prop :=
  ariaExpanded s <> Some (lit "true") /\ display s = [] /\ overflow s = [].

End MenuNotions.

Section AccordionNotions.

Import JS Accordion.

(** The toggles that read as expanded. *)
Definition expandedAt (ts : list Toggle) (i : nat) : Prop :=
  exists b, ts !! i = Some b /\ isExpanded b = true.

(** Every toggle that reads as expanded has a panel, and at most one does. *)
Definition exclusive (ts : list Toggle) : Prop :=
  (forall i b, ts !! i = Some b -> isExpanded b = true -> panel b <> None)
  /\ (forall i j, expandedAt ts i -> expandedAt ts j -> i = j).

End AccordionNotions.

Section DownloadNotions.

Import Timers JS ResourceDownload.

(** No card shows more than one success message. *)
Definition oneMessage (p : Page) : Prop :=
  Forall (fun c => (length (messages c) <= 1)%nat) (cards p).

(** A button while its download is simulated. *)
Definition busy (button : Button) : Button :=
  {| textContent := lit " Downloading..."; spinner := true; disabled := true;
     downloading := true; card := card button |}.

End DownloadNotions.

(** * Properties of the carousel *)

Section CarouselFacts.

Import Timers Carousel.

Lemma update_index L s : index (update L s) = index s.
Proof. unfold update. destruct (length (items s) =? 0)%nat; reflexivity. Qed.

Lemma update_lock L s : isTransitioning (update L s) = isTransitioning s.
Proof. unfold update. destruct (length (items s) =? 0)%nat; reflexivity. Qed.

Lemma update_timers L s : timers (update L s) = timers s.
Proof. unfold update. destruct (length (items s) =? 0)%nat; reflexivity. Qed.

Lemma update_clock L s : clock (update L s) = clock s.
Proof. unfold update. destruct (length (items s) =? 0)%nat; reflexivity. Qed.

Lemma update_nextId L s : nextId (update L s) = nextId s.
Proof. unfold update. destruct (length (items s) =? 0)%nat; reflexivity. Qed.

Lemma update_slideCount L s : slideCount (update L s) = slideCount s.
Proof.
  unfold update, slideCount.
  destruct (length (items s) =? 0)%nat; simpl; [reflexivity |].
  now rewrite length_imap.
Qed.

Lemma goToNext_slideCount L s : slideCount (goToNext L s) = slideCount s.
Proof.
  unfold goToNext.
  destruct (isTransitioning s || (index s >=? slideCount s - 1)); [reflexivity |].
  exact (update_slideCount L (moveTo (index s + 1) s)).
Qed.

Lemma goToPrev_slideCount L s : slideCount (goToPrev L s) = slideCount s.
Proof.
  unfold goToPrev.
  destruct (isTransitioning s || (index s <=? 0)); [reflexivity |].
  exact (update_slideCount L (moveTo (index s - 1) s)).
Qed.

Lemma goToSlide_slideCount L i s : slideCount (goToSlide L i s) = slideCount s.
Proof.
  unfold goToSlide.
  destruct (isTransitioning s || (i =? index s) || (i <? 0) || (i >=? slideCount s));
    [reflexivity |].
  exact (update_slideCount L (moveTo i s)).
Qed.

Lemma runCallback_slideCount L cb s : slideCount (runCallback L cb s) = slideCount s.
Proof. destruct cb; simpl; [reflexivity | apply update_slideCount]. Qed.

Lemma runCallback_index L cb s : index (runCallback L cb s) = index s.
Proof. destruct cb; simpl; [reflexivity | apply update_index]. Qed.

Lemma fired_frame L (q : list (timer Callback)) s :
  let s' := foldl (fun acc t => runCallback L (callback t) acc) s q in
  slideCount s' = slideCount s /\ index s' = index s.
Proof.
  revert s. induction q as [| t q IH]; intros s; simpl; [easy |].
  destruct (IH (runCallback L (callback t) s)) as [Hc Hi]. simpl in Hc, Hi.
  rewrite Hc, Hi, runCallback_slideCount, runCallback_index. easy.
Qed.

Lemma step_slideCount L c s : slideCount (step L c s) = slideCount s.
Proof.
  destruct c; simpl.
  - apply goToNext_slideCount.
  - apply goToPrev_slideCount.
  - apply goToSlide_slideCount.
  - reflexivity.
  - unfold elapse. now destruct (fired_frame L (due (clock s + dt)%N (timers s))
      {| items := items s; index := index s; isTransitioning := isTransitioning s;
         translateX := translateX s; prev := prev s; next := next s; dots := dots s;
         clock := (clock s + dt)%N; nextId := nextId s;
         timers := later (clock s + dt)%N (timers s);
         resizeTimeout := resizeTimeout s |}) as [-> _].
Qed.

Lemma step_inBounds L c s : inBounds s -> inBounds (step L c s).
Proof.
  unfold inBounds. intros H. rewrite step_slideCount.
  destruct c; simpl.
  - unfold goToNext.
    destruct (isTransitioning s); simpl; [exact H |].
    destruct (Z.geb_spec (index s) (slideCount s - 1)); [exact H |].
    simpl. rewrite update_index. simpl. lia.
  - unfold goToPrev.
    destruct (isTransitioning s); simpl; [exact H |].
    destruct (Z.leb_spec (index s) 0); [exact H |].
    simpl. rewrite update_index. simpl. lia.
  - unfold goToSlide.
    destruct (isTransitioning s); simpl; [exact H |].
    destruct (Z.eqb_spec i (index s)); simpl; [exact H |].
    destruct (Z.ltb_spec i 0); simpl; [exact H |].
    destruct (Z.geb_spec i (slideCount s)); [exact H |].
    simpl. rewrite update_index. simpl. lia.
  - exact H.
  - unfold elapse. now destruct (fired_frame L (due (clock s + dt)%N (timers s))
      {| items := items s; index := index s; isTransitioning := isTransitioning s;
         translateX := translateX s; prev := prev s; next := next s; dots := dots s;
         clock := (clock s + dt)%N; nextId := nextId s;
         timers := later (clock s + dt)%N (timers s);
         resizeTimeout := resizeTimeout s |}) as [_ ->].
Qed.

Lemma run_inBounds cs s :
  inBounds s -> inBounds (run cs s) /\ slideCount (run cs s) = slideCount s.
Proof.
  revert s. induction cs as [| [L c] cs IH]; intros s H; simpl; [easy |].
  destruct (IH (step L c s) (step_inBounds L c s H)) as [Hb Hc].
  split; [exact Hb |]. rewrite Hc. apply step_slideCount.
Qed.

(** [init] either skips or starts the carousel at slide 0 with at least one
    slide, unlocked. *)
Lemma init_state L d w :
  init L d = Some w ->
  index (state w) = 0 /\ 1 <= slideCount (state w)
  /\ isTransitioning (state w) = false
  /\ Some (length (items (state w))) = length <$> track d.
Proof.
  unfold init. destruct (track d) as [children |]; [| discriminate].
  destruct (prevBtn d), (nextBtn d); try discriminate.
  destruct (length children =? 0)%nat eqn:E; [discriminate |].
  intros [= <-]. apply Nat.eqb_neq in E. simpl.
  rewrite update_index, update_lock. unfold slideCount. simpl.
  pose proof (update_slideCount L) as U. unfold slideCount in U. rewrite U. simpl.
  repeat split; try lia.
  f_equal. apply Nat2Z.inj. rewrite U. reflexivity.
Qed.

End CarouselFacts.

Import Timers Carousel.

(** C1. Starting at slide 0 of a carousel with at least one slide, after every
    call of any sequence of [goToNext], [goToPrev], [goToSlide i] (any integer
    [i]), resize events and waits, the index lies in [0, slideCount - 1]. *)
Theorem carousel_index_stays_in_bounds :
  forall (s : State) (cs : list (Layout * Call)) (n : nat),
    1 <= slideCount s -> index s = 0 ->
    0 <= index (run (take n cs) s) <= slideCount s - 1.
Proof.
  intros s cs n Hc Hi.
  assert (H0 : inBounds s) by (unfold inBounds; lia).
  destruct (run_inBounds (take n cs) s H0) as [Hb He].
  unfold inBounds in Hb. rewrite He in Hb. exact Hb.
Qed.

Lemma carousel_index_stays_in_bounds_witness :
  0 <= index (run (take 5 [(someLayout, Prev); (someLayout, Next); (someLayout, Wait 400);
                           (someLayout, Slide 7); (someLayout, Slide 2);
                           (someLayout, Next)]) threeSlideState)
    <= slideCount threeSlideState - 1.
Proof.
  apply (carousel_index_stays_in_bounds threeSlideState); vm_compute; [discriminate | reflexivity].
Defined.

Section CarouselLock.

Import Timers.

Lemma fired_lock L (q : list (timer Callback)) s :
  Forall (fun t => callback t <> Unlock) q ->
  isTransitioning (foldl (fun acc t => runCallback L (callback t) acc) s q)
  = isTransitioning s.
Proof.
  intros H. revert s. induction H as [| t q Ht _ IH]; intros s; simpl; [reflexivity |].
  rewrite IH. destruct (callback t); [congruence | apply update_lock].
Qed.

(** The lock outlives every wait that ends before its unlock timer. *)
Lemma elapse_keeps_lock L dt s :
  Forall (fun t => callback t = Unlock -> (clock s + dt < deadline t)%N) (timers s) ->
  isTransitioning (elapse L dt s) = isTransitioning s.
Proof.
  intros H. unfold elapse. rewrite fired_lock; [reflexivity |].
  unfold due. rewrite list.Forall_forall in *. intros t Ht.
  apply list_elem_of_filter in Ht. destruct Ht as [Hd Ht].
  intros Hu. specialize (H t Ht Hu). lia.
Qed.

Lemma elapse_index L dt s : index (elapse L dt s) = index s.
Proof.
  unfold elapse.
  now destruct (fired_frame L (due (clock s + dt)%N (timers s))
      {| items := items s; index := index s; isTransitioning := isTransitioning s;
         translateX := translateX s; prev := prev s; next := next s; dots := dots s;
         clock := (clock s + dt)%N; nextId := nextId s;
         timers := later (clock s + dt)%N (timers s);
         resizeTimeout := resizeTimeout s |}) as [_ ->].
Qed.

Lemma elapse_slideCount L dt s : slideCount (elapse L dt s) = slideCount s.
Proof. exact (step_slideCount L (Wait dt) s). Qed.

Lemma init_timers L d w :
  init L d = Some w ->
  clock (state w) = 0%N
  /\ timers (state w) = [{| tid := 0; deadline := 300%N; callback := Rerender |}].
Proof.
  unfold init. destruct (track d) as [children |]; [| discriminate].
  destruct (prevBtn d), (nextBtn d); try discriminate.
  destruct (length children =? 0)%nat; [discriminate |].
  intros [= <-]. simpl. rewrite update_clock, update_timers, update_nextId. simpl. easy.
Qed.

Lemma locked_next L s : isTransitioning s = true -> goToNext L s = s.
Proof. intros H. unfold goToNext. now rewrite H. Qed.

Lemma locked_prev L s : isTransitioning s = true -> goToPrev L s = s.
Proof. intros H. unfold goToPrev. now rewrite H. Qed.

Lemma locked_slide L i s : isTransitioning s = true -> goToSlide L i s = s.
Proof. intros H. unfold goToSlide. now rewrite H. Qed.

(** An effective [goToNext]: index, lock and the unlock timer. *)
Lemma goToNext_moves L s :
  isTransitioning s = false -> index s < slideCount s - 1 ->
  let s' := goToNext L s in
  index s' = index s + 1 /\ isTransitioning s' = true
  /\ clock s' = clock s
  /\ timers s' = enqueue {| tid := nextId s; deadline := (clock s + 400)%N;
                            callback := Unlock |} (timers s).
Proof.
  intros Hl Hi. unfold goToNext. rewrite Hl. simpl.
  destruct (Z.geb_spec (index s) (slideCount s - 1)); [lia |].
  simpl. rewrite update_index, update_lock, update_clock, update_timers. simpl.
  unfold update. destruct (length (items (moveTo (index s + 1) s)) =? 0)%nat; easy.
Qed.

End CarouselLock.

(** C5. A call made while the transition lock is set leaves the carousel
    exactly as it was. On a three-slide carousel that has just been
    initialised, [goToPrev] does nothing, and a second [goToNext] made at once
    or at any time before 400ms have passed leaves the index at 1; after
    400ms it is accepted again. *)
Theorem locked_calls_are_dropped :
  (forall (L : Layout) (s : State) (i : Z),
      isTransitioning s = true ->
      goToNext L s = s /\ goToPrev L s = s /\ goToSlide L i s = s)
  /\ (forall (L L1 L2 L3 : Layout) (d : Dom) (w : Widget),
        init L d = Some w -> length <$> track d = Some 3%nat ->
        goToPrev L1 (state w) = state w
        /\ index (goToNext L2 (goToNext L1 (state w))) = 1
        /\ (forall dt, (dt < 400)%N ->
              index (goToNext L2 (elapse L3 dt (goToNext L1 (state w)))) = 1)
        /\ index (goToNext L2 (elapse L3 400 (goToNext L1 (state w)))) = 2).
Proof.
  split.
  - intros L s i H. auto using locked_next, locked_prev, locked_slide.
  - intros L L1 L2 L3 d w Hw H3.
    destruct (init_state L d w Hw) as (Hi & _ & Hl & Hn).
    destruct (init_timers L d w Hw) as (Hc & Ht).
    assert (Hs : slideCount (state w) = 3).
    { unfold slideCount. rewrite H3 in Hn. injection Hn as ->. reflexivity. }
    assert (Hm := goToNext_moves L1 (state w) Hl ltac:(lia)).
    simpl in Hm. destruct Hm as (Mi & Ml & Mc & Mt).
    rewrite Ht, Hc in Mt. simpl in Mt.
    repeat split.
    + unfold goToPrev. rewrite Hl, Hi. reflexivity.
    + rewrite locked_next by exact Ml. lia.
    + intros dt Hdt. rewrite locked_next.
      * rewrite elapse_index. lia.
      * rewrite elapse_keeps_lock; [exact Ml |].
        rewrite Mt, Mc, Hc. repeat constructor; simpl; [discriminate | lia].
    + set (s1 := goToNext L1 (state w)) in *.
      assert (Hu : isTransitioning (elapse L3 400 s1) = false).
      { unfold elapse. rewrite Mt, Mc, Hc. reflexivity. }
      assert (Hm := goToNext_moves L2 (elapse L3 400 s1) Hu).
      rewrite elapse_index, elapse_slideCount in Hm.
      unfold s1 in Hm at 2. rewrite goToNext_slideCount in Hm.
      destruct (Hm ltac:(lia)) as (-> & _). lia.
Qed.

Lemma locked_calls_are_dropped_witness :
  goToNext someLayout (goToNext someLayout threeSlideState)
  = goToNext someLayout threeSlideState
  /\ goToPrev someLayout (goToNext someLayout threeSlideState)
     = goToNext someLayout threeSlideState
  /\ goToSlide someLayout 2 (goToNext someLayout threeSlideState)
     = goToNext someLayout threeSlideState.
Proof.
  assert (H : isTransitioning (goToNext someLayout threeSlideState) = true)
    by (vm_compute; reflexivity).
  exact (proj1 locked_calls_are_dropped someLayout
           (goToNext someLayout threeSlideState) 2 H).
Defined.

(** C6. [update] (the specification's render) moves the track to
    [-index * (itemWidth + gap)], [gap] being the parsed computed gap or 16
    when that is [NaN] or 0; disables the previous control exactly at index 0
    and the next control exactly at the last index; makes the dot at the
    index the only active one; and sets [aria-hidden] to true on exactly the
    slides other than the current one. *)
Theorem render_reflects_index :
  forall (L : Layout) (s : State),
    items s <> [] ->
    let s' := update L s in
    index s' = index s
    /\ translateX s' = Some (- index s * (offsetWidth L + gap L))
    /\ (forall g, gapParsed L = Some g -> g <> 0 -> gap L = g)
    /\ (disabled (prev s') = true <-> index s = 0)
    /\ (disabled (next s') = true <-> index s = slideCount s - 1)
    /\ ariaDisabled (prev s') = Some (disabled (prev s'))
    /\ ariaDisabled (next s') = Some (disabled (next s'))
    /\ length (dots s') = length (dots s)
    /\ (forall i d, dots s' !! i = Some d ->
          (active d = true <-> Z.of_nat i = index s)
          /\ ariaCurrent d = Some (active d))
    /\ (0 <= index s < Z.of_nat (length (dots s)) ->
        exists d, dots s' !! Z.to_nat (index s) = Some d /\ active d = true)
    /\ length (items s') = length (items s)
    /\ (forall i h, items s' !! i = Some h ->
          (h = Some true <-> Z.of_nat i <> index s)
          /\ (h = Some false <-> Z.of_nat i = index s))
    /\ (0 <= index s < slideCount s ->
        items s' !! Z.to_nat (index s) = Some (Some false)).
Proof.
  intros L s Hne. unfold update.
  destruct (length (items s) =? 0)%nat eqn:E.
  { apply Nat.eqb_eq in E. destruct (items s); [congruence | discriminate]. }
  cbn [hideOthers updateDots updateButtons setTransform index translateX prev next
       dots items disabled ariaDisabled].
  split; [reflexivity |]. split; [reflexivity |].
  split.
  { intros g Hg Hz. unfold gap. rewrite Hg.
    destruct (Z.eqb_spec g 0); [contradiction | reflexivity]. }
  split; [apply Z.eqb_eq |].
  split; [unfold slideCount; cbn [items]; apply Z.eqb_eq |].
  split; [reflexivity |]. split; [reflexivity |].
  split; [apply length_imap |].
  split.
  { intros i d H. rewrite list_lookup_imap in H.
    destruct (dots s !! i); [| discriminate]. injection H as <-. cbn [active ariaCurrent].
    split; [apply Z.eqb_eq | reflexivity]. }
  split.
  { intros [H0 H1]. rewrite list_lookup_imap.
    destruct (lookup_lt_is_Some_2 (dots s) (Z.to_nat (index s)) ltac:(lia)) as [d ->].
    eexists. split; [reflexivity |]. cbn [active]. apply Z.eqb_eq. lia. }
  split; [apply length_imap |].
  split.
  { intros i h H. rewrite list_lookup_imap in H.
    destruct (items s !! i); [| discriminate]. injection H as <-.
    destruct (Z.eqb_spec (Z.of_nat i) (index s)); cbn [negb];
      split; split; congruence. }
  intros [H0 H1]. unfold slideCount in H1. rewrite list_lookup_imap.
  destruct (lookup_lt_is_Some_2 (items s) (Z.to_nat (index s)) ltac:(lia)) as [h ->].
  cbn [fmap option_fmap option_map]. rewrite (proj2 (Z.eqb_eq _ _)) by lia. reflexivity.
Qed.

Lemma render_reflects_index_witness :
  translateX (update someLayout (goToNext someLayout threeSlideState))
  = Some (- index (goToNext someLayout threeSlideState)
          * (offsetWidth someLayout + gap someLayout)).
Proof.
  assert (H : items (goToNext someLayout threeSlideState) <> [])
    by (vm_compute; discriminate).
  exact (proj1 (proj2 (render_reflects_index someLayout
                         (goToNext someLayout threeSlideState) H))).
Defined.

(** * Properties of the form controller *)

Section FormFacts.

Import Timers JS Dom FormValidation.

Lemma showError_lookup f m d h :
  showError f m d !! h = touch f m (errOf d f) h <$> d !! h.
Proof.
  unfold showError, errOf, touch.
  destruct (d !! f) as [x |] eqn:Ef; simpl.
  - destruct (getElementById (String.append "error-" (id x)) d) as [e |];
      destruct (truthy m);
      rewrite ?list_lookup_alter;
      repeat case_bool_decide; repeat case_decide; simplify_eq;
      rewrite ?Ef; simpl; try reflexivity;
      destruct (d !! h); reflexivity.
  - repeat case_bool_decide; simplify_eq; rewrite ?Ef; simpl; try reflexivity;
      destruct (d !! h); reflexivity.
Qed.

Lemma validateField_verdict f r d :
  validateField f r d
  = ((verdict r (trim (valueOf f d))).1,
     showError f (verdict r (trim (valueOf f d))).2 d).
Proof.
  unfold validateField, verdict.
  repeat match goal with |- context [if ?b then _ else _] => destruct b end;
    reflexivity.
Qed.

Lemma touch_static f m err h e : static (touch f m err h e) = static e.
Proof. unfold touch. repeat case_bool_decide; reflexivity. Qed.

Lemma touch_ariaInvalid f m err h e :
  ariaInvalid (touch f m err h e)
  = if bool_decide (h = f) then (if truthy m then Some (lit "true") else None)
    else ariaInvalid e.
Proof. unfold touch. repeat case_bool_decide; reflexivity. Qed.

Lemma touch_errorField f m err h e :
  errorField (touch f m err h e)
  = if bool_decide (h = f) then truthy m else errorField e.
Proof. unfold touch. repeat case_bool_decide; destruct (truthy m); reflexivity. Qed.

Lemma touch_textContent f m err h e :
  textContent (touch f m err h e)
  = if bool_decide (err = Some h) then orEmpty m else textContent e.
Proof. unfold touch. repeat case_bool_decide; reflexivity. Qed.

Lemma showError_static f m d : static <$> showError f m d = static <$> d.
Proof.
  apply list_eq. intros h. rewrite !list_lookup_fmap, showError_lookup.
  destruct (d !! h); simpl; [| reflexivity]. now rewrite touch_static.
Qed.

Lemma static_id (d1 d2 : list Element) : static <$> d1 = static <$> d2 -> id <$> d1 = id <$> d2.
Proof.
  intros H. apply (f_equal (fmap (fun t => t.1.1.1.1.1.1.1))) in H.
  rewrite <- !list_fmap_compose in H. exact H.
Qed.

Lemma static_value (d1 d2 : list Element) h :
  static <$> d1 = static <$> d2 -> valueOf h d1 = valueOf h d2.
Proof.
  intros H. apply (f_equal (fun l => l !! h)) in H.
  rewrite !list_lookup_fmap in H. unfold valueOf.
  destruct (d1 !! h), (d2 !! h); simpl in *; try congruence.
  now injection H.
Qed.

Lemma getElementById_ids i d :
  getElementById i d = fst <$> list_find (fun x => x = i) (id <$> d).
Proof.
  unfold getElementById. rewrite list_find_fmap.
  destruct (list_find ((fun x => x = i) ∘ id) d) as [[k e] |] eqn:E;
    unfold compose in E; rewrite E; reflexivity.
Qed.

Lemma static_getElementById i (d1 d2 : list Element) :
  static <$> d1 = static <$> d2 -> getElementById i d1 = getElementById i d2.
Proof. intros H. rewrite !getElementById_ids. now rewrite (static_id _ _ H). Qed.

Lemma static_errOf (d1 d2 : list Element) f :
  static <$> d1 = static <$> d2 -> errOf d1 f = errOf d2 f.
Proof.
  intros H. unfold errOf.
  pose proof (f_equal (fun l => l !! f) (static_id _ _ H)) as Hf.
  simpl in Hf. rewrite !list_lookup_fmap in Hf.
  destruct (d1 !! f) as [x |], (d2 !! f) as [y |]; simpl in *; try congruence.
  injection Hf as ->. now apply static_getElementById.
Qed.

Lemma getElementById_Some i d h :
  getElementById i d = Some h -> exists e, d !! h = Some e /\ id e = i.
Proof.
  unfold getElementById.
  destruct (list_find (fun e => id e = i) d) as [[k e] |] eqn:E; [| discriminate].
  intros [= <-]. apply list_find_Some in E. destruct E as (E1 & E2 & _). eauto.
Qed.

Lemma static_form e1 e2 : static e1 = static e2 -> form e1 = form e2.
Proof. unfold static. congruence. Qed.

Lemma touchAll_static d fs h e : static (touchAll d fs h e) = static e.
Proof.
  revert e. induction fs as [| fr fs IH]; intros e; [reflexivity |].
  unfold touchAll in *. simpl. rewrite IH. apply touch_static.
Qed.

(** Only the handler's own fields change their [aria-invalid]. *)
Lemma touchAll_other d fs h e :
  h ∉ fs.*1 ->
  ariaInvalid (touchAll d fs h e) = ariaInvalid e
  /\ errorField (touchAll d fs h e) = errorField e.
Proof.
  revert e. induction fs as [| fr fs IH]; intros e Hn; [easy |].
  rewrite fmap_cons, not_elem_of_cons in Hn. destruct Hn as [Hne Hn].
  unfold touchAll in *. simpl.
  destruct (IH (touch fr.1 (messageFor d fr) (errOf d fr.1) h e) Hn) as [-> ->].
  rewrite touch_ariaInvalid, touch_errorField.
  case_bool_decide; [contradiction | easy].
Qed.

Lemma touchAll_field d fs fr e :
  NoDup fs.*1 -> fr ∈ fs ->
  ariaInvalid (touchAll d fs fr.1 e)
  = (if truthy (messageFor d fr) then Some (lit "true") else None)
  /\ errorField (touchAll d fs fr.1 e) = truthy (messageFor d fr).
Proof.
  revert e. induction fs as [| fr' fs IH]; intros e Hnd Hin.
  { apply elem_of_nil in Hin. contradiction. }
  rewrite fmap_cons, NoDup_cons in Hnd. destruct Hnd as [Hn Hnd].
  unfold touchAll in *. simpl.
  apply elem_of_cons in Hin. destruct Hin as [<- | Hin].
  - destruct (touchAll_other d fs fr.1
                (touch fr.1 (messageFor d fr) (errOf d fr.1) fr.1 e) Hn) as [H1 H2].
    unfold touchAll in H1, H2. rewrite H1, H2.
    rewrite touch_ariaInvalid, touch_errorField.
    case_bool_decide; [easy | contradiction].
  - apply IH; assumption.
Qed.

(** The error element of a field shows the message of the last field that
    owns it. *)
Lemma touchAll_text_other d fs h e :
  (forall fr, fr ∈ fs -> errOf d fr.1 <> Some h) ->
  textContent (touchAll d fs h e) = textContent e.
Proof.
  revert e. induction fs as [| fr fs IH]; intros e Hn; [reflexivity |].
  unfold touchAll in *. simpl. rewrite IH.
  - rewrite touch_textContent. case_bool_decide as Hc; [| reflexivity].
    exfalso. apply (Hn fr); [left | exact Hc].
  - intros fr' Hin. apply Hn. now right.
Qed.

Lemma touchAll_text d l1 fr l2 h e :
  errOf d fr.1 = Some h ->
  (forall fr', fr' ∈ l2 -> errOf d fr'.1 <> Some h) ->
  textContent (touchAll d (l1 ++ fr :: l2) h e) = orEmpty (messageFor d fr).
Proof.
  intros He Hn. unfold touchAll. rewrite foldl_app. simpl.
  pose proof (touchAll_text_other d l2 h) as T. unfold touchAll in T.
  rewrite T by exact Hn. rewrite touch_textContent.
  case_bool_decide; [reflexivity | contradiction].
Qed.

Lemma validateAll_from d fs : forall dcur acc,
  static <$> dcur = static <$> d ->
  let res := foldl (fun acc fr =>
                      let r := validateField fr.1 fr.2 acc.2 in (r.1 && acc.1, r.2))
                   (acc, dcur) fs in
  res.1 = forallb (passes d) fs && acc
  /\ static <$> res.2 = static <$> d
  /\ forall h, res.2 !! h = touchAll d fs h <$> dcur !! h.
Proof.
  induction fs as [| fr fs IH]; intros dcur acc Hs; simpl.
  - repeat split; [assumption |]. intros h. destruct (dcur !! h); reflexivity.
  - rewrite validateField_verdict. simpl.
    rewrite (static_value dcur d fr.1 Hs).
    set (m := (verdict fr.2 (trim (valueOf fr.1 d))).2).
    assert (Hs' : static <$> showError fr.1 m dcur = static <$> d)
      by (now rewrite showError_static).
    destruct (IH (showError fr.1 m dcur)
                ((verdict fr.2 (trim (valueOf fr.1 d))).1 && acc) Hs')
      as (H1 & H2 & H3).
    simpl in H1, H2, H3. rewrite H1. repeat split.
    + unfold passes. now rewrite andb_assoc, (andb_comm (forallb _ _)).
    + exact H2.
    + intros h. rewrite H3, showError_lookup, (static_errOf dcur d fr.1 Hs).
      destruct (dcur !! h); reflexivity.
Qed.

(** The loop evaluates every field: its result is the conjunction of all
    the checks, and each element ends as the checks leave it. *)
Lemma validateAll_spec fs d :
  (validateAll fs d).1 = forallb (passes d) fs
  /\ static <$> (validateAll fs d).2 = static <$> d
  /\ forall h, (validateAll fs d).2 !! h = touchAll d fs h <$> d !! h.
Proof.
  destruct (validateAll_from d fs d true eq_refl) as (H1 & H2 & H3).
  unfold validateAll. simpl in *. rewrite H1, andb_true_r. easy.
Qed.

Lemma sorted_lookup_lt (l : list nat) a b x y :
  StronglySorted lt l -> l !! a = Some x -> l !! b = Some y -> (a < b)%nat ->
  (x < y)%nat.
Proof.
  intros Hs. revert a b. induction Hs as [| z l Hs IH Hall]; intros a b Ha Hb Hlt.
  { discriminate. }
  destruct b as [| b]; [lia |]. simpl in Hb.
  destruct a as [| a]; simpl in Ha.
  - injection Ha as ->. rewrite list.Forall_forall in Hall.
    apply Hall. eapply list_elem_of_lookup_2; eauto.
  - apply (IH a b); [assumption | assumption | lia].
Qed.

Lemma sorted_NoDup (l : list nat) : StronglySorted lt l -> NoDup l.
Proof.
  induction 1 as [| z l Hs IH Hall]; constructor; [| exact IH].
  intros Hin. rewrite list.Forall_forall in Hall. specialize (Hall z Hin). lia.
Qed.

(** [form.querySelector('[aria-invalid="true"]')] after the loop is the first
    field, in the order of the field table, whose check failed, provided the
    fields lie in the form in that order and no other element of the form
    carries the attribute. *)
Lemma first_invalid_found fs d frm k fr :
  StronglySorted lt fs.*1 ->
  (forall fr', fr' ∈ fs -> exists e, d !! fr'.1 = Some e /\ form e = Some frm) ->
  (forall h e, d !! h = Some e -> form e = Some frm -> isAriaInvalid e = true ->
               h ∈ fs.*1) ->
  (forall fr', fr' ∈ fs -> passes d fr' = false -> truthy (messageFor d fr') = true) ->
  fs !! k = Some fr -> passes d fr = false ->
  (forall j fr', (j < k)%nat -> fs !! j = Some fr' -> passes d fr' = true) ->
  querySelector frm isAriaInvalid (validateAll fs d).2 = Some fr.1.
Proof.
  intros Hsort Hin Hstray Hmsg Hk Hfail Hfirst.
  destruct (validateAll_spec fs d) as (_ & _ & Hl).
  pose proof (sorted_NoDup _ Hsort) as Hnd.
  assert (Hfr : fr ∈ fs) by (eapply list_elem_of_lookup_2; eauto).
  destruct (Hin fr Hfr) as (e & He & Hf).
  unfold querySelector.
  assert (Hfind : list_find (fun e => form e = Some frm /\ isAriaInvalid e = true)
                    (validateAll fs d).2 = Some (fr.1, touchAll d fs fr.1 e)).
  { apply list_find_Some. split; [| split].
    - now rewrite Hl, He.
    - pose proof (static_form _ _ (touchAll_static d fs fr.1 e)) as Sf.
      split; [congruence |].
      unfold isAriaInvalid. rewrite bool_decide_eq_true.
      destruct (touchAll_field d fs fr e Hnd Hfr) as [-> _].
      now rewrite (Hmsg fr Hfr Hfail).
    - intros j y Hj Hlt [Hyf Hya]. rewrite Hl in Hj.
      destruct (d !! j) as [ej |] eqn:Ej; [| discriminate].
      injection Hj as <-.
      pose proof (static_form _ _ (touchAll_static d fs j ej)) as Sf.
      destruct (decide (j ∈ fs.*1)) as [Hjin | Hjout].
      + apply list_elem_of_fmap in Hjin. destruct Hjin as (fr' & -> & Hfr').
        apply list_elem_of_lookup in Hfr'. destruct Hfr' as (j' & Hj').
        assert (Hjk : (j' < k)%nat).
        { destruct (Nat.lt_trichotomy j' k) as [? | [-> | Hgt]]; [assumption | |].
          - rewrite Hk in Hj'. injection Hj' as ->. lia.
          - pose proof (sorted_lookup_lt fs.*1 k j' fr.1 fr'.1 Hsort) as Q.
            rewrite !list_lookup_fmap, Hk, Hj' in Q. specialize (Q eq_refl eq_refl Hgt).
            lia. }
        pose proof (Hfirst j' fr' Hjk Hj') as Hp.
        assert (Hfr'in : fr' ∈ fs) by (eapply list_elem_of_lookup_2; eauto).
        destruct (touchAll_field d fs fr' ej Hnd Hfr'in) as [Ha _].
        unfold isAriaInvalid in Hya. rewrite bool_decide_eq_true, Ha in Hya.
        unfold passes in Hp. unfold messageFor in Hya.
        assert (Hm : (verdict fr'.2 (trim (valueOf fr'.1 d))).2 = Some []).
        { revert Hp. unfold verdict.
          repeat match goal with |- context [if ?b then _ else _] => destruct b end;
            simpl; congruence. }
        rewrite Hm in Hya. discriminate.
      + destruct (touchAll_other d fs j ej Hjout) as [Ha _].
        apply Hjout, (Hstray j ej Ej); [congruence |].
        unfold isAriaInvalid in *. now rewrite <- Ha. }
  now rewrite Hfind.
Qed.

Lemma contactSubmit_loop frm name email message submitBtn success p :
  contactSubmit frm name email message submitBtn success p
  = submitLoop frm submitBtn (contactFields name email message)
      (ContactSend frm name email message submitBtn success) p.
Proof. reflexivity. Qed.

Lemma quoteSubmit_loop frm type port name phone email details submitBtn p :
  quoteSubmit frm type port name phone email details submitBtn p
  = submitLoop frm submitBtn (quoteFields type port name phone email)
      (QuoteSend frm type port name phone email details submitBtn) p.
Proof. reflexivity. Qed.

Lemma errOf_found i d f :
  getElementById i d = Some f -> errOf d f = getElementById (String.append "error-" i) d.
Proof.
  intros H. destruct (getElementById_Some i d f H) as (e & He & <-).
  unfold errOf. now rewrite He.
Qed.

Lemma found_lookup d ids (fs : list (nat * Rules)) fr :
  Forall2 (fun i fr => getElementById i d = Some fr.1) ids fs -> fr ∈ fs ->
  exists i, i ∈ ids /\ getElementById i d = Some fr.1.
Proof.
  intros HF Hin. apply list_elem_of_lookup in Hin. destruct Hin as (k & Hk).
  destruct (Forall2_lookup_r _ _ _ _ _ HF Hk) as (i & Hi & Hg).
  exists i. split; [eapply list_elem_of_lookup_2; eauto | exact Hg].
Qed.

Lemma found_same_id d i i' f :
  getElementById i d = Some f -> getElementById i' d = Some f -> i = i'.
Proof.
  intros H H'. destruct (getElementById_Some _ _ _ H) as (e & He & <-).
  destruct (getElementById_Some _ _ _ H') as (e' & He' & <-). congruence.
Qed.

Lemma found_same_error d i i' f f' h :
  getElementById i d = Some f -> getElementById i' d = Some f' ->
  errOf d f = Some h -> errOf d f' = Some h -> i = i'.
Proof.
  intros H H' E E'. rewrite (errOf_found _ _ _ H) in E.
  rewrite (errOf_found _ _ _ H') in E'.
  pose proof (found_same_id _ _ _ _ E E') as Q. cbv in Q. congruence.
Qed.

Lemma foundBy_NoDup d ids fs : foundBy d ids fs -> NoDup fs.*1.
Proof.
  intros [Hnd HF]. induction HF as [| i fr ids fs Hg HF IH]; [constructor |].
  apply NoDup_cons in Hnd. destruct Hnd as [Hni Hnd].
  rewrite fmap_cons. constructor; [| auto].
  intros Hin. apply list_elem_of_fmap in Hin. destruct Hin as (fr' & Heq & Hin).
  destruct (found_lookup d ids fs fr' HF Hin) as (i' & Hi' & Hg').
  rewrite <- Heq in Hg'. rewrite (found_same_id _ _ _ _ Hg Hg') in Hni. contradiction.
Qed.

Lemma foundBy_errors d ids fs l1 fr l2 h :
  foundBy d ids fs -> fs = l1 ++ fr :: l2 -> errOf d fr.1 = Some h ->
  forall fr', fr' ∈ l2 -> errOf d fr'.1 <> Some h.
Proof.
  intros [Hnd HF] -> He fr' Hin He'.
  apply Forall2_app_inv_r in HF. destruct HF as (ids1 & ids2 & _ & HF & ->).
  inversion HF as [| i fr0 ids2' l2' Hg HF2]; subst.
  destruct (found_lookup d ids2' l2 fr' HF2 Hin) as (i' & Hi' & Hg').
  pose proof (found_same_error _ _ _ _ _ _ Hg Hg' He He') as ->.
  apply NoDup_app in Hnd. destruct Hnd as (_ & _ & Hnd).
  apply NoDup_cons in Hnd. destruct Hnd as [Hni _]. contradiction.
Qed.

Lemma passes_message d fr : passes d fr = true -> messageFor d fr = Some [].
Proof.
  unfold passes, messageFor, verdict.
  repeat match goal with |- context [if ?b then _ else _] => destruct b end;
    simpl; congruence.
Qed.

Lemma requiredOnly_worded c m : worded (requiredOnly (String c m)).
Proof.
  intros v. unfold verdict, requiredOnly. simpl. destruct v; simpl; congruence.
Qed.

Lemma emailRules_worded : worded emailRules.
Proof.
  intros v. unfold verdict, emailRules. simpl.
  destruct v; simpl; [congruence |].
  destruct (negb _); simpl; [reflexivity | congruence].
Qed.

Lemma messageRules_worded : worded messageRules.
Proof.
  intros v. unfold verdict, messageRules. simpl.
  destruct v; simpl; [congruence |]. destruct (_ <? 10); simpl; congruence.
Qed.

Lemma all_pass d (fs : list (nat * Rules)) :
  forallb (passes d) fs = true <-> forall fr, fr ∈ fs -> passes d fr = true.
Proof.
  rewrite forallb_forall. split; intros H fr Hin; apply H.
  - now apply list_elem_of_In.
  - now apply list_elem_of_In.
Qed.

Lemma submitLoop_spec frm submitBtn fs send p ids :
  foundBy (doc p) ids fs ->
  (forall fr, fr ∈ fs -> worded fr.2) ->
  SubmitSpec frm submitBtn fs send p (submitLoop frm submitBtn fs send p).
Proof.
  intros Hfound Hworded.
  pose proof (foundBy_NoDup _ _ _ Hfound) as Hnd.
  destruct (validateAll_spec fs (doc p)) as (Hv & Hst & Hl).
  set (d' := (validateAll fs (doc p)).2) in *.
  (* the page after the loop, whichever branch follows *)
  assert (Hflag : forall fr e', fr ∈ fs -> d' !! fr.1 = Some e' ->
            ariaInvalid e' = (if passes (doc p) fr then None else Some (lit "true"))
            /\ errorField e' = negb (passes (doc p) fr)).
  { intros fr e' Hin He'. rewrite Hl in He'.
    destruct (doc p !! fr.1) as [e |]; [| discriminate]. injection He' as <-.
    destruct (touchAll_field (doc p) fs fr e Hnd Hin) as [-> ->].
    destruct (passes (doc p) fr) eqn:Hp.
    - now rewrite (passes_message _ _ Hp).
    - unfold messageFor. now rewrite (Hworded fr Hin _ Hp). }
  assert (Htext : forall fr eh, fr ∈ fs -> errOf (doc p) fr.1 = Some eh ->
            textOf eh d' = orEmpty (messageFor (doc p) fr)).
  { intros fr eh Hin He.
    apply list_elem_of_split in Hin. destruct Hin as (l1 & l2 & Hsplit).
    unfold textOf. rewrite Hl.
    assert (exists y, doc p !! eh = Some y) as [y Hy].
    { unfold errOf in He. destruct (doc p !! fr.1); [| discriminate]. simpl in He.
      destruct (getElementById_Some _ _ _ He) as (y & Hy & _). eauto. }
    rewrite Hy. simpl. rewrite Hsplit. apply touchAll_text; [exact He |].
    eapply foundBy_errors; eauto. }
  assert (Hval : forall h, value <$> d' !! h = value <$> doc p !! h).
  { intros h. rewrite Hl. destruct (doc p !! h) as [e |]; [| reflexivity]. simpl.
    pose proof (touchAll_static (doc p) fs h e) as S. unfold static in S. congruence. }
  assert (Hdis : forall h, disabled <$> d' !! h = disabled <$> doc p !! h).
  { intros h. rewrite Hl. destruct (doc p !! h) as [e |]; [| reflexivity]. simpl.
    pose proof (touchAll_static (doc p) fs h e) as S. unfold static in S. congruence. }
  unfold submitLoop. fold d'. rewrite Hv.
  destruct (forallb (passes (doc p)) fs) eqn:Hall; simpl.
  - (* every field passes: processing *)
    rewrite all_pass in Hall.
    unfold SubmitSpec. simpl.
    split; [| split; [| split; [| split]]].
    + intros fr e' Hin He'.
      assert (exists e0, d' !! fr.1 = Some e0 /\ ariaInvalid e' = ariaInvalid e0
                         /\ errorField e' = errorField e0) as (e0 & E0 & -> & ->).
      { rewrite list_lookup_alter in He'. case_decide.
        - subst. destruct (d' !! fr.1) as [e0 |]; [| discriminate].
          injection He' as <-. eauto.
        - eauto. }
      destruct (Hflag fr e0 Hin E0) as [Q1 Q2].
      split; [exact Q1 | split; [exact Q2 |]].
      intros eh He Hne. unfold textOf. rewrite list_lookup_alter.
      case_decide; [congruence |]. now apply Htext.
    + intros h. rewrite list_lookup_alter. case_decide; [| apply Hval].
      subst. rewrite <- Hval. destruct (d' !! h); reflexivity.
    + intros (fr & Hin & Hp). specialize (Hall fr Hin). congruence.
    + intros _. split; [eexists; reflexivity |].
      intros e He. rewrite list_lookup_alter. case_decide; [| congruence].
      pose proof (Hl submitBtn) as Q. rewrite He in Q. rewrite Q. simpl. eauto.
    + intros _ k fr Hk Hp _. exfalso.
      assert (Hin : fr ∈ fs) by (eapply list_elem_of_lookup_2; eauto).
      specialize (Hall fr Hin). congruence.
  - (* some field fails: no processing *)
    assert (Hrest : forall q, timers q = timers p -> href q = href p ->
              panels q = panels p -> doc q = d' ->
              (inOrder (doc p) frm fs ->
               forall k fr, fs !! k = Some fr -> passes (doc p) fr = false ->
                 (forall j fr', (j < k)%nat -> fs !! j = Some fr' ->
                                passes (doc p) fr' = true) ->
                 focus q = Some (OnElement fr.1)) ->
              SubmitSpec frm submitBtn fs send p q).
    { intros q Ht Hh Hp Hd Hf. unfold SubmitSpec. simpl. rewrite Hd.
      split; [| split; [| split; [| split]]].
      - intros fr e' Hin He'. destruct (Hflag fr e' Hin He') as [Q1 Q2].
        split; [exact Q1 | split; [exact Q2 |]].
        intros eh He _. now apply Htext.
      - exact Hval.
      - intros _. auto.
      - intros Hpass. exfalso. apply all_pass in Hpass. congruence.
      - exact Hf. }
    assert (Hq : inOrder (doc p) frm fs ->
              forall k fr, fs !! k = Some fr -> passes (doc p) fr = false ->
                (forall j fr', (j < k)%nat -> fs !! j = Some fr' ->
                               passes (doc p) fr' = true) ->
                querySelector frm isAriaInvalid d' = Some fr.1).
    { intros (Hsort & Hform & Hstray) k fr Hk Hp Hfirst.
      eapply first_invalid_found; eauto.
      intros fr' Hin' Hp'. exact (Hworded fr' Hin' _ Hp'). }
    destruct (querySelector frm isAriaInvalid d') as [firstError |] eqn:Eq.
    + apply Hrest; try reflexivity.
      intros Ho k fr Hk Hp Hfirst. simpl.
      specialize (Hq Ho k fr Hk Hp Hfirst). congruence.
    + apply Hrest; try reflexivity.
      intros Ho k fr Hk Hp Hfirst.
      specialize (Hq Ho k fr Hk Hp Hfirst). congruence.
Qed.

Lemma validateAll_text d ids fs fr eh :
  foundBy d ids fs -> fr ∈ fs -> errOf d fr.1 = Some eh ->
  textOf eh (validateAll fs d).2 = orEmpty (messageFor d fr).
Proof.
  intros Hfound Hin He.
  destruct (validateAll_spec fs d) as (_ & _ & Hl).
  apply list_elem_of_split in Hin. destruct Hin as (l1 & l2 & Hsplit).
  unfold textOf. rewrite Hl.
  assert (exists y, d !! eh = Some y) as [y Hy].
  { unfold errOf in He. destruct (d !! fr.1); [| discriminate]. simpl in He.
    destruct (getElementById_Some _ _ _ He) as (y & Hy & _). eauto. }
  rewrite Hy. simpl. rewrite Hsplit. apply touchAll_text; [exact He |].
  eapply foundBy_errors; eauto.
Qed.

Lemma submitLoop_rejects frm submitBtn fs send p :
  forallb (passes (doc p)) fs = false ->
  doc (submitLoop frm submitBtn fs send p) = (validateAll fs (doc p)).2.
Proof.
  intros H. unfold submitLoop.
  destruct (validateAll_spec fs (doc p)) as (-> & _). rewrite H. simpl.
  destruct (querySelector _ _ _); reflexivity.
Qed.

(** *** Trimming *)

Lemma trimStart_split s :
  exists pre, s = pre ++ trimStart s /\ blank pre
              /\ (forall c r, trimStart s = c :: r -> isWhiteSpace c = false).
Proof.
  induction s as [| c s (pre & Hs & Hb & Hh)]; simpl.
  - exists []. repeat split; [constructor | discriminate].
  - destruct (isWhiteSpace c) eqn:E.
    + exists (c :: pre). repeat split.
      * simpl. congruence.
      * constructor; assumption.
      * exact Hh.
    + exists []. repeat split; [constructor |]. intros c' r [= <- _]. exact E.
Qed.

Lemma trimStart_blank s : blank s -> trimStart s = [].
Proof. induction 1 as [| c s Hc _ IH]; simpl; [reflexivity |]. now rewrite Hc. Qed.

Lemma trim_split s :
  exists pre post,
    s = pre ++ trim s ++ post /\ blank pre /\ blank post
    /\ (forall c r, trim s = c :: r -> isWhiteSpace c = false)
    /\ (forall r c, trim s = r ++ [c] -> isWhiteSpace c = false).
Proof.
  unfold trim, trimEnd.
  destruct (trimStart_split s) as (pre & Hs & Hpre & Hhead).
  destruct (trimStart_split (reverse (trimStart s))) as (tsop & Hr & Hpost & Hlast).
  set (m := trimStart (reverse (trimStart s))) in *.
  assert (Hmid : trimStart s = reverse m ++ reverse tsop).
  { rewrite <- reverse_app, <- Hr. now rewrite reverse_involutive. }
  exists pre, (reverse tsop). repeat split.
  - now rewrite <- Hmid.
  - exact Hpre.
  - unfold blank in *. rewrite list.Forall_forall in *. intros c Hc.
    rewrite elem_of_reverse in Hc. auto.
  - intros c r Hc. fold m in Hc. rewrite Hc in Hmid. eapply Hhead. exact Hmid.
  - intros r c Hc. fold m in Hc.
    apply (f_equal reverse) in Hc. rewrite reverse_involutive, reverse_snoc in Hc.
    eapply Hlast. exact Hc.
Qed.

Lemma trim_blank s : blank s -> trim s = [].
Proof. intros H. unfold trim, trimEnd. now rewrite (trimStart_blank s H). Qed.

End FormFacts.

Import JS Dom FormValidation.

(** C2. Both submit handlers run [validateField] on every field of their
    table, whatever the earlier fields returned: after the call each field
    carries [aria-invalid="true"] and the [error-field] class exactly when its
    own check failed, and its error element shows its own message. If some
    field fails, no send is scheduled, no control is disabled, and (the fields
    lying in the form in table order, no other element of the form being
    marked invalid) the focus is on the first failing field of the table. The
    processing state, with the send scheduled 800ms later, is entered exactly
    when every field passes. *)
Theorem submit_validates_every_field :
  (forall (p : Page) (frm name email message submitBtn success : nat),
      getElementById "name" (doc p) = Some name ->
      getElementById "email" (doc p) = Some email ->
      getElementById "message" (doc p) = Some message ->
      SubmitSpec frm submitBtn (contactFields name email message)
        (ContactSend frm name email message submitBtn success) p
        (contactSubmit frm name email message submitBtn success p))
  /\ (forall (p : Page) (frm type port name phone email : nat) (details : option nat)
        (submitBtn : nat),
        getElementById "quote-type" (doc p) = Some type ->
        getElementById "quote-port" (doc p) = Some port ->
        getElementById "quote-name" (doc p) = Some name ->
        getElementById "quote-phone" (doc p) = Some phone ->
        getElementById "quote-email" (doc p) = Some email ->
        SubmitSpec frm submitBtn (quoteFields type port name phone email)
          (QuoteSend frm type port name phone email details submitBtn) p
          (quoteSubmit frm type port name phone email details submitBtn p)).
Proof.
  split.
  - intros p frm name email message submitBtn success Hn He Hm.
    rewrite contactSubmit_loop.
    apply (submitLoop_spec _ _ _ _ _ ["name"; "email"; "message"]%string).
    + split; [compute_done | repeat constructor; assumption].
    + intros fr Hin. unfold contactFields in Hin.
      repeat (apply elem_of_cons in Hin; destruct Hin as [-> | Hin]);
        [apply requiredOnly_worded | apply emailRules_worded
         | apply messageRules_worded | apply elem_of_nil in Hin; contradiction].
  - intros p frm type port name phone email details submitBtn Ht Hp Hn Hph He.
    rewrite quoteSubmit_loop.
    apply (submitLoop_spec _ _ _ _ _
             ["quote-type"; "quote-port"; "quote-name"; "quote-phone";
              "quote-email"]%string).
    + split; [compute_done | repeat constructor; assumption].
    + intros fr Hin. unfold quoteFields in Hin.
      repeat (apply elem_of_cons in Hin; destruct Hin as [-> | Hin]);
        [apply requiredOnly_worded | apply requiredOnly_worded
         | apply requiredOnly_worded | apply requiredOnly_worded
         | apply emailRules_worded | apply elem_of_nil in Hin; contradiction].
Qed.

Lemma janePage_inOrder : inOrder (doc janePage) 0 (contactFields 1 3 5).
Proof.
  split; [| split].
  - simpl. repeat constructor; lia.
  - intros fr Hin. unfold contactFields in Hin.
    repeat (apply elem_of_cons in Hin; destruct Hin as [-> | Hin]);
      [eexists; split; reflexivity .. | apply elem_of_nil in Hin; contradiction].
  - intros h e Hl Hf Ha.
    do 9 (destruct h as [| h];
          [simpl in Hl; injection Hl as <-; vm_compute in Ha; discriminate Ha |]).
    discriminate Hl.
Qed.

Lemma submit_validates_every_field_witness :
  focus (contactSubmit 0 1 3 5 7 8 janePage) = Some (OnElement 3).
Proof.
  destruct (proj1 submit_validates_every_field janePage 0%nat 1%nat 3%nat 5%nat
              7%nat 8%nat eq_refl eq_refl eq_refl) as (_ & _ & _ & _ & Hf).
  apply (Hf janePage_inOrder 1%nat (3%nat, emailRules)).
  - reflexivity.
  - vm_compute. reflexivity.
  - intros j fr' Hj Hl. destruct j as [| j]; [| lia].
    injection Hl as <-. vm_compute. reflexivity.
Defined.

Section ValidateFacts.

Lemma nonEmpty_false v : nonEmpty v = false <-> v = [].
Proof. destruct v; simpl; split; congruence. Qed.

Lemma failsRequired_iff r v :
  failsRequired r v <-> truthy (required r) && negb (nonEmpty v) = true.
Proof.
  unfold failsRequired. rewrite andb_true_iff, negb_true_iff, nonEmpty_false. tauto.
Qed.

Lemma failsPattern_iff r v :
  failsPattern r v
  <-> nonEmpty v && match pattern r with Some t => negb (t v) | None => false end = true.
Proof.
  unfold failsPattern. rewrite andb_true_iff. split.
  - intros (Hv & t & -> & Ht). split.
    + destruct v; [contradiction | reflexivity].
    + now rewrite Ht.
  - intros (Hv & Hp). split.
    + destruct v; [discriminate | discriminate].
    + destruct (pattern r) as [t |]; [| discriminate].
      exists t. split; [reflexivity |]. now apply negb_true_iff.
Qed.

Lemma failsMinLength_iff r v :
  failsMinLength r v
  <-> nonEmpty v && match minLength r with
                    | Some n => negb (n =? 0) && (Z.of_nat (length v) <? n)
                    | None => false
                    end = true.
Proof.
  unfold failsMinLength. rewrite andb_true_iff. split.
  - intros (Hv & n & -> & Hn & Hl). split.
    + destruct v; [contradiction | reflexivity].
    + apply Z.eqb_neq in Hn. apply Z.ltb_lt in Hl. now rewrite Hn, Hl.
  - intros (Hv & Hp). split.
    + destruct v; [discriminate | discriminate].
    + destruct (minLength r) as [n |]; [| discriminate].
      apply andb_true_iff in Hp. destruct Hp as [Hn Hl].
      exists n. split; [reflexivity |]. split.
      * apply Z.eqb_neq. now apply negb_true_iff.
      * now apply Z.ltb_lt.
Qed.

Lemma classic_required r v : failsRequired r v \/ ~ failsRequired r v.
Proof.
  rewrite failsRequired_iff.
  destruct (truthy (required r) && negb (nonEmpty v)); [left | right]; congruence.
Qed.

Lemma classic_pattern r v : failsPattern r v \/ ~ failsPattern r v.
Proof.
  rewrite failsPattern_iff.
  destruct (nonEmpty v && _); [left | right]; congruence.
Qed.

Lemma classic_minLength r v : failsMinLength r v \/ ~ failsMinLength r v.
Proof.
  rewrite failsMinLength_iff.
  destruct (nonEmpty v && _); [left | right]; congruence.
Qed.

(** The verdict follows the order of the checks. *)
Lemma verdict_cases r v :
  (failsRequired r v -> verdict r v = (false, required r))
  /\ (~ failsRequired r v -> failsPattern r v -> verdict r v = (false, patternError r))
  /\ (~ failsRequired r v -> ~ failsPattern r v -> failsMinLength r v ->
      verdict r v = (false, minLengthError r))
  /\ (~ failsRequired r v -> ~ failsPattern r v -> ~ failsMinLength r v ->
      verdict r v = (true, Some [])).
Proof.
  rewrite failsRequired_iff, failsPattern_iff, failsMinLength_iff. unfold verdict.
  destruct (truthy (required r) && negb (nonEmpty v));
    destruct (nonEmpty v && match pattern r with
                            | Some t => negb (t v) | None => false end);
    destruct (nonEmpty v && match minLength r with
                            | Some n => negb (n =? 0) && (Z.of_nat (length v) <? n)
                            | None => false end);
    repeat split; intros; congruence.
Qed.

Lemma showError_field f m d x :
  d !! f = Some x ->
  ariaInvalid <$> showError f m d !! f
  = Some (if truthy m then Some (lit "true") else None).
Proof.
  intros Hx. rewrite showError_lookup, Hx. simpl. rewrite touch_ariaInvalid.
  now rewrite bool_decide_eq_true_2.
Qed.

Lemma showError_text f m d eh :
  errOf d f = Some eh -> textOf eh (showError f m d) = orEmpty m.
Proof.
  intros He. unfold textOf. rewrite showError_lookup, He.
  assert (exists y, d !! eh = Some y) as [y ->].
  { unfold errOf in He. destruct (d !! f); [| discriminate]. simpl in He.
    destruct (getElementById_Some _ _ _ He) as (y & Hy & _). eauto. }
  simpl. rewrite touch_textContent. now rewrite bool_decide_eq_true_2.
Qed.

End ValidateFacts.

(** C3. [validateField] works on the trimmed value and applies the required,
    pattern and minimum-length checks in that order (the last two only to a
    non-empty value): it returns false at the first check that fails, after
    [showError] with that rule's message, and returns true, after [showError]
    with the empty message, exactly when none fails. [showError] with a
    non-empty message marks the field invalid and writes the message to the
    field's error element; with the empty message it clears both. On the
    contact form holding Jane / not-an-email / hi, a submission leaves
    the two messages of the scenario on the email and message fields. *)
Theorem validateField_stops_at_first_failing_rule :
  (forall (d : list Element) (field : nat) (x : Element) (rules : Rules),
      d !! field = Some x ->
      let v := trim (value x) in
      let res := validateField field rules d in
      (exists pre post, value x = pre ++ v ++ post /\ blank pre /\ blank post
         /\ (forall c r, v = c :: r -> isWhiteSpace c = false)
         /\ (forall r c, v = r ++ [c] -> isWhiteSpace c = false))
      /\ (failsRequired rules v ->
          res = (false, showError field (required rules) d))
      /\ (~ failsRequired rules v -> failsPattern rules v ->
          res = (false, showError field (patternError rules) d))
      /\ (~ failsRequired rules v -> ~ failsPattern rules v ->
          failsMinLength rules v ->
          res = (false, showError field (minLengthError rules) d))
      /\ (res.1 = true <->
          ~ failsRequired rules v /\ ~ failsPattern rules v
          /\ ~ failsMinLength rules v)
      /\ (res.1 = true -> res.2 = showError field (Some []) d)
      /\ (forall m,
            ariaInvalid <$> showError field m d !! field
            = Some (if truthy m then Some (lit "true") else None)
            /\ forall eh, errOf d field = Some eh ->
                 textOf eh (showError field m d) = orEmpty m))
  /\ (forall (p : Page) (frm name email message submitBtn success ee em : nat),
        getElementById "name" (doc p) = Some name ->
        getElementById "email" (doc p) = Some email ->
        getElementById "message" (doc p) = Some message ->
        getElementById "error-email" (doc p) = Some ee ->
        getElementById "error-message" (doc p) = Some em ->
        valueOf name (doc p) = lit "Jane" ->
        valueOf email (doc p) = lit "not-an-email" ->
        valueOf message (doc p) = lit "hi" ->
        let p' := contactSubmit frm name email message submitBtn success p in
        textOf ee (doc p') = lit "Please enter a valid email address"
        /\ textOf em (doc p') = lit "Message must be at least 10 characters").
Proof.
  split.
  - intros d field x rules Hx v res.
    assert (Hv : trim (valueOf field d) = v) by (unfold valueOf; now rewrite Hx).
    assert (Hres : res = ((verdict rules v).1, showError field (verdict rules v).2 d)).
    { unfold res. now rewrite validateField_verdict, Hv. }
    destruct (verdict_cases rules v) as (C1 & C2 & C3 & C4).
    split; [apply trim_split |].
    split; [intros H; now rewrite Hres, (C1 H) |].
    split; [intros H1 H2; now rewrite Hres, (C2 H1 H2) |].
    split; [intros H1 H2 H3; now rewrite Hres, (C3 H1 H2 H3) |].
    split; [| split].
    + rewrite Hres. simpl. split.
      * intros Ht. repeat split; intros H.
        -- rewrite (C1 H) in Ht. discriminate.
        -- destruct (classic_required rules v) as [Q | Q];
             [rewrite (C1 Q) in Ht | rewrite (C2 Q H) in Ht]; discriminate.
        -- destruct (classic_required rules v) as [Q | Q];
             [rewrite (C1 Q) in Ht; discriminate |].
           destruct (classic_pattern rules v) as [Q' | Q'];
             [rewrite (C2 Q Q') in Ht | rewrite (C3 Q Q' H) in Ht]; discriminate.
      * intros (H1 & H2 & H3). now rewrite (C4 H1 H2 H3).
    + rewrite Hres. simpl. intros Ht.
      destruct (classic_required rules v) as [Q | Q];
        [rewrite (C1 Q) in Ht; discriminate |].
      destruct (classic_pattern rules v) as [Q' | Q'];
        [rewrite (C2 Q Q') in Ht; discriminate |].
      destruct (classic_minLength rules v) as [Q'' | Q''];
        [rewrite (C3 Q Q' Q'') in Ht; discriminate |].
      now rewrite (C4 Q Q' Q'').
    + intros m. split; [eapply showError_field; eauto |].
      intros eh He. now apply showError_text.
  - intros p frm name email message submitBtn success ee em
      Hn He Hm Hee Hem Vn Ve Vm p'.
    assert (Hfound : foundBy (doc p) ["name"; "email"; "message"]%string
                       (contactFields name email message)).
    { split; [compute_done | repeat constructor; assumption]. }
    assert (Hdoc : doc p' = (validateAll (contactFields name email message) (doc p)).2).
    { unfold p'. rewrite contactSubmit_loop. apply submitLoop_rejects.
      simpl. unfold passes. simpl. rewrite Vn, Ve, Vm. vm_compute. reflexivity. }
    rewrite Hdoc. split.
    + rewrite (validateAll_text _ _ _ (email, emailRules) ee Hfound).
      * unfold messageFor. simpl. rewrite Ve. vm_compute. reflexivity.
      * unfold contactFields. repeat constructor.
      * simpl. now rewrite (errOf_found _ _ _ He).
    + rewrite (validateAll_text _ _ _ (message, messageRules) em Hfound).
      * unfold messageFor. simpl. rewrite Vm. vm_compute. reflexivity.
      * unfold contactFields. repeat constructor.
      * simpl. now rewrite (errOf_found _ _ _ Hm).
Qed.

Lemma validateField_stops_at_first_failing_rule_witness :
  validateField 3 emailRules (doc janePage)
  = (false, showError 3 (patternError emailRules) (doc janePage)).
Proof.
  destruct (proj1 validateField_stops_at_first_failing_rule (doc janePage) 3%nat
              (element "email" (Some 0%nat) (lit "not-an-email")) emailRules eq_refl)
    as (_ & _ & H & _).
  apply H.
  - intros [_ Hv]. vm_compute in Hv. discriminate.
  - split; [vm_compute; discriminate |].
    eexists. split; [reflexivity | vm_compute; reflexivity].
Defined.

(** C9. A field without a required rule whose value trims to the empty
    string (that is, a value of white space only) passes whatever pattern and
    minimum length its rules carry: [validateField] returns true, the field is
    no longer marked invalid and its error element is emptied. *)
Theorem optional_blank_field_passes :
  forall (d : list Element) (field : nat) (x : Element) (rules : Rules),
    d !! field = Some x ->
    truthy (required rules) = false ->
    (blank (value x) <-> trim (value x) = [])
    /\ (trim (value x) = [] ->
        validateField field rules d = (true, showError field (Some []) d)
        /\ ariaInvalid <$> (validateField field rules d).2 !! field = Some None
        /\ errorField <$> (validateField field rules d).2 !! field = Some false
        /\ forall eh, errOf d field = Some eh ->
             textOf eh (validateField field rules d).2 = []).
Proof.
  intros d field x rules Hx Hr. split.
  - split; [apply trim_blank |].
    intros Ht. destruct (trim_split (value x)) as (pre & post & Hs & Hpre & Hpost & _).
    rewrite Ht in Hs. rewrite Hs. simpl. unfold blank in *. now apply Forall_app.
  - intros Ht.
    assert (Hv : validateField field rules d = (true, showError field (Some []) d)).
    { rewrite validateField_verdict. unfold valueOf. rewrite Hx. simpl. rewrite Ht.
      unfold verdict. rewrite Hr. reflexivity. }
    rewrite Hv. simpl. split; [reflexivity |]. split; [| split].
    + now rewrite (showError_field field (Some []) d x Hx).
    + rewrite showError_lookup, Hx. simpl. rewrite touch_errorField.
      now rewrite bool_decide_eq_true_2.
    + intros eh He. now rewrite (showError_text field (Some []) d eh He).
Qed.

Lemma optional_blank_field_passes_witness :
  validateField 0 optionalRules blankField
  = (true, showError 0 (Some []) blankField)
  /\ textOf 1 (validateField 0 optionalRules blankField).2 = [].
Proof.
  destruct (optional_blank_field_passes blankField 0%nat _ optionalRules
              eq_refl eq_refl) as [_ H].
  destruct (H ltac:(vm_compute; reflexivity)) as (H1 & _ & _ & H2).
  split; [exact H1 | apply H2; vm_compute; reflexivity].
Defined.

(** * URI component coding: decoding undoes encoding *)

Section UriFacts.

Local Open Scope N_scope.

Ltac divlia := zify; Z.to_euclidean_division_equations; lia.

Ltac decide_tests :=
  repeat (first
    [ rewrite (proj2 (N.ltb_lt _ _)) by divlia
    | rewrite (proj2 (N.ltb_ge _ _)) by divlia
    | rewrite (proj2 (N.leb_le _ _)) by divlia
    | rewrite (proj2 (N.leb_gt _ _)) by divlia
    | rewrite (proj2 (N.eqb_eq _ _)) by divlia
    | rewrite (proj2 (N.eqb_neq _ _)) by divlia ];
    cbv beta iota delta [andb orb negb]).

Lemma hexValue_hexDigit d : d < 16 -> hexValue (hexDigit d) = Some d.
Proof.
  intros H. unfold hexDigit, hexValue.
  destruct (N.ltb_spec d 10); decide_tests; f_equal; lia.
Qed.

Lemma readUtf8_1 b ts :
  b < 0x80 -> readUtf8 (Octet b :: ts) = (fun r => b :: r) <$> readUtf8 ts.
Proof. intros H. remember ts as tl. simpl. decide_tests. reflexivity. Qed.

Lemma readUtf8_2 b b1 ts :
  0xC0 <= b <= 0xDF -> 0x80 <= b1 <= 0xBF ->
  0x80 <= (b - 0xC0) * 0x40 + (b1 - 0x80) ->
  readUtf8 (Octet b :: Octet b1 :: ts)
  = (fun r => utf16 ((b - 0xC0) * 0x40 + (b1 - 0x80)) ++ r) <$> readUtf8 ts.
Proof.
  intros Hb Hb1 Hcp. remember (Octet b1 :: ts) as tl eqn:E. simpl. decide_tests.
  subst tl. unfold isCont. decide_tests. reflexivity.
Qed.

Lemma readUtf8_3 b b1 b2 ts :
  let cp := (b - 0xE0) * 0x1000 + (b1 - 0x80) * 0x40 + (b2 - 0x80) in
  0xE0 <= b <= 0xEF -> 0x80 <= b1 <= 0xBF -> 0x80 <= b2 <= 0xBF ->
  0x800 <= cp -> ~ (0xD800 <= cp <= 0xDFFF) ->
  readUtf8 (Octet b :: Octet b1 :: Octet b2 :: ts)
  = (fun r => utf16 cp ++ r) <$> readUtf8 ts.
Proof.
  intros cp Hb Hb1 Hb2 Hcp Hs. subst cp.
  remember (Octet b1 :: Octet b2 :: ts) as tl eqn:E. simpl. decide_tests.
  subst tl. unfold isCont. decide_tests.
  destruct (N.leb_spec 0xD800 ((b - 224) * 4096 + (b1 - 128) * 64 + (b2 - 128)));
    decide_tests; reflexivity.
Qed.

Lemma readUtf8_4 b b1 b2 b3 ts :
  let cp := (b - 0xF0) * 0x40000 + (b1 - 0x80) * 0x1000 + (b2 - 0x80) * 0x40
            + (b3 - 0x80) in
  0xF0 <= b <= 0xF7 -> 0x80 <= b1 <= 0xBF -> 0x80 <= b2 <= 0xBF ->
  0x80 <= b3 <= 0xBF -> 0x10000 <= cp <= 0x10FFFF ->
  readUtf8 (Octet b :: Octet b1 :: Octet b2 :: Octet b3 :: ts)
  = (fun r => utf16 cp ++ r) <$> readUtf8 ts.
Proof.
  intros cp Hb Hb1 Hb2 Hb3 Hcp. subst cp.
  remember (Octet b1 :: Octet b2 :: Octet b3 :: ts) as tl eqn:E. simpl. decide_tests.
  subst tl. unfold isCont. decide_tests. reflexivity.
Qed.

(** Reading the UTF-8 octets of a scalar value gives its UTF-16 units. *)
Lemma readUtf8_utf8 cp ts :
  cp <= 0x10FFFF -> ~ (0xD800 <= cp <= 0xDFFF) ->
  readUtf8 ((Octet <$> utf8 cp) ++ ts) = (fun r => utf16 cp ++ r) <$> readUtf8 ts.
Proof.
  intros Hmax Hsur. unfold utf8.
  destruct (N.ltb_spec cp 0x80); [| destruct (N.ltb_spec cp 0x800);
                                    [| destruct (N.ltb_spec cp 0x10000)]];
    cbn [fmap list_fmap app].
  - rewrite readUtf8_1 by assumption. unfold utf16. decide_tests. reflexivity.
  - rewrite readUtf8_2 by divlia.
    replace ((0xC0 + cp / 0x40 - 0xC0) * 0x40 + (0x80 + cp mod 0x40 - 0x80))
      with cp by divlia. reflexivity.
  - rewrite readUtf8_3 by divlia.
    replace ((0xE0 + cp / 0x1000 - 0xE0) * 0x1000
             + (0x80 + (cp / 0x40) mod 0x40 - 0x80) * 0x40
             + (0x80 + cp mod 0x40 - 0x80))
      with cp by divlia. reflexivity.
  - rewrite readUtf8_4 by divlia.
    replace ((0xF0 + cp / 0x40000 - 0xF0) * 0x40000
             + (0x80 + (cp / 0x1000) mod 0x40 - 0x80) * 0x1000
             + (0x80 + (cp / 0x40) mod 0x40 - 0x80) * 0x40
             + (0x80 + cp mod 0x40 - 0x80))
      with cp by divlia. reflexivity.
Qed.

Lemma utf8_octets cp : cp <= 0x10FFFF -> Forall (fun b => b < 256) (utf8 cp).
Proof.
  intros H. unfold utf8.
  destruct (N.ltb_spec cp 0x80); [| destruct (N.ltb_spec cp 0x800);
                                    [| destruct (N.ltb_spec cp 0x10000)]];
    repeat constructor; divlia.
Qed.

Lemma unpercent_percent bs rest :
  Forall (fun b => b < 256) bs ->
  unpercent (percent bs ++ rest) = (fun r => (Octet <$> bs) ++ r) <$> unpercent rest.
Proof.
  induction 1 as [| b bs Hb _ IH].
  - simpl. destruct (unpercent rest); reflexivity.
  - unfold percent in *. rewrite bind_cons. cbn [app unpercent].
    rewrite N.eqb_refl.
    rewrite !hexValue_hexDigit by divlia. rewrite IH.
    replace (16 * (b / 16) + b mod 16) with b by divlia.
    destruct (unpercent rest); reflexivity.
Qed.

Lemma unescaped_plain c : unescaped c = true -> c <> 0x25.
Proof. intros H ->. vm_compute in H. discriminate. Qed.

(** A string is well formed when it is made of 16-bit code units. *)
Lemma decoding_step (cp : N) (units s e' : str) ts :
  cp <= 0x10FFFF -> ~ (0xD800 <= cp <= 0xDFFF) -> utf16 cp = units ->
  unpercent e' = Some ts -> readUtf8 ts = Some s ->
  exists ts', unpercent (percent (utf8 cp) ++ e') = Some ts'
              /\ readUtf8 ts' = Some (units ++ s).
Proof.
  intros Hmax Hsur <- Hu Hr.
  rewrite unpercent_percent by now apply utf8_octets.
  rewrite Hu. simpl. eexists. split; [reflexivity |].
  rewrite readUtf8_utf8 by assumption. now rewrite Hr.
Qed.

Lemma encode_decode_tokens n : forall s e,
  (length s <= n)%nat -> Forall (fun c => c < 0x10000) s ->
  encodeURIComponent s = Some e ->
  exists ts, unpercent e = Some ts /\ readUtf8 ts = Some s.
Proof.
  induction n as [| n IH]; intros s e Hlen Hwf He.
  { destruct s; [| simpl in Hlen; lia]. injection He as <-. exists []. easy. }
  destruct s as [| c rest]; [injection He as <-; exists []; easy |].
  apply Forall_cons in Hwf. destruct Hwf as [Hc Hwf].
  cbn [encodeURIComponent] in He.
  destruct (unescaped c) eqn:Eu.
  - destruct (encodeURIComponent rest) as [e' |] eqn:Er; [| discriminate].
    injection He as <-.
    destruct (IH rest e' ltac:(simpl in Hlen; lia) Hwf Er) as (ts & Hu & Hr).
    exists (Raw c :: ts). cbn [unpercent].
    rewrite (proj2 (N.eqb_neq _ _) (unescaped_plain c Eu)), Hu. split; [reflexivity |].
    remember ts as tl. simpl. now rewrite Hr.
  - destruct (isLead c) eqn:El.
    + destruct rest as [| d rest']; [discriminate |].
      destruct (isTrail d) eqn:Et; [| discriminate].
      apply Forall_cons in Hwf. destruct Hwf as [Hd Hwf].
      destruct (encodeURIComponent rest') as [e' |] eqn:Er; [| discriminate].
      injection He as <-.
      destruct (IH rest' e' ltac:(simpl in Hlen; lia) Hwf Er) as (ts & Hu & Hr).
      unfold isLead, isTrail in El, Et.
      apply andb_true_iff in El, Et.
      rewrite !N.leb_le in El, Et.
      apply (decoding_step (codePoint c d) [c; d] rest' e' ts); auto.
      * unfold codePoint. divlia.
      * unfold codePoint. divlia.
      * unfold utf16, codePoint. decide_tests. f_equal; [| f_equal]; divlia.
    + destruct (isTrail c) eqn:Et; [discriminate |].
      destruct (encodeURIComponent rest) as [e' |] eqn:Er; [| discriminate].
      injection He as <-.
      destruct (IH rest e' ltac:(simpl in Hlen; lia) Hwf Er) as (ts & Hu & Hr).
      assert (Hns : ~ (0xD800 <= c <= 0xDFFF)).
      { unfold isLead, isTrail in El, Et.
        apply andb_false_iff in El, Et. rewrite !N.leb_gt in El, Et. lia. }
      apply (decoding_step c [c] rest e' ts); auto.
      * lia.
      * unfold utf16. decide_tests. reflexivity.
Qed.

(** [decodeURIComponent(encodeURIComponent(s))] is [s] whenever the encoding
    does not throw. *)
Lemma decode_encode s e :
  Forall (fun c => c < 0x10000) s ->
  encodeURIComponent s = Some e -> decodeURIComponent e = Some s.
Proof.
  intros Hwf He.
  destruct (encode_decode_tokens (length s) s e (le_n _) Hwf He) as (ts & Hu & Hr).
  unfold decodeURIComponent. now rewrite Hu.
Qed.

End UriFacts.

(** * The fallback panel *)

Section FallbackFacts.


Lemma codeUnits_check s : forallb (fun c => (c <? 0x10000)%N) s = true -> codeUnits s.
Proof.
  intros H. unfold codeUnits. rewrite forallb_forall in H.
  apply list.Forall_forall. intros c Hc. apply N.ltb_lt, H.
  now apply list_elem_of_In.
Qed.


End FallbackFacts.

(** C4. The copy block is not a faithful rendering of what the user entered:
    a message in which the user typed the four characters of a [br] tag and a
    message with a line break at that place produce the same copy-box markup,
    so that no way of reading the block gives back both entries. *)
Theorem copy_box_confuses_typed_br_with_newline :
  let typed := lit "line one<br>line two" in
  let broken := lit "line one" ++ [10%N] ++ lit "line two" in
  let box m := copyBox <$> panels (submitted (lit "Jane") (lit "jane@x.com") m) in
  typed <> broken
  /\ box typed
     = [lit "Name: Jane<br>Email: jane@x.com<br><br>Message:<br>line one<br>line two"]
  /\ box typed = box broken
  /\ forall read : list str -> str,
       ~ (read (box typed) = contactBody (lit "Jane") (lit "jane@x.com") typed
          /\ read (box broken) = contactBody (lit "Jane") (lit "jane@x.com") broken).
Proof.
  intros typed broken box.
  assert (Hne : typed <> broken) by (vm_compute; discriminate).
  assert (Hb : box typed = box broken) by (vm_compute; reflexivity).
  split; [exact Hne |]. split; [vm_compute; reflexivity |]. split; [exact Hb |].
  intros read [H1 H2]. rewrite Hb, H2 in H1.
  apply Hne. unfold contactBody in H1.
  repeat (apply app_inv_head in H1). congruence.
Qed.

(** C10. The body of a quote request lists the selected service and port
    texts and the name, phone and email values as they are, and under
    "Additional Details:" the details value, or the three characters N/A
    when that value is empty. A request with empty details therefore has the
    body of a request whose details read N/A, and not the body made of the
    entries alone. *)
Theorem quote_body_substitutes_NA :
  (forall (d : list Element) (type port name phone email details : nat)
          (subject body : str),
      quoteMessage type port name phone email (Some details) d = Ok (subject, body) ->
      exists t q,
        selectedTextOf type d = Ok t /\ selectedTextOf port d = Ok q
        /\ let shown := match valueOf details d with
                        | [] => lit "N/A"
                        | c :: s => c :: s
                        end in
           let text := lit "Service Type: " ++ t ++ [10%N]
                       ++ lit "Port/Location: " ++ q ++ [10; 10]%N
                       ++ lit "Name: " ++ valueOf name d ++ [10%N]
                       ++ lit "Phone: " ++ valueOf phone d ++ [10%N]
                       ++ lit "Email: " ++ valueOf email d ++ [10; 10]%N
                       ++ lit "Additional Details:" ++ [10%N] ++ shown in
           encodeURIComponent text = Some body
           /\ (codeUnits text -> decodeURIComponent body = Some text))
  /\ (forall t q n ph e : str,
        quoteBody t q n ph e [] = quoteBody t q n ph e (lit "N/A")
        /\ quoteBody t q n ph e []
           <> lit "Service Type: " ++ t ++ [10%N]
              ++ lit "Port/Location: " ++ q ++ [10; 10]%N
              ++ lit "Name: " ++ n ++ [10%N]
              ++ lit "Phone: " ++ ph ++ [10%N]
              ++ lit "Email: " ++ e ++ [10; 10]%N
              ++ lit "Additional Details:" ++ [10%N] ++ []).
Proof.
  split.
  - intros d type port name phone email details subject body H.
    unfold quoteMessage in H.
    destruct (selectedTextOf type d) as [t |] eqn:Et; [| discriminate].
    cbn [bind] in H.
    destruct (encodeURIComponent (lit "Quote Request: " ++ t)) as [sj |];
      [| discriminate].
    cbn [bind orThrow] in H.
    destruct (selectedTextOf port d) as [q |] eqn:Eq; [| discriminate].
    cbn [bind detailsValue] in H.
    destruct (encodeURIComponent
                (quoteBody t q (valueOf name d) (valueOf phone d) (valueOf email d)
                   (valueOf details d))) as [b |] eqn:Eb; [| discriminate].
    cbn [bind orThrow] in H. injection H as <- <-.
    exists t, q. split; [reflexivity |]. split; [reflexivity |].
    unfold quoteBody, orNA in Eb. cbv zeta.
    destruct (valueOf details d);
      (split; [exact Eb | intros Hwf; now apply decode_encode]).
  - intros t q n ph e. split; [reflexivity |].
    unfold quoteBody, orNA. intros H.
    repeat (apply app_inv_head in H). discriminate.
Qed.

Lemma quote_body_substitutes_NA_witness :
  exists body,
    quoteMessage 1 2 3 4 5 (Some 7%nat) (doc (quotePage true [])) = Ok body
    /\ decodeURIComponent body.2
       = Some (lit "Service Type: Customs Clearance" ++ [10%N]
               ++ lit "Port/Location: Mundra Port" ++ [10; 10]%N
               ++ lit "Name: Jane" ++ [10%N]
               ++ lit "Phone: +91 98765 43210" ++ [10%N]
               ++ lit "Email: jane@x.com" ++ [10; 10]%N
               ++ lit "Additional Details:" ++ [10%N] ++ lit "N/A").
Proof.
  destruct (quoteMessage 1 2 3 4 5 (Some 7%nat) (doc (quotePage true [])))
    as [[subject body] | e] eqn:E; [| vm_compute in E; discriminate].
  exists (subject, body). split; [reflexivity |].
  destruct (proj1 quote_body_substitutes_NA _ _ _ _ _ _ _ _ _ E)
    as (t & q & Ht & Hq & _ & Hd).
  vm_compute in Ht, Hq. injection Ht as <-. injection Hq as <-.
  vm_compute in E. injection E as <- <-.
  match type of Hd with
  | ?A -> _ => assert (Hwf : A) by (apply codeUnits_check; vm_compute; reflexivity)
  end.
  specialize (Hd Hwf). vm_compute in Hd. vm_compute. exact Hd.
Defined.

(** * Initialisation with missing elements *)

Section InitFacts.

(** The carousel skips initialisation when the track, a control or every
    slide is missing. *)
Lemma carousel_init_skips L d :
  track d = None \/ prevBtn d = None \/ nextBtn d = None \/ track d = Some [] ->
  Carousel.init L d = None.
Proof.
  unfold Carousel.init. intros [H | [H | [H | H]]]; rewrite ?H.
  - reflexivity.
  - destruct (track d); reflexivity.
  - destruct (track d), (prevBtn d); reflexivity.
  - destruct (prevBtn d), (nextBtn d); reflexivity.
Qed.

(** The contact form skips initialisation when the form, a field, the submit
    button or the success notice is missing. *)
Lemma initContactForm_skips p :
  getElementById "contact-form" (doc p) = None
  \/ getElementById "name" (doc p) = None
  \/ getElementById "email" (doc p) = None
  \/ getElementById "message" (doc p) = None
  \/ getElementById "form-success" (doc p) = None
  \/ (forall f, getElementById "contact-form" (doc p) = Some f ->
                querySelector f submitButton (doc p) = None) ->
  initContactForm p = p.
Proof.
  unfold initContactForm.
  destruct (getElementById "contact-form" (doc p)) as [f |]; [| reflexivity].
  intros [H | [H | [H | [H | [H | H]]]]]; try discriminate;
    rewrite ?H, ?(H f eq_refl);
    repeat match goal with
           | |- context [match ?o with Some _ => _ | None => _ end] => destruct o
           end; reflexivity.
Qed.

(** The quote form checks the form, five of its six fields and the submit
    button. *)
Lemma initQuickQuoteForm_skips p :
  getElementById "quick-quote-form" (doc p) = None
  \/ getElementById "quote-type" (doc p) = None
  \/ getElementById "quote-port" (doc p) = None
  \/ getElementById "quote-name" (doc p) = None
  \/ getElementById "quote-phone" (doc p) = None
  \/ getElementById "quote-email" (doc p) = None
  \/ (forall f, getElementById "quick-quote-form" (doc p) = Some f ->
                querySelector f submitButton (doc p) = None) ->
  initQuickQuoteForm p = p.
Proof.
  unfold initQuickQuoteForm.
  destruct (getElementById "quick-quote-form" (doc p)) as [f |]; [| reflexivity].
  intros [H | [H | [H | [H | [H | [H | H]]]]]]; try discriminate;
    rewrite ?H, ?(H f eq_refl);
    repeat match goal with
           | |- context [match ?o with Some _ => _ | None => _ end] => destruct o
           end; reflexivity.
Qed.

(** Without the details element no message can be composed. *)
Lemma quoteMessage_without_details type port name phone email d :
  exists e, quoteMessage type port name phone email None d = Throw e.
Proof.
  unfold quoteMessage.
  destruct (selectedTextOf type d); cbn [bind]; [| eauto].
  destruct (encodeURIComponent _); cbn [bind orThrow]; [| eauto].
  destruct (selectedTextOf port d); cbn [bind detailsValue]; eauto.
Qed.

End InitFacts.

(** C7. The quote form dereferences [quote-details] when it composes the
    message but does not check for it at initialisation: on a page that
    lacks only that element [init] installs its listeners, and a valid
    submission ends in a [TypeError] after the button has been disabled: no
    mail is composed, no fallback panel is shown, the button stays disabled
    and reads "Processing...". With the element present the same submission
    composes the mail and shows the panel. *)
Theorem quote_init_misses_details :
  (forall type port name phone email d,
      exists e, quoteMessage type port name phone email None d = Throw e)
  /\ getElementById "quote-details" (doc (quotePage false [])) = None
  /\ length (listeners (init (quotePage false []))) = 8%nat
  /\ (let p := run [Submit 0; Wait 800] (init (quotePage false [])) in
      uncaught p = [TypeError] /\ href p = None /\ panels p = []
      /\ disabled <$> doc p !! 6%nat = Some true
      /\ textOf 6 (doc p) = lit "Processing...")
  /\ (let p := run [Submit 0; Wait 800] (init (quotePage true [])) in
      uncaught p = [] /\ length (panels p) = 1%nat
      /\ disabled <$> doc p !! 6%nat = Some false
      /\ textOf 6 (doc p) = lit "Get Quote").
Proof.
  split; [intros; apply quoteMessage_without_details |].
  vm_compute. repeat split; reflexivity.
Qed.

(** * The copy button *)

Section CopyFacts.

(** A fulfilled write: the label becomes "Copied!" and a timer is set to
    put back the label the button had at that moment. *)
Lemma copyClick_fulfilled panel p k f :
  list_find (fun g => pid g = panel) (panels p) = Some (k, f) ->
  let p' := copyClick panel true p in
  (forall g, g ∈ panels p' -> pid g = panel -> copyBtnText g = lit "Copied!")
  /\ timers p' = enqueue {| tid := nextId p; deadline := (clock p + 2000)%N;
                            callback := RestoreLabel panel (copyBtnText f) |}
                   (timers p).
Proof.
  intros Hf. unfold copyClick. rewrite Hf. simpl. split; [| reflexivity].
  intros g Hg Hp. apply list_elem_of_fmap in Hg. destruct Hg as (g0 & -> & _).
  destruct (Nat.eqb_spec (pid g0) panel) as [_ | Hne]; [reflexivity |].
  contradiction.
Qed.

(** A rejected write: the error is logged, the copy box is focused and its
    content selected; the label is left alone. *)
Lemma copyClick_rejected panel p k f :
  list_find (fun g => pid g = panel) (panels p) = Some (k, f) ->
  let p' := copyClick panel false p in
  console p' = console p ++ [lit "Failed to copy: "]
  /\ focus p' = Some (OnCopyBox panel)
  /\ selection p' = Some panel
  /\ panels p' = panels p /\ timers p' = timers p.
Proof. intros Hf. unfold copyClick. rewrite Hf. simpl. easy. Qed.

Lemma run_app evs1 evs2 p : run (evs1 ++ evs2) p = run evs2 (run evs1 p).
Proof. unfold run. apply foldl_app. Qed.

(** Nothing happens while no timer is pending. *)
Lemma elapse_idle dt p : timers p = [] -> copyLabels (elapse dt p) = copyLabels p.
Proof. unfold elapse. intros ->. reflexivity. Qed.

End CopyFacts.

(** C8. After one fulfilled copy the label reads "Copied!" and is back to
    "Copy to Clipboard" two seconds later; after a rejected copy the error is
    logged and the copy box is focused and selected. But the label that is
    restored is the one read when the write is fulfilled: a second click
    within the two seconds reads "Copied!" as the original text, and once both
    timers have run the button reads "Copied!" for good. *)
Theorem copy_label_sticks_after_second_click :
  copyLabels shipment = [lit "Copy to Clipboard"]
  /\ pid <$> panels shipment = [1%nat]
  /\ copyLabels (run [CopyClick 1 true] shipment) = [lit "Copied!"]
  /\ copyLabels (run [CopyClick 1 true; Wait 2000] shipment) = [lit "Copy to Clipboard"]
  /\ (let p := run [CopyClick 1 false] shipment in
      console p = [lit "Failed to copy: "] /\ focus p = Some (OnCopyBox 1)
      /\ selection p = Some 1%nat /\ copyLabels p = [lit "Copy to Clipboard"])
  /\ copyLabels (run [CopyClick 1 true; Wait 1000; CopyClick 1 true; Wait 1000] shipment)
     = [lit "Copy to Clipboard"]
  /\ (let p := run [CopyClick 1 true; Wait 1000; CopyClick 1 true; Wait 2000] shipment in
      copyLabels p = [lit "Copied!"] /\ timers p = [])
  /\ (forall dt,
        copyLabels (run [CopyClick 1 true; Wait 1000; CopyClick 1 true; Wait 2000;
                         Wait dt] shipment) = [lit "Copied!"]).
Proof.
  do 7 (split; [vm_compute; repeat split; reflexivity |]).
  intros dt.
  pose proof (run_app [CopyClick 1 true; Wait 1000; CopyClick 1 true; Wait 2000]
                [Wait dt] shipment) as Hrun.
  cbn [app] in Hrun. rewrite Hrun. cbn [run foldl dispatch].
  rewrite elapse_idle; vm_compute; reflexivity.
Qed.

(** * Waiting runs every callback that is due *)

Section TimerFacts.

Lemma elem_of_enqueue (t x : timer Callback) q : x ∈ enqueue t q <-> x = t \/ x ∈ q.
Proof.
  induction q as [| u q IH]; simpl.
  - rewrite list_elem_of_singleton, elem_of_nil. tauto.
  - destruct (deadline u <=? deadline t)%N;
      rewrite !elem_of_cons, ?IH, ?elem_of_cons; tauto.
Qed.

Lemma enqueue_byDeadline t q : byDeadline q -> byDeadline (enqueue t q).
Proof.
  unfold byDeadline. induction 1 as [| u q Hs IH Hall]; simpl.
  - repeat constructor.
  - destruct (N.leb_spec (deadline u) (deadline t)) as [Hle | Hlt].
    + constructor; [exact IH |].
      rewrite list.Forall_forall in *. intros x Hx.
      apply elem_of_enqueue in Hx. destruct Hx as [-> | Hx]; auto.
    + constructor; [constructor; assumption |].
      constructor; [lia |].
      rewrite list.Forall_forall in *. intros x Hx. specialize (Hall x Hx). lia.
Qed.

Lemma budget_enqueue t q : budget (enqueue t q) = (weight (callback t) + budget q)%nat.
Proof.
  induction q as [| u q IH]; simpl; [reflexivity |].
  destruct (deadline u <=? deadline t)%N; simpl; [rewrite IH |]; lia.
Qed.

Lemma weight_pos cb : (1 <= weight cb)%nat.
Proof. destruct cb; simpl; lia. Qed.

Lemma createFallbackUI_timers frm r subject body p :
  timers (createFallbackUI frm r subject body p).1 = timers p.
Proof. unfold createFallbackUI. destruct (decodeURIComponent body); reflexivity. Qed.

(** A callback leaves the queue as it is, except [quoteSend], which may add
    the timer that removes its notice. *)
Lemma runCallback_timers cb p :
  timers (runCallback cb p) = timers p
  \/ (weight cb = 2%nat
      /\ exists t, weight (callback t) = 1%nat
                   /\ timers (runCallback cb p) = enqueue t (timers p)).
Proof.
  destruct cb; cbn [runCallback weight].
  - left. unfold contactSend.
    destruct (encodeURIComponent _) as [subject |]; [| reflexivity].
    destruct (encodeURIComponent _) as [body |]; [| reflexivity].
    match goal with
    | |- context [createFallbackUI ?a ?b ?c ?d ?q] =>
        pose proof (createFallbackUI_timers a b c d q) as T;
        destruct (createFallbackUI a b c d q) as [p3 [e |]]
    end; exact T.
  - unfold quoteSend.
    destruct (quoteMessage _ _ _ _ _ _ _) as [[subject body] | e]; [| now left].
    unfold fresh. cbv beta iota zeta.
    match goal with
    | |- context [createFallbackUI ?a ?b ?c ?d ?q] =>
        pose proof (createFallbackUI_timers a b c d q) as T;
        destruct (createFallbackUI a b c d q) as [p5 [e |]]
    end.
    + left. exact T.
    + right. split; [reflexivity |]. eexists. split; [| cbn [fst] in T].
      2: { unfold setTimeout. cbn [timers setDoc clock]. rewrite T. reflexivity. }
      reflexivity.
  - now left.
  - now left.
Qed.

Lemma fire_settles fuel now : forall p,
  (budget (timers p) <= fuel)%nat -> byDeadline (timers p) ->
  settled now (fire fuel now p) /\ byDeadline (timers (fire fuel now p)).
Proof.
  induction fuel as [| k IH]; intros p Hb Hs.
  - simpl. destruct (timers p) as [| t q] eqn:E.
    + unfold settled. rewrite E. split; [constructor | exact Hs].
    + simpl in Hb. pose proof (weight_pos (callback t)). lia.
  - simpl. destruct (timers p) as [| t q] eqn:E.
    + unfold settled. rewrite E. split; [constructor | exact Hs].
    + destruct (N.leb_spec (deadline t) now) as [Hdue | Hnot].
      * assert (Hq : byDeadline q) by (inversion Hs; assumption).
        simpl in Hb. pose proof (weight_pos (callback t)).
        destruct (runCallback_timers (callback t) (popTimer t q p))
          as [Ht | (Hw & t' & Hw' & Ht)]; simpl in Ht; apply IH; rewrite Ht.
        -- lia.
        -- exact Hq.
        -- rewrite budget_enqueue. lia.
        -- now apply enqueue_byDeadline.
      * split; [| now rewrite E]. unfold settled. rewrite E.
        inversion Hs as [| ? ? _ Hall]; subst.
        constructor; [exact Hnot |].
        rewrite list.Forall_forall in *. intros x Hx. specialize (Hall x Hx). lia.
Qed.

(** The budget of [elapse] is enough: after a wait no callback is due. *)
Lemma elapse_settles dt p :
  byDeadline (timers p) ->
  settled (clock p + dt) (elapse dt p) /\ byDeadline (timers (elapse dt p)).
Proof.
  intros Hs. unfold elapse.
  destruct (fire_settles (budget (timers p)) (clock p + dt)%N p (le_n _) Hs).
  split; assumption.
Qed.

Lemma submitLoop_timers frm submitBtn fs send p :
  timers (submitLoop frm submitBtn fs send p) = timers p
  \/ exists t, timers (submitLoop frm submitBtn fs send p) = enqueue t (timers p).
Proof.
  unfold submitLoop. destruct (negb _).
  - left. destruct (querySelector _ _ _); reflexivity.
  - right. eexists. reflexivity.
Qed.

Lemma handle_byDeadline ev l p :
  byDeadline (timers p) -> byDeadline (timers (handle ev l p)).
Proof.
  intros Hs. destruct ev, l; cbn [handle]; try exact Hs;
    (destruct (Nat.eqb _ _); [| exact Hs]); try exact Hs.
  - rewrite contactSubmit_loop.
    match goal with
    | |- context [submitLoop ?a ?b ?c ?d ?q] =>
        destruct (submitLoop_timers a b c d q) as [-> | [t ->]]
    end; [exact Hs | now apply enqueue_byDeadline].
  - rewrite quoteSubmit_loop.
    match goal with
    | |- context [submitLoop ?a ?b ?c ?d ?q] =>
        destruct (submitLoop_timers a b c d q) as [-> | [t ->]]
    end; [exact Hs | now apply enqueue_byDeadline].
Qed.

Lemma dispatch_byDeadline ev p :
  byDeadline (timers p) -> byDeadline (timers (dispatch ev p)).
Proof.
  intros Hs.
  assert (Hfold : forall ls q, byDeadline (timers q) ->
            byDeadline (timers (foldl (fun acc l => handle ev l acc) q ls))).
  { induction ls as [| l ls IH]; intros q Hq; simpl; [exact Hq |].
    apply IH. now apply handle_byDeadline. }
  destruct ev; cbn [dispatch]; try (apply Hfold; exact Hs).
  - unfold copyClick. destruct (list_find _ _) as [[k f] |]; [| exact Hs].
    destruct written; [| exact Hs]. cbn [setTimeout timers setPanels].
    now apply enqueue_byDeadline.
  - now apply elapse_settles.
Qed.

Lemma init_timers_empty d : timers (init (load d)) = [].
Proof.
  assert (Hc : forall p, timers (initContactForm p) = timers p).
  { intros p. unfold initContactForm.
    repeat match goal with
           | |- context [match ?o with Some _ => _ | None => _ end] => destruct o
           end; reflexivity. }
  assert (Hq : forall p, timers (initQuickQuoteForm p) = timers p).
  { intros p. unfold initQuickQuoteForm.
    repeat match goal with
           | |- context [match ?o with Some _ => _ | None => _ end] => destruct o
           end; reflexivity. }
  unfold init. now rewrite Hq, Hc.
Qed.

(** On every page reached from a freshly initialised one, a wait runs every
    callback that falls due, those scheduled during the wait included. *)
Lemma wait_runs_every_due_callback d evs dt :
  let p := run evs (init (load d)) in
  settled (clock p + dt) (dispatch (Wait dt) p).
Proof.
  assert (H : forall evs p, byDeadline (timers p) -> byDeadline (timers (run evs p))).
  { induction evs0 as [| ev evs0 IH]; intros p Hp; cbn [run foldl]; [exact Hp |].
    apply IH. now apply dispatch_byDeadline. }
  cbn [dispatch]. apply elapse_settles, H. rewrite init_timers_empty. constructor.
Qed.

End TimerFacts.

(** * The scenarios of the specification, run *)

Section Scenarios.

Example email_shapes :
  test emailPattern (lit "jane@x.com") = true
  /\ test emailPattern (lit "not-an-email") = false
  /\ test emailPattern (lit "a@b") = false
  /\ test emailPattern (lit "a b@c.d") = false
  /\ test emailPattern (lit "a@b@c.d") = false
  /\ test emailPattern (lit "a@b.c.d") = true.
Proof. vm_compute. repeat split; reflexivity. Qed.

Example uri_coding :
  encodeURIComponent (lit "a b&c" ++ [10; 233; 0x20AC; 0xD83D; 0xDE00]%N)
  = Some (lit "a%20b%26c%0A%C3%A9%E2%82%AC%F0%9F%98%80")
  /\ decodeURIComponent (lit "a%20b%26c%0A%C3%A9%E2%82%AC%F0%9F%98%80")
     = Some (lit "a b&c" ++ [10; 233; 0x20AC; 0xD83D; 0xDE00]%N)
  /\ encodeURIComponent [0xD83D]%N = None
  /\ decodeURIComponent (lit "%C0%80") = None
  /\ decodeURIComponent (lit "100%") = None.
Proof. vm_compute. repeat split; reflexivity. Qed.

(** Jane asks for a quote: the mail is composed once, the success notice is
    focused, the panel is shown and the button is released. *)
Example shipment_is_sent :
  href shipment
  = Some (lit "mailto:reshineinternational@gmail.com?subject=Contact%20Form%20Submission%3A%20Jane&body=Name%3A%20Jane%0AEmail%3A%20jane%40x.com%0A%0AMessage%3A%0APlease%20quote%20me%20for%20a%20shipment")
  /\ focus shipment = Some (OnElement 8)
  /\ length (panels shipment) = 1%nat
  /\ uncaught shipment = []
  /\ disabled <$> doc shipment !! 7%nat = Some false
  /\ textOf 7 (doc shipment) = lit "Send Message".
Proof. vm_compute. repeat split; reflexivity. Qed.

(** Jane's invalid entries: both messages, focus on the email field, nothing
    scheduled. *)
Example jane_is_rejected :
  let p := run [Submit 0] (init janePage) in
  textOf 2 (doc p) = []
  /\ textOf 4 (doc p) = lit "Please enter a valid email address"
  /\ textOf 6 (doc p) = lit "Message must be at least 10 characters"
  /\ focus p = Some (OnElement 3)
  /\ timers p = []
  /\ disabled <$> doc p !! 7%nat = Some false.
Proof. vm_compute. repeat split; reflexivity. Qed.

End Scenarios.

(** * More of the carousel

    The timer queue and the rendering, over every sequence of calls. *)

Import Timers Carousel.

Section QueueFacts.
Context {C : Type}.
Implicit Types (t : timer C) (q : list (timer C)).

Lemma enqueue_Permutation t q : enqueue t q ≡ₚ t :: q.
Proof.
  induction q as [| u q IH]; simpl; [reflexivity |].
  destruct (deadline u <=? deadline t)%N; [| reflexivity].
  rewrite IH. apply Permutation_swap.
Qed.

Lemma enqueue_elem t u q : u ∈ enqueue t q <-> u = t \/ u ∈ q.
Proof. rewrite enqueue_Permutation. apply elem_of_cons. Qed.

Lemma cancel_elem i u q : u ∈ cancel i q <-> tid u <> i /\ u ∈ q.
Proof. unfold cancel. rewrite list_elem_of_filter. tauto. Qed.

Lemma filter_keeps_all (P : timer C -> Prop) `{!forall x, Decision (P x)} q :
  Forall P q -> filter P q = q.
Proof.
  induction 1 as [| u q Hu _ IH]; [reflexivity |].
  rewrite filter_cons, decide_True by exact Hu. now rewrite IH.
Qed.

Lemma filter_drops_all (P : timer C -> Prop) `{!forall x, Decision (P x)} q :
  Forall (fun u => ~ P u) q -> filter P q = [].
Proof.
  induction 1 as [| u q Hu _ IH]; [reflexivity |].
  now rewrite filter_cons, decide_False by exact Hu.
Qed.

Lemma filter_tids (P : timer C -> Prop) `{!forall x, Decision (P x)} q :
  NoDup (tid <$> q) -> NoDup (tid <$> filter P q).
Proof.
  induction q as [| u q IH]; [constructor |].
  rewrite fmap_cons, NoDup_cons. intros [Hn Hq]. rewrite filter_cons.
  case_decide; [| auto]. rewrite fmap_cons. constructor; [| auto].
  intros Hin. apply Hn. apply list_elem_of_fmap in Hin.
  destruct Hin as (v & Hv & Hin). apply list_elem_of_filter in Hin.
  apply list_elem_of_fmap. exists v. tauto.
Qed.
End QueueFacts.

Lemma pendingUnlocks_enqueue t q :
  pendingUnlocks (enqueue t q)
  = ((if isUnlock t then 1 else 0) + pendingUnlocks q)%nat.
Proof.
  unfold pendingUnlocks. rewrite enqueue_Permutation, filter_cons.
  destruct (isUnlock t); case_decide; simpl; congruence.
Qed.

Lemma pendingUnlocks_split (P : timer Callback -> Prop) `{!forall x, Decision (P x)} q :
  pendingUnlocks q
  = (pendingUnlocks (filter P q) + pendingUnlocks (filter (fun t => ~ P t) q))%nat.
Proof.
  unfold pendingUnlocks. induction q as [| u q IH]; [reflexivity |].
  rewrite !(filter_cons _ u). repeat case_decide; try tauto;
    rewrite ?filter_cons; repeat case_decide; simpl; try tauto; lia.
Qed.

Lemma pendingUnlocks_cancel i q :
  (forall t, t ∈ q -> tid t = i -> isUnlock t = false) ->
  pendingUnlocks (cancel i q) = pendingUnlocks q.
Proof.
  intros H. unfold pendingUnlocks, cancel. induction q as [| u q IH]; [reflexivity |].
  assert (IH' := IH (fun t Ht => H t (list_elem_of_further _ _ _ Ht))).
  rewrite (filter_cons (fun t => isUnlock t = true) u q).
  rewrite (filter_cons (fun t => tid t <> i) u q).
  destruct (decide (tid u = i)) as [E | E].
  - rewrite decide_False by tauto.
    rewrite (decide_False (P := isUnlock u = true)); [exact IH' |].
    rewrite (H u (list_elem_of_here _ _) E). discriminate.
  - rewrite decide_True by exact E. rewrite filter_cons.
    case_decide; simpl; congruence.
Qed.

Section Steps.

Lemma fired_fields L (q : list (timer Callback)) s :
  let s' := foldl (fun acc t => runCallback L (callback t) acc) s q in
  clock s' = clock s /\ nextId s' = nextId s /\ timers s' = timers s
  /\ resizeTimeout s' = resizeTimeout s
  /\ isTransitioning s' = if decide (pendingUnlocks q = 0%nat)
                          then isTransitioning s else false.
Proof.
  revert s. induction q as [| t q IH]; intros s; [easy |].
  cbn [foldl]. destruct (IH (runCallback L (callback t) s)) as (-> & -> & -> & -> & ->).
  unfold pendingUnlocks. rewrite filter_cons.
  destruct (callback t) eqn:E; cbn [runCallback].
  - assert (Hu : isUnlock t = true) by (unfold isUnlock; now rewrite E).
    rewrite (decide_True (P := isUnlock t = true)) by exact Hu. cbn [length].
    repeat split. repeat case_decide; try reflexivity; lia.
  - assert (Hu : isUnlock t <> true) by (unfold isUnlock; rewrite E; discriminate).
    rewrite (decide_False (P := isUnlock t = true)) by exact Hu.
    rewrite update_clock, update_nextId, update_timers, update_lock.
    repeat split. unfold update. destruct (_ =? _)%nat; reflexivity.
Qed.

End Steps.

Section Preservation.

Lemma update_resizeTimeout L s : resizeTimeout (update L s) = resizeTimeout s.
Proof. unfold update. destruct (length (items s) =? 0)%nat; reflexivity. Qed.

Lemma wellTimed_move L i s :
  wellTimed s -> isTransitioning s = false ->
  wellTimed (setTimeout Unlock 400 (update L (moveTo i s))).
Proof.
  intros [[Hpos Hids] Hnd Hrs Hdb Hrn Hfut Hlock] Hl.
  rewrite Hl in Hlock.
  set (t := {| tid := nextId s; deadline := (clock s + 400)%N; callback := Unlock |}).
  assert (Ht : timers (setTimeout Unlock 400 (update L (moveTo i s)))
               = enqueue t (timers s)).
  { cbn [setTimeout timers]. rewrite update_nextId, update_clock, update_timers.
    reflexivity. }
  assert (Hn : nextId (setTimeout Unlock 400 (update L (moveTo i s))) = S (nextId s)).
  { cbn [setTimeout nextId]. now rewrite update_nextId. }
  assert (Hc : clock (setTimeout Unlock 400 (update L (moveTo i s))) = clock s).
  { cbn [setTimeout clock]. now rewrite update_clock. }
  assert (Hr : resizeTimeout (setTimeout Unlock 400 (update L (moveTo i s)))
               = resizeTimeout s).
  { cbn [setTimeout resizeTimeout]. now rewrite update_resizeTimeout. }
  assert (Hk : isTransitioning (setTimeout Unlock 400 (update L (moveTo i s))) = true).
  { cbn [setTimeout isTransitioning]. now rewrite update_lock. }
  rewrite list.Forall_forall in Hids, Hfut.
  split; rewrite ?Ht, ?Hn, ?Hc, ?Hr, ?Hk.
  - split; [lia |]. apply list.Forall_forall. intros u Hu.
    apply enqueue_elem in Hu. destruct Hu as [-> | Hu]; [simpl; lia |].
    specialize (Hids u Hu). lia.
  - rewrite enqueue_Permutation, fmap_cons. constructor; [| exact Hnd].
    intros Hin. apply list_elem_of_fmap in Hin. destruct Hin as (u & Hu & Hin).
    specialize (Hids u Hin). simpl in Hu. lia.
  - intros j Hj. specialize (Hrs j Hj). lia.
  - intros u Hu Hj. apply enqueue_elem in Hu. destruct Hu as [-> | Hu]; [| auto].
    simpl in Hj. specialize (Hrs _ Hj). lia.
  - intros u Hu Hcb. apply enqueue_elem in Hu. destruct Hu as [-> | Hu]; [| auto].
    discriminate.
  - apply list.Forall_forall. intros u Hu.
    apply enqueue_elem in Hu. destruct Hu as [-> | Hu]; [simpl; lia | auto].
  - rewrite pendingUnlocks_enqueue, Hlock. reflexivity.
Qed.

Lemma wellTimed_resize s : wellTimed s -> wellTimed (handleResize s).
Proof.
  intros [[Hpos Hids] Hnd Hrs Hdb Hrn Hfut Hlock].
  set (t := {| tid := nextId s; deadline := (clock s + 250)%N; callback := Rerender |}).
  set (q := match resizeTimeout s with
            | Some i => cancel i (timers s)
            | None => timers s
            end).
  assert (Hq : forall u, u ∈ q -> u ∈ timers s
                /\ (forall i, resizeTimeout s = Some i -> tid u <> i)).
  { intros u Hu. unfold q in Hu. destruct (resizeTimeout s) as [i |].
    - apply cancel_elem in Hu. split; [tauto |]. intros j [= <-]. tauto.
    - split; [exact Hu | discriminate]. }
  assert (Hqnd : NoDup (tid <$> q)).
  { unfold q. destruct (resizeTimeout s); [now apply filter_tids | exact Hnd]. }
  assert (Hqu : pendingUnlocks q = pendingUnlocks (timers s)).
  { unfold q. destruct (resizeTimeout s) as [i |] eqn:E; [| reflexivity].
    apply pendingUnlocks_cancel. intros u Hu Hi. unfold isUnlock.
    rewrite (Hdb u Hu); [reflexivity | now rewrite Hi]. }
  change (timers (handleResize s)) with (enqueue t q).
  rewrite list.Forall_forall in Hids, Hfut.
  split; cbn [handleResize nextId clock resizeTimeout isTransitioning timers];
    fold q; fold t.
  - split; [lia |]. apply list.Forall_forall. intros u Hu.
    apply enqueue_elem in Hu. destruct Hu as [-> | Hu]; [simpl; lia |].
    destruct (Hq u Hu) as [Hu' _]. specialize (Hids u Hu'). lia.
  - rewrite enqueue_Permutation, fmap_cons. constructor; [| exact Hqnd].
    intros Hin. apply list_elem_of_fmap in Hin. destruct Hin as (u & Hu & Hin).
    destruct (Hq u Hin) as [Hu' _]. specialize (Hids u Hu'). simpl in Hu. lia.
  - intros j [= <-]. lia.
  - intros u Hu [= Hj]. apply enqueue_elem in Hu. destruct Hu as [-> | Hu];
      [reflexivity |].
    destruct (Hq u Hu) as [Hu' _]. specialize (Hids u Hu'). lia.
  - intros u Hu Hcb. apply enqueue_elem in Hu. destruct Hu as [-> | Hu];
      [now right |].
    destruct (Hq u Hu) as [Hu' Hne]. left.
    destruct (Hrn u Hu' Hcb) as [H0 | Hr]; [exact H0 |].
    exfalso. exact (Hne _ Hr eq_refl).
  - apply list.Forall_forall. intros u Hu.
    apply enqueue_elem in Hu. destruct Hu as [-> | Hu]; [simpl; lia |].
    destruct (Hq u Hu) as [Hu' _]. auto.
  - rewrite pendingUnlocks_enqueue, Hqu. exact Hlock.
Qed.

Lemma elapse_fields L dt s :
  clock (elapse L dt s) = (clock s + dt)%N
  /\ nextId (elapse L dt s) = nextId s
  /\ timers (elapse L dt s) = later (clock s + dt) (timers s)
  /\ resizeTimeout (elapse L dt s) = resizeTimeout s
  /\ isTransitioning (elapse L dt s)
     = if decide (pendingUnlocks (due (clock s + dt) (timers s)) = 0%nat)
       then isTransitioning s else false.
Proof.
  unfold elapse.
  match goal with
  | |- context [foldl ?f ?s0 ?q] =>
      destruct (fired_fields L q s0) as (-> & -> & -> & -> & ->)
  end.
  easy.
Qed.

Lemma wellTimed_elapse L dt s : wellTimed s -> wellTimed (elapse L dt s).
Proof.
  intros [[Hpos Hids] Hnd Hrs Hdb Hrn Hfut Hlock].
  destruct (elapse_fields L dt s) as (Hc & Hn & Ht & Hr & Hk).
  assert (Hsub : forall u, u ∈ later (clock s + dt) (timers s) ->
                   u ∈ timers s /\ (clock s + dt < deadline u)%N).
  { intros u Hu. unfold later in Hu. apply list_elem_of_filter in Hu.
    split; [tauto | lia]. }
  pose proof (pendingUnlocks_split (fun u => (deadline u <= clock s + dt)%N)
                (timers s)) as Hsplit.
  change (pendingUnlocks (timers s)
          = (pendingUnlocks (due (clock s + dt) (timers s))
             + pendingUnlocks (later (clock s + dt) (timers s)))%nat) in Hsplit.
  rewrite list.Forall_forall in Hids, Hfut.
  split; rewrite ?Hc, ?Hn, ?Ht, ?Hr, ?Hk.
  - split; [exact Hpos |]. apply list.Forall_forall. intros u Hu.
    apply Hids. now apply Hsub.
  - now apply filter_tids.
  - exact Hrs.
  - intros u Hu. apply Hdb. now apply Hsub.
  - intros u Hu. apply Hrn. now apply Hsub.
  - apply list.Forall_forall. intros u Hu. destruct (Hsub u Hu) as [Hu' Hd].
    specialize (Hfut u Hu'). lia.
  - rewrite Hlock in Hsplit. case_decide as Hz.
    + lia.
    + destruct (isTransitioning s); lia.
Qed.

Lemma wellTimed_step L c s : wellTimed s -> wellTimed (step L c s).
Proof.
  intros H. destruct c; cbn [step].
  - unfold goToNext. destruct (isTransitioning s) eqn:E; [exact H |].
    cbn [orb]. destruct (_ >=? _); [exact H | now apply wellTimed_move].
  - unfold goToPrev. destruct (isTransitioning s) eqn:E; [exact H |].
    cbn [orb]. destruct (_ <=? _); [exact H | now apply wellTimed_move].
  - unfold goToSlide. destruct (isTransitioning s) eqn:E; [exact H |].
    cbn [orb]. destruct (_ || _ || _); [exact H | now apply wellTimed_move].
  - now apply wellTimed_resize.
  - now apply wellTimed_elapse.
Qed.

Lemma wellTimed_init L d w : init L d = Some w -> wellTimed (state w).
Proof.
  unfold init. destruct (track d) as [children |]; [| discriminate].
  destruct (prevBtn d), (nextBtn d); try discriminate.
  destruct (length children =? 0)%nat; [discriminate |].
  intros [= <-]. cbn [state].
  match goal with |- wellTimed (setTimeout _ _ (update _ ?s0)) => set (s := s0) end.
  split; cbn [setTimeout nextId clock timers resizeTimeout isTransitioning];
    rewrite ?update_nextId, ?update_clock, ?update_timers, ?update_resizeTimeout,
      ?update_lock; cbn [s nextId clock timers resizeTimeout isTransitioning enqueue].
  - split; [lia | repeat constructor].
  - repeat constructor. apply not_elem_of_nil.
  - discriminate.
  - intros u Hu. discriminate.
  - intros u Hu _. apply list_elem_of_singleton in Hu. subst. now left.
  - repeat constructor; simpl; lia.
  - reflexivity.
Qed.

Lemma wellTimed_run cs s : wellTimed s -> wellTimed (run cs s).
Proof.
  revert s. induction cs as [| [L c] cs IH]; intros s H; [exact H |].
  cbn [run foldl]. apply IH. now apply wellTimed_step.
Qed.

End Preservation.

Section View.

Lemma short_list_eq {A} (l : list A) x y :
  (length l <= 1)%nat -> x ∈ l -> y ∈ l -> x = y.
Proof.
  destruct l as [| a [| b l]]; simpl; intros Hl Hx Hy; try lia.
  - apply elem_of_nil in Hx. contradiction.
  - apply list_elem_of_singleton in Hx, Hy. congruence.
Qed.

Lemma same_tid_same_timer (q : list (timer Callback)) t u :
  NoDup (tid <$> q) -> t ∈ q -> u ∈ q -> tid t = tid u -> t = u.
Proof.
  induction q as [| v q IH]; intros Hnd Ht Hu E.
  { apply elem_of_nil in Ht. contradiction. }
  rewrite fmap_cons, NoDup_cons in Hnd. destruct Hnd as [Hn Hnd].
  apply elem_of_cons in Ht, Hu.
  destruct Ht as [-> | Ht], Hu as [-> | Hu]; auto.
  - exfalso. apply Hn. rewrite E. now apply list_elem_of_fmap_2.
  - exfalso. apply Hn. rewrite <- E. now apply list_elem_of_fmap_2.
Qed.

Lemma update_synced L s : items s <> [] -> synced (update L s).
Proof.
  intros Hne. unfold update.
  destruct (length (items s) =? 0)%nat eqn:E.
  { apply Nat.eqb_eq in E. destruct (items s); [congruence | discriminate]. }
  unfold synced, slideCount.
  cbn [hideOthers updateDots updateButtons setTransform index prev next dots items
       disabled].
  rewrite length_imap. split; [reflexivity |]. split; [reflexivity |]. split.
  - intros i dot H. rewrite list_lookup_imap in H.
    destruct (dots s !! i); [| discriminate]. now injection H as <-.
  - intros i h H. rewrite list_lookup_imap in H.
    destruct (items s !! i); [| discriminate]. now injection H as <-.
Qed.

Lemma items_nonempty s : 1 <= slideCount s -> items s <> [].
Proof. unfold slideCount. destruct (items s); simpl; [lia | discriminate]. Qed.

Lemma move_synced L i s :
  1 <= slideCount s -> synced (setTimeout Unlock 400 (update L (moveTo i s))).
Proof.
  intros H. apply (update_synced L (moveTo i s)). now apply items_nonempty.
Qed.

Lemma fired_synced L (q : list (timer Callback)) s :
  1 <= slideCount s -> synced s ->
  synced (foldl (fun acc t => runCallback L (callback t) acc) s q).
Proof.
  revert s. induction q as [| t q IH]; intros s Hc Hs; [exact Hs |].
  cbn [foldl]. apply IH.
  - now rewrite runCallback_slideCount.
  - destruct (callback t); cbn [runCallback]; [exact Hs |].
    apply update_synced. now apply items_nonempty.
Qed.

Lemma step_synced L c s : 1 <= slideCount s -> synced s -> synced (step L c s).
Proof.
  intros Hc Hs. destruct c; cbn [step].
  - unfold goToNext. destruct (_ || _); [exact Hs | now apply move_synced].
  - unfold goToPrev. destruct (_ || _); [exact Hs | now apply move_synced].
  - unfold goToSlide. destruct (_ || _ || _ || _); [exact Hs | now apply move_synced].
  - exact Hs.
  - unfold elapse. apply fired_synced; [exact Hc | exact Hs].
Qed.

Lemma run_synced cs s : 1 <= slideCount s -> synced s -> synced (run cs s).
Proof.
  revert s. induction cs as [| [L c] cs IH]; intros s Hc Hs; [exact Hs |].
  cbn [run foldl]. apply IH; [now rewrite step_slideCount | now apply step_synced].
Qed.

Lemma init_synced L d w : init L d = Some w -> synced (state w).
Proof.
  unfold init. destruct (track d) as [children |]; [| discriminate].
  destruct (prevBtn d), (nextBtn d); try discriminate.
  destruct (length children =? 0)%nat eqn:E; [discriminate |].
  intros [= <-]. cbn [state].
  match goal with |- synced (setTimeout _ _ (update _ ?s0)) =>
    apply (update_synced L s0) end.
  cbn [items]. apply Nat.eqb_neq in E. destruct children; [contradiction | discriminate].
Qed.

End View.

(** X1. After [init] and any sequence of calls, resize events and waits,
    the previous control is disabled exactly at index 0, the next control
    exactly at the last index, the dot of the current slide is the only
    active one, and [aria-hidden] is true on every slide but the current
    one, on which it is false. *)
Theorem controls_follow_the_index :
  forall (L : Layout) (d : Dom) (w : Widget) (cs : list (Layout * Call)),
    init L d = Some w ->
    let s := run cs (state w) in
    (disabled (prev s) = true <-> index s = 0)
    /\ (disabled (next s) = true <-> index s = slideCount s - 1)
    /\ (forall i dot, dots s !! i = Some dot ->
          (active dot = true <-> Z.of_nat i = index s))
    /\ (forall i h, items s !! i = Some h ->
          (h = Some true <-> Z.of_nat i <> index s)
          /\ (h = Some false <-> Z.of_nat i = index s)).
Proof.
  intros L d w cs Hw s.
  destruct (init_state L d w Hw) as (_ & Hc & _).
  destruct (run_synced cs (state w) Hc (init_synced L d w Hw)) as (Hp & Hn & Hd & Hi).
  fold s in Hp, Hn, Hd, Hi.
  split; [rewrite Hp; apply Z.eqb_eq |].
  split; [rewrite Hn; apply Z.eqb_eq |].
  split.
  - intros i dot H. rewrite (Hd i dot H). apply Z.eqb_eq.
  - intros i h H. rewrite (Hi i h H).
    destruct (Z.eqb_spec (Z.of_nat i) (index s)); cbn [negb];
      split; split; congruence.
Qed.

(** X2. [isTransitioning] is set exactly while an [Unlock] timer is
    pending, of which there is never more than one; every pending timer falls
    due within the next 400 ms, so that 400 ms without a call leave the
    carousel unlocked and the queue empty. *)
Theorem lock_lasts_as_long_as_its_timer :
  forall (L : Layout) (d : Dom) (w : Widget) (cs : list (Layout * Call)),
    init L d = Some w ->
    let s := run cs (state w) in
    (isTransitioning s = true <-> exists t, t ∈ timers s /\ callback t = Unlock)
    /\ (forall t u, t ∈ timers s -> u ∈ timers s ->
          callback t = Unlock -> callback u = Unlock -> t = u)
    /\ (forall t, t ∈ timers s -> (clock s < deadline t <= clock s + 400)%N)
    /\ (forall L', timers (elapse L' 400 s) = []
                   /\ isTransitioning (elapse L' 400 s) = false).
Proof.
  intros L d w cs Hw s.
  destruct (wellTimed_run cs _ (wellTimed_init L d w Hw))
    as [_ _ _ _ _ Hfut Hlock].
  fold s in Hfut, Hlock. rewrite list.Forall_forall in Hfut.
  assert (Hin : forall t, t ∈ filter (fun t => isUnlock t = true) (timers s)
                  <-> t ∈ timers s /\ callback t = Unlock).
  { intros t. rewrite list_elem_of_filter. unfold isUnlock.
    destruct (callback t); split; intros [? ?]; split; congruence. }
  unfold pendingUnlocks in Hlock.
  split; [| split; [| split; [exact Hfut |]]].
  - split.
    + intros Ht. rewrite Ht in Hlock.
      destruct (filter _ (timers s)) as [| t q] eqn:E; [discriminate |].
      exists t. apply Hin. left.
    + intros (t & Ht). apply Hin in Ht.
      destruct (isTransitioning s); [reflexivity |].
      destruct (filter _ (timers s)); [| discriminate].
      apply elem_of_nil in Ht. contradiction.
  - intros t u Ht Hu Ct Cu.
    apply (short_list_eq (filter (fun t => isUnlock t = true) (timers s)));
      [rewrite Hlock; destruct (isTransitioning s); lia | |]; apply Hin; tauto.
  - intros L'. destruct (elapse_fields L' 400 s) as (_ & _ & Ht & _ & Hk).
    assert (Hdue : due (clock s + 400) (timers s) = timers s).
    { apply filter_keeps_all. apply list.Forall_forall. intros t Hin'.
      specialize (Hfut t Hin'). lia. }
    assert (Hlater : later (clock s + 400) (timers s) = []).
    { apply filter_drops_all. apply list.Forall_forall. intros t Hin'.
      specialize (Hfut t Hin'). lia. }
    rewrite Ht, Hk, Hdue, Hlater. split; [reflexivity |].
    unfold pendingUnlocks. rewrite Hlock.
    destruct (isTransitioning s); case_decide; try reflexivity; lia.
Qed.

(** X3. A resize neither moves nor locks the carousel. It leaves one
    debounced render pending, due 250 ms after the last resize event and
    named by [resizeTimeout]: the render of an earlier resize is cancelled,
    and the only other render that can be pending is the first one of
    [init]. *)
Theorem resize_events_coalesce :
  forall (L : Layout) (d : Dom) (w : Widget) (cs : list (Layout * Call)),
    init L d = Some w ->
    let s := run cs (state w) in
    let s' := handleResize s in
    index s' = index s /\ isTransitioning s' = isTransitioning s
    /\ exists t, t ∈ timers s' /\ resizeTimeout s' = Some (tid t)
                 /\ callback t = Rerender /\ deadline t = (clock s + 250)%N
                 /\ forall u, u ∈ timers s' -> callback u = Rerender ->
                      u = t \/ tid u = 0%nat.
Proof.
  intros L d w cs Hw s s'.
  pose proof (wellTimed_run cs _ (wellTimed_init L d w Hw)) as Hs. fold s in Hs.
  destruct (wellTimed_resize s Hs) as [_ Hnd _ _ Hrn _ _]. fold s' in Hnd, Hrn.
  split; [reflexivity |]. split; [reflexivity |].
  set (t := {| tid := nextId s; deadline := (clock s + 250)%N; callback := Rerender |}).
  assert (Ht : t ∈ timers s').
  { unfold s'. cbn [handleResize timers]. apply enqueue_elem. now left. }
  exists t. split; [exact Ht |]. split; [reflexivity |].
  split; [reflexivity |]. split; [reflexivity |].
  intros u Hu Hc. destruct (Hrn u Hu Hc) as [H0 | Hr]; [now right |].
  left. apply (same_tid_same_timer (timers s')); try assumption.
  unfold s' in Hr. cbn [handleResize resizeTimeout] in Hr. now injection Hr.
Qed.

Section Quiet.

Lemma wellTimed_quiet L s :
  wellTimed s ->
  timers (elapse L 400 s) = [] /\ isTransitioning (elapse L 400 s) = false.
Proof.
  intros [_ _ _ _ _ Hfut Hlock]. rewrite list.Forall_forall in Hfut.
  destruct (elapse_fields L 400 s) as (_ & _ & Ht & _ & Hk).
  assert (Hdue : due (clock s + 400) (timers s) = timers s).
  { apply filter_keeps_all. apply list.Forall_forall. intros t Hin'.
    specialize (Hfut t Hin'). lia. }
  assert (Hlater : later (clock s + 400) (timers s) = []).
  { apply filter_drops_all. apply list.Forall_forall. intros t Hin'.
    specialize (Hfut t Hin'). lia. }
  rewrite Ht, Hk, Hdue, Hlater. split; [reflexivity |].
  rewrite Hlock. destruct (isTransitioning s); case_decide; try reflexivity; lia.
Qed.

Lemma no_unlock_pending s t :
  wellTimed s -> isTransitioning s = false -> t ∈ timers s -> callback t <> Unlock.
Proof.
  intros [_ _ _ _ _ _ Hlock] Hl Ht Hc. rewrite Hl in Hlock.
  unfold pendingUnlocks in Hlock.
  assert (Hin : t ∈ filter (fun t => isUnlock t = true) (timers s)).
  { apply list_elem_of_filter. split; [| exact Ht]. unfold isUnlock. now rewrite Hc. }
  destruct (filter _ (timers s)); [| discriminate].
  apply elem_of_nil in Hin. contradiction.
Qed.

Lemma goToPrev_moves L s :
  isTransitioning s = false -> 0 < index s ->
  index (goToPrev L s) = index s - 1.
Proof.
  intros Hl Hi. unfold goToPrev. rewrite Hl. cbn [orb].
  destruct (Z.leb_spec (index s) 0); [lia |].
  cbn [setTimeout index]. now rewrite update_index.
Qed.

End Quiet.

(** X4. From an unlocked carousel that is not at its last slide,
    [goToNext] moves one slide on; [goToPrev] is dropped for the next 400 ms
    and, called after them, leads back to the slide one started from. *)
Theorem next_then_prev_returns :
  forall (L L1 L2 L3 : Layout) (d : Dom) (w : Widget) (cs : list (Layout * Call)),
    init L d = Some w ->
    let s := run cs (state w) in
    isTransitioning s = false -> index s < slideCount s - 1 ->
    index (goToNext L1 s) = index s + 1
    /\ (forall dt, (dt < 400)%N ->
          goToPrev L2 (elapse L3 dt (goToNext L1 s)) = elapse L3 dt (goToNext L1 s))
    /\ index (goToPrev L2 (elapse L3 400 (goToNext L1 s))) = index s.
Proof.
  intros L L1 L2 L3 d w cs Hw s Hl Hi.
  pose proof (wellTimed_run cs _ (wellTimed_init L d w Hw)) as Hs. fold s in Hs.
  destruct (run_inBounds cs (state w)) as [Hb _].
  { destruct (init_state L d w Hw) as (H0 & H1 & _). unfold inBounds. lia. }
  fold s in Hb. unfold inBounds in Hb.
  destruct (goToNext_moves L1 s Hl Hi) as (Mi & Ml & Mc & Mt).
  split; [exact Mi |]. split.
  - intros dt Hdt. apply locked_prev. rewrite elapse_keeps_lock; [exact Ml |].
    rewrite Mt, Mc. apply list.Forall_forall. intros t Ht Hc.
    apply enqueue_elem in Ht. destruct Ht as [-> | Ht]; [simpl; lia |].
    exfalso. exact (no_unlock_pending s t Hs Hl Ht Hc).
  - assert (Hs1 : wellTimed (goToNext L1 s)) by exact (wellTimed_step L1 Next s Hs).
    destruct (wellTimed_quiet L3 _ Hs1) as [_ Hu].
    rewrite goToPrev_moves; rewrite ?elapse_index; [lia | exact Hu | lia].
Qed.

(** X5. [init] returns early exactly when the track, the previous control
    or the next control is missing or the track has no child. *)
Theorem carousel_init_skips_exactly_when_incomplete :
  forall (L : Layout) (d : Dom),
    init L d = None
    <-> track d = None \/ prevBtn d = None \/ nextBtn d = None \/ track d = Some [].
Proof.
  intros L d. split; [| apply carousel_init_skips].
  unfold init. destruct (track d) as [children |]; [| auto].
  destruct (prevBtn d); [| auto]. destruct (nextBtn d); [| auto].
  destruct children; [auto | discriminate].
Qed.

(** X6. [goToSlide i] leaves the state as it is exactly when the carousel
    is locked, [i] is the current index or [i] is not the index of a slide;
    otherwise it moves to [i], locks, and schedules the unlock 400 ms
    later. *)
Theorem goToSlide_accepts_other_slides_only :
  forall (L : Layout) (i : Z) (s : State),
    (goToSlide L i s = s
     <-> isTransitioning s = true \/ i = index s \/ i < 0 \/ slideCount s <= i)
    /\ (goToSlide L i s <> s ->
        index (goToSlide L i s) = i /\ isTransitioning (goToSlide L i s) = true
        /\ timers (goToSlide L i s)
           = enqueue {| tid := nextId s; deadline := (clock s + 400)%N;
                        callback := Unlock |} (timers s)).
Proof.
  intros L i s. unfold goToSlide.
  destruct (isTransitioning s) eqn:El; cbn [orb].
  { split; [tauto | congruence]. }
  destruct (Z.eqb_spec i (index s)); cbn [orb]; [split; [tauto | congruence] |].
  destruct (Z.ltb_spec i 0); cbn [orb]; [split; [tauto | congruence] |].
  destruct (Z.geb_spec i (slideCount s)); [split; [intuition lia | congruence] |].
  split.
  - split.
    + intros Heq. apply (f_equal isTransitioning) in Heq.
      cbn [setTimeout isTransitioning] in Heq. rewrite update_lock, El in Heq.
      discriminate.
    + intros [Hc | [Hc | [Hc | Hc]]]; try discriminate; try lia.
  - intros _. cbn [setTimeout index isTransitioning timers].
    rewrite update_index, update_lock, update_nextId, update_clock, update_timers.
    easy.
Qed.

(** X7. When [init] goes through, the carousel shows slide 0 unlocked with
    the track at offset 0, the previous control disabled and the next one
    disabled only if there is one slide; a dot has been created for every
    slide if there is a dots container, each with its click listener; the
    controls and the window have their listeners, the region its keydown
    listener if it exists; and one render is pending, due 300 ms later. *)
Theorem carousel_init_shows_first_slide :
  forall (L : Layout) (d : Dom) (w : Widget),
    init L d = Some w ->
    let s := state w in
    index s = 0 /\ isTransitioning s = false
    /\ Some (length (items s)) = length <$> track d
    /\ translateX s = Some 0
    /\ disabled (prev s) = true
    /\ (disabled (next s) = true <-> slideCount s = 1)
    /\ length (dots s)
       = (length (default [] (dotsContainer d))
          + match dotsContainer d with Some _ => length (items s) | None => 0 end)%nat
    /\ timers s = [{| tid := 0; deadline := 300%N; callback := Rerender |}]
    /\ (forall i, DotClick i ∈ listeners w
                  <-> is_Some (dotsContainer d) /\ (i < length (items s))%nat)
    /\ NextClick ∈ listeners w /\ PrevClick ∈ listeners w
    /\ WindowResize ∈ listeners w
    /\ (RegionKeydown ∈ listeners w <-> region d = true).
Proof.
  intros L d w Hw s.
  destruct (init_state L d w Hw) as (Hi & Hc & Hl & Hn).
  destruct (init_timers L d w Hw) as (_ & Ht).
  destruct (init_synced L d w Hw) as (Hp & Hx & _ & _).
  fold s in Hi, Hc, Hl, Hn, Ht, Hp, Hx.
  split; [exact Hi |]. split; [exact Hl |]. split; [exact Hn |].
  assert (Hrest : translateX s = Some 0
            /\ length (dots s)
               = (length (default [] (dotsContainer d))
                  + match dotsContainer d with Some _ => length (items s) | None => 0 end)%nat
            /\ (forall i, DotClick i ∈ listeners w
                  <-> is_Some (dotsContainer d) /\ (i < length (items s))%nat)
            /\ NextClick ∈ listeners w /\ PrevClick ∈ listeners w
            /\ WindowResize ∈ listeners w
            /\ (RegionKeydown ∈ listeners w <-> region d = true)).
  { clear Hi Hc Hl Hn Ht Hp Hx. subst s. revert Hw. unfold init.
    destruct (track d) as [children |]; [| discriminate].
    destruct (prevBtn d), (nextBtn d); try discriminate.
    destruct (length children =? 0)%nat eqn:E; [discriminate |].
    intros [= <-]. cbn [state listeners setTimeout translateX dots items].
    unfold update. cbn [items]. rewrite E.
    cbn [hideOthers updateDots updateButtons setTransform translateX dots items index].
    rewrite !length_imap, length_app.
    split; [f_equal; lia |]. split.
    { destruct (dotsContainer d); cbn [default]; rewrite ?length_imap; reflexivity. }
    assert (Hdot : forall i (l1 : list nat) (l2 : list Listener),
              (forall j, DotClick j ∉ l2) ->
              (DotClick i ∈ ((fun i => DotClick i) <$> l1) ++ l2 <-> i ∈ l1)).
    { intros i l1 l2 H2. rewrite elem_of_app, list_elem_of_fmap. split.
      - intros [(j & [= ->] & Hj) | Hin]; [exact Hj | now apply H2 in Hin].
      - intros Hin. left. eauto. }
    split.
    { intros i. rewrite Hdot.
      - rewrite elem_of_seq. destruct (dotsContainer d); cbn [length];
          rewrite ?length_imap; split.
        + intros [_ Hlt]. split; [eauto | simpl in Hlt; lia].
        + intros [_ Hlt]. simpl. lia.
        + intros [_ Hlt]. simpl in Hlt. lia.
        + intros [[x Hx] _]. discriminate.
      - intros j Hin. destruct (region d);
          repeat (apply elem_of_cons in Hin; destruct Hin as [Hin | Hin];
                  [discriminate |]);
          apply elem_of_nil in Hin; contradiction. }
    destruct (region d); cbn [app];
      (split; [apply elem_of_app; right; repeat constructor |]);
      (split; [apply elem_of_app; right; repeat constructor |]);
      (split; [apply elem_of_app; right; repeat constructor |]).
    - split; [reflexivity |]. intros _. apply elem_of_app. right. repeat constructor.
    - split; [| discriminate]. intros Hin. exfalso.
      apply elem_of_app in Hin. destruct Hin as [Hin | Hin].
      + apply list_elem_of_fmap in Hin. destruct Hin as (j & Hj & _). discriminate.
      + repeat (apply elem_of_cons in Hin; destruct Hin as [Hin | Hin];
                [discriminate |]).
        apply elem_of_nil in Hin. contradiction. }
  destruct Hrest as (R1 & R2 & R3 & R4 & R5 & R6 & R7).
  split; [exact R1 |]. split; [rewrite Hp, Hi; reflexivity |].
  split; [rewrite Hx, Hi; rewrite Z.eqb_eq; lia |].
  repeat (split; [assumption |]). assumption.
Qed.

Lemma controls_follow_the_index_witness :
  exists w, init someLayout threeSlides = Some w
    /\ let s := run [(someLayout, Next); (someLayout, Wait 400); (someLayout, Next)]
                  (state w) in
       (disabled (prev s) = true <-> index s = 0)
       /\ (disabled (next s) = true <-> index s = slideCount s - 1).
Proof.
  destruct (init someLayout threeSlides) as [w |] eqn:E; [| vm_compute in E; discriminate].
  exists w. split; [reflexivity |].
  destruct (controls_follow_the_index someLayout threeSlides w
              [(someLayout, Next); (someLayout, Wait 400); (someLayout, Next)] E)
    as (H1 & H2 & _).
  split; assumption.
Defined.

Lemma lock_lasts_as_long_as_its_timer_witness :
  exists w, init someLayout threeSlides = Some w
    /\ let s := run [(someLayout, Next); (someLayout, Resize)] (state w) in
       forall L', timers (elapse L' 400 s) = [] /\ isTransitioning (elapse L' 400 s) = false.
Proof.
  destruct (init someLayout threeSlides) as [w |] eqn:E; [| vm_compute in E; discriminate].
  exists w. split; [reflexivity |].
  exact (proj2 (proj2 (proj2 (lock_lasts_as_long_as_its_timer someLayout threeSlides w
                                [(someLayout, Next); (someLayout, Resize)] E)))).
Defined.

Lemma resize_events_coalesce_witness :
  exists w, init someLayout threeSlides = Some w
    /\ let s := run [(someLayout, Resize); (someLayout, Wait 100)] (state w) in
       index (handleResize s) = index s
       /\ isTransitioning (handleResize s) = isTransitioning s.
Proof.
  destruct (init someLayout threeSlides) as [w |] eqn:E; [| vm_compute in E; discriminate].
  exists w. split; [reflexivity |].
  destruct (resize_events_coalesce someLayout threeSlides w
              [(someLayout, Resize); (someLayout, Wait 100)] E) as (H1 & H2 & _).
  split; assumption.
Defined.

Lemma next_then_prev_returns_witness :
  exists w, init someLayout threeSlides = Some w
    /\ index (goToPrev someLayout
                (elapse someLayout 400 (goToNext someLayout (run [] (state w)))))
       = index (run [] (state w)).
Proof.
  destruct (init someLayout threeSlides) as [w |] eqn:E; [| vm_compute in E; discriminate].
  exists w. split; [reflexivity |].
  apply (next_then_prev_returns someLayout someLayout someLayout someLayout
           threeSlides w [] E);
    vm_compute in E; injection E as <-; vm_compute; reflexivity.
Defined.

Lemma carousel_init_shows_first_slide_witness :
  exists w, init someLayout threeSlides = Some w
    /\ index (state w) = 0 /\ isTransitioning (state w) = false.
Proof.
  destruct (init someLayout threeSlides) as [w |] eqn:E; [| vm_compute in E; discriminate].
  exists w. split; [reflexivity |].
  destruct (carousel_init_shows_first_slide someLayout threeSlides w E) as (H1 & H2 & _).
  split; assumption.
Defined.

(** * More of the form controller *)

Import JS Dom FormValidation.

Section Idem.

Lemma touch_twice f m err h e :
  touch f m err h (touch f m err h e) = touch f m err h e.
Proof. unfold touch. destruct e. repeat case_bool_decide; reflexivity. Qed.

Lemma showError_twice f m d : showError f m (showError f m d) = showError f m d.
Proof.
  apply list_eq. intros h. rewrite !showError_lookup.
  rewrite (static_errOf (showError f m d) d f (showError_static f m d)).
  destruct (d !! h); simpl; [| reflexivity]. now rewrite touch_twice.
Qed.

End Idem.

(** X8. Validating a field a second time changes nothing: [validateField]
    returns the same verdict and leaves the document as the first call left
    it. *)
Theorem validateField_is_idempotent :
  forall (field : nat) (rules : Rules) (d : list Element),
    validateField field rules (validateField field rules d).2
    = validateField field rules d.
Proof.
  intros f r d. rewrite !validateField_verdict. cbn [fst snd].
  rewrite (static_value (showError f _ d) d f (showError_static f _ d)).
  now rewrite showError_twice.
Qed.

(** X9. [validateField] writes to the field and to its error element
    only: every other element is left as it is, no element is added or
    removed, no value, id or [disabled] state changes, and [aria-invalid]
    changes on the field alone. *)
Theorem validateField_touches_two_elements :
  forall (field : nat) (rules : Rules) (d : list Element) (h : nat),
    let d' := (validateField field rules d).2 in
    length d' = length d
    /\ static <$> d' !! h = static <$> d !! h
    /\ (h <> field -> errOf d field <> Some h -> d' !! h = d !! h)
    /\ (h <> field -> ariaInvalid <$> d' !! h = ariaInvalid <$> d !! h)
    /\ (forall i, getElementById i d' = getElementById i d).
Proof.
  intros f r d h d'. unfold d'. rewrite validateField_verdict. cbn [snd].
  set (m := (verdict r (trim (valueOf f d))).2).
  pose proof (showError_static f m d) as Hs.
  split; [| split; [| split; [| split]]].
  - apply (f_equal length) in Hs. now rewrite !length_fmap in Hs.
  - apply (f_equal (fun l => l !! h)) in Hs. now rewrite !list_lookup_fmap in Hs.
  - intros Hf He. rewrite showError_lookup. unfold touch.
    rewrite (bool_decide_eq_false_2 (errOf d f = Some h)) by exact He.
    rewrite (bool_decide_eq_false_2 (h = f)) by exact Hf.
    destruct (d !! h); reflexivity.
  - intros Hf. rewrite showError_lookup.
    destruct (d !! h); [| reflexivity]. simpl. rewrite touch_ariaInvalid.
    now rewrite (bool_decide_eq_false_2 (h = f)) by exact Hf.
  - intros i. now apply static_getElementById.
Qed.

Section Tidy.

Lemma removeFirst_fresh {A} (key : A -> nat) (a : nat) (l : list A) :
  NoDup (key <$> l) ->
  NoDup (key <$> removeFirst (fun x => Nat.eqb (key x) a) l)
  /\ a ∉ key <$> removeFirst (fun x => Nat.eqb (key x) a) l.
Proof.
  induction l as [| x l IH]; intros Hn; cbn [removeFirst fmap list_fmap].
  - split; [constructor | apply not_elem_of_nil].
  - apply NoDup_cons in Hn as [Hx Hl].
    destruct (Nat.eqb_spec (key x) a) as [E | E].
    + split; [exact Hl | now rewrite <- E].
    + destruct (IH Hl) as [IH1 IH2]. cbn [fmap list_fmap]. split.
      * apply NoDup_cons. split; [| exact IH1].
        intros Hin. apply Hx. clear -Hin.
        induction l as [| y l IHl]; cbn [removeFirst fmap list_fmap] in *;
          [exact Hin |].
        destruct (Nat.eqb (key y) a).
        -- apply elem_of_cons. now right.
        -- cbn [fmap list_fmap] in Hin. apply elem_of_cons in Hin as [-> | Hin];
             apply elem_of_cons; [now left | right; now apply IHl].
      * rewrite elem_of_cons. intros [Ha | Ha]; [now apply E | now apply IH2].
Qed.

Lemma replace_keeps_one {A} (key : A -> nat) (x : A) (l : list A) :
  NoDup (key <$> l) ->
  NoDup (key <$> (removeFirst (fun y => Nat.eqb (key y) (key x)) l ++ [x])).
Proof.
  intros Hn. destruct (removeFirst_fresh key (key x) l Hn) as [H1 H2].
  rewrite fmap_app. apply NoDup_app. split; [exact H1 |]. split.
  - intros k Hk Hin. cbn [fmap list_fmap] in Hin.
    apply list_elem_of_singleton in Hin. subst k. now apply H2.
  - cbn [fmap list_fmap]. apply NoDup_singleton.
Qed.

Lemma createFallbackUI_onePerForm frm r subject body p :
  onePerForm p -> onePerForm (createFallbackUI frm r subject body p).1.
Proof.
  intros [Hp Hn]. unfold createFallbackUI, onePerForm.
  pose proof (removeFirst_fresh owner frm (panels p) Hp) as [H1 H2].
  destruct (decodeURIComponent body) as [text |]; cbn [fst fresh setPanels panels notices].
  - split; [| exact Hn].
    rewrite fmap_app. apply NoDup_app. split; [exact H1 |]. split.
    + intros k Hk Hin. cbn [fmap list_fmap owner] in Hin.
      apply list_elem_of_singleton in Hin. subst k. now apply H2.
    + apply NoDup_singleton.
  - split; [exact H1 | exact Hn].
Qed.

Lemma relabel_owner (g : Fallback -> Fallback) (l : list Fallback) :
  (forall x, owner (g x) = owner x) -> owner <$> (g <$> l) = owner <$> l.
Proof.
  intros Hg. rewrite <- list_fmap_compose. apply list_fmap_ext. intros _ x _. apply Hg.
Qed.

Lemma runCallback_onePerForm cb p : onePerForm p -> onePerForm (runCallback cb p).
Proof.
  intros Hp. destruct cb; cbn [runCallback].
  - unfold contactSend.
    destruct (encodeURIComponent _) as [subject |]; [| exact Hp].
    destruct (encodeURIComponent _) as [body |]; [| exact Hp].
    match goal with
    | |- context [createFallbackUI ?a ?b ?c ?d ?q] =>
        pose proof (createFallbackUI_onePerForm a b c d q Hp) as T;
        destruct (createFallbackUI a b c d q) as [p3 [e |]]
    end; exact T.
  - unfold quoteSend.
    destruct (quoteMessage _ _ _ _ _ _ _) as [[subject body] | e]; [| exact Hp].
    unfold fresh. cbv beta iota zeta.
    match goal with
    | |- context [createFallbackUI ?a ?b ?c ?d ?q] =>
        assert (Hq : onePerForm q);
        [| pose proof (createFallbackUI_onePerForm a b c d q Hq) as T;
           destruct (createFallbackUI a b c d q) as [p5 [e |]]; exact T]
    end.
    destruct Hp as [Hp Hn]. split; [exact Hp |].
    cbn [notices setNotices].
    match goal with
    | |- NoDup (_ <$> (removeFirst _ ?l ++ [?x])) => exact (replace_keeps_one snd x l Hn)
    end.
  - destruct Hp as [Hp Hn]. split; [exact Hp |].
    unfold removeNotice. cbn [notices setNotices].
    eapply sublist_NoDup; [exact Hn |]. apply fmap_sublist, sublist_filter.
  - destruct Hp as [Hp Hn]. split; [| exact Hn].
    unfold restoreLabel. cbn [panels setPanels].
    rewrite relabel_owner; [exact Hp |]. intros x. now destruct (Nat.eqb _ _).
Qed.

Lemma fire_onePerForm fuel now : forall p, onePerForm p -> onePerForm (fire fuel now p).
Proof.
  induction fuel as [| k IH]; intros p Hp; cbn [fire]; [exact Hp |].
  destruct (timers p) as [| t q]; [exact Hp |].
  destruct (deadline t <=? now)%N; [| exact Hp].
  apply IH, runCallback_onePerForm. exact Hp.
Qed.

Lemma submitLoop_shown frm submitBtn fs send p :
  panels (submitLoop frm submitBtn fs send p) = panels p
  /\ notices (submitLoop frm submitBtn fs send p) = notices p.
Proof.
  unfold submitLoop. destruct (negb _).
  - destruct (querySelector _ _ _); split; reflexivity.
  - split; reflexivity.
Qed.

Lemma handle_onePerForm ev l p : onePerForm p -> onePerForm (handle ev l p).
Proof.
  intros Hp. destruct ev, l; cbn [handle]; try exact Hp;
    (destruct (Nat.eqb _ _); [| exact Hp]); try exact Hp.
  - rewrite contactSubmit_loop.
    match goal with
    | |- context [submitLoop ?a ?b ?c ?d ?q] =>
        destruct (submitLoop_shown a b c d q) as [E1 E2]
    end. unfold onePerForm. rewrite E1, E2. exact Hp.
  - rewrite quoteSubmit_loop.
    match goal with
    | |- context [submitLoop ?a ?b ?c ?d ?q] =>
        destruct (submitLoop_shown a b c d q) as [E1 E2]
    end. unfold onePerForm. rewrite E1, E2. exact Hp.
Qed.

Lemma dispatch_onePerForm ev p : onePerForm p -> onePerForm (dispatch ev p).
Proof.
  intros Hp.
  assert (Hfold : forall ls q, onePerForm q ->
            onePerForm (foldl (fun acc l => handle ev l acc) q ls)).
  { induction ls as [| l ls IH]; intros q Hq; simpl; [exact Hq |].
    apply IH. now apply handle_onePerForm. }
  destruct ev; cbn [dispatch]; try (apply Hfold; exact Hp).
  - unfold copyClick. destruct (list_find _ _) as [[k f] |]; [| exact Hp].
    destruct written; [| exact Hp]. destruct Hp as [Hp Hn]. split; [| exact Hn].
    cbn [setTimeout panels setPanels].
    rewrite relabel_owner; [exact Hp |]. intros x. now destruct (Nat.eqb _ _).
  - unfold elapse.
    destruct (fire_onePerForm (budget (timers p)) (clock p + dt)%N p Hp) as [H1 H2].
    split; assumption.
Qed.

Lemma init_shows_nothing d : panels (init (load d)) = [] /\ notices (init (load d)) = [].
Proof.
  assert (Hc : forall p, panels (initContactForm p) = panels p
                         /\ notices (initContactForm p) = notices p).
  { intros p. unfold initContactForm.
    repeat match goal with
           | |- context [match ?o with Some _ => _ | None => _ end] => destruct o
           end; split; reflexivity. }
  assert (Hq : forall p, panels (initQuickQuoteForm p) = panels p
                         /\ notices (initQuickQuoteForm p) = notices p).
  { intros p. unfold initQuickQuoteForm.
    repeat match goal with
           | |- context [match ?o with Some _ => _ | None => _ end] => destruct o
           end; split; reflexivity. }
  unfold init. destruct (Hq (initContactForm (load d))) as [-> ->].
  destruct (Hc (load d)) as [-> ->]. split; reflexivity.
Qed.

End Tidy.

(** X10. On every page reached from a freshly initialised one, whatever is
    submitted, clicked or waited for, no form carries two fallback panels
    and no form carries two success notices: each send replaces what the one
    before left. *)
Theorem a_form_carries_one_panel_and_one_notice :
  forall (d : list Element) (evs : list Event),
    let p := run evs (init (load d)) in
    (forall i j f g, panels p !! i = Some f -> panels p !! j = Some g ->
                     owner f = owner g -> i = j)
    /\ (forall i j m n, notices p !! i = Some m -> notices p !! j = Some n ->
                        m.2 = n.2 -> i = j).
Proof.
  intros d evs p.
  assert (H : forall evs p, onePerForm p -> onePerForm (run evs p)).
  { induction evs0 as [| ev evs0 IH]; intros q Hq; cbn [run foldl]; [exact Hq |].
    apply IH. now apply dispatch_onePerForm. }
  assert (Hp : onePerForm p).
  { apply H. destruct (init_shows_nothing d) as [E1 E2].
    unfold onePerForm. rewrite E1, E2. split; constructor. }
  destruct Hp as [H1 H2]. split.
  - intros i j f g Hi Hj E. eapply NoDup_lookup; [exact H1 | |];
      rewrite list_lookup_fmap; [rewrite Hi | rewrite Hj]; simpl; [reflexivity |].
    now rewrite E.
  - intros i j m n Hi Hj E. eapply NoDup_lookup; [exact H2 | |];
      rewrite list_lookup_fmap; [rewrite Hi | rewrite Hj]; simpl; [reflexivity |].
    now rewrite E.
Qed.

Section SendFacts.




End SendFacts.


Section CopyOnce.

Lemma enqueue_first (t : timer Callback) q :
  Forall (fun u => (deadline t < deadline u)%N) q -> enqueue t q = t :: q.
Proof.
  intros H. destruct H as [| u q Hu H]; [reflexivity |]. cbn [enqueue].
  destruct (N.leb_spec (deadline u) (deadline t)); [lia | reflexivity].
Qed.

Lemma fire_not_due fuel now p :
  Forall (fun u => (now < deadline u)%N) (timers p) -> fire fuel now p = p.
Proof.
  intros H. destruct fuel as [| k]; [reflexivity |]. cbn [fire].
  destruct H as [| u q Hu H]; [reflexivity |].
  destruct (N.leb_spec (deadline u) now); [lia | reflexivity].
Qed.

End CopyOnce.

(** X12. One fulfilled copy, with no other timer due within two seconds:
    the button reads "Copied!" until 2000 ms have passed and then the text
    it had before; the other panels and the timers that were pending are
    left alone. *)
Theorem copy_label_returns_after_two_seconds :
  forall (panel : nat) (p : Page) (k : nat) (f : Fallback),
    list_find (fun g => pid g = panel) (panels p) = Some (k, f) ->
    Forall (fun t => (clock p + 2000 < deadline t)%N) (timers p) ->
    let p1 := copyClick panel true p in
    (forall dt, (dt < 2000)%N ->
       copyBtnText <$> panels (elapse dt p1) !! k = Some (lit "Copied!"))
    /\ copyBtnText <$> panels (elapse 2000 p1) !! k = Some (copyBtnText f)
    /\ (forall j g, panels p !! j = Some g -> pid g <> panel ->
          panels (elapse 2000 p1) !! j = Some g)
    /\ timers (elapse 2000 p1) = timers p.
Proof.
  intros panel p k f Hf Hq p1.
  apply list_find_Some in Hf as Hk. destruct Hk as (Hk & Hpid & _).
  assert (E1 : p1 = setTimeout (RestoreLabel panel (copyBtnText f)) 2000
                      (setPanels ((fun g => if Nat.eqb (pid g) panel
                                            then setCopyBtnText (lit "Copied!") g else g)
                                  <$> panels p) p)).
  { unfold p1, copyClick. now rewrite Hf. }
  set (t0 := {| tid := nextId p; deadline := (clock p + 2000)%N;
                callback := RestoreLabel panel (copyBtnText f) |}).
  assert (Ht : timers p1 = t0 :: timers p).
  { rewrite E1. cbn [timers setTimeout setPanels clock nextId]. now apply enqueue_first. }
  assert (Hc : clock p1 = clock p) by now rewrite E1.
  assert (Hp : panels p1 = (fun g => if Nat.eqb (pid g) panel
                                     then setCopyBtnText (lit "Copied!") g else g)
                           <$> panels p) by now rewrite E1.
  subst t0. clearbody p1.
  split; [| split; [| split]].
  - intros dt Hdt. unfold elapse. rewrite fire_not_due.
    + cbn [panels setClock]. rewrite Hp, list_lookup_fmap, Hk. simpl.
      now rewrite (proj2 (Nat.eqb_eq _ _) Hpid).
    + rewrite Ht, Hc. constructor; [simpl; lia |].
      eapply Forall_impl; [exact Hq |]. simpl. intros; lia.
  - unfold elapse. rewrite Ht. cbn [budget foldr weight callback Nat.add fire].
    rewrite Ht. cbn [deadline callback]. rewrite Hc, N.leb_refl.
    rewrite fire_not_due by exact Hq.
    cbn [runCallback restoreLabel panels setClock setPanels popTimer].
    rewrite Hp, !list_lookup_fmap, Hk. simpl.
    rewrite (proj2 (Nat.eqb_eq _ _) Hpid). cbn [pid setCopyBtnText].
    now rewrite (proj2 (Nat.eqb_eq _ _) Hpid).
  - intros j g Hj Hg. unfold elapse. rewrite Ht.
    cbn [budget foldr weight callback Nat.add fire].
    rewrite Ht. cbn [deadline callback]. rewrite Hc, N.leb_refl.
    rewrite fire_not_due by exact Hq.
    cbn [runCallback restoreLabel panels setClock setPanels popTimer].
    rewrite Hp, !list_lookup_fmap, Hj. simpl.
    apply Nat.eqb_neq in Hg. now rewrite Hg, Hg.
  - unfold elapse. rewrite Ht. cbn [budget foldr weight callback Nat.add fire].
    rewrite Ht. cbn [deadline callback]. rewrite Hc, N.leb_refl.
    rewrite fire_not_due by exact Hq. reflexivity.
Qed.


Lemma copy_label_returns_after_two_seconds_witness :
  exists k f,
    list_find (fun g => pid g = 1%nat) (panels shipment) = Some (k, f)
    /\ copyBtnText <$> panels (elapse 2000 (copyClick 1 true shipment)) !! k
       = Some (copyBtnText f).
Proof.
  destruct (list_find (fun g => pid g = 1%nat) (panels shipment)) as [[k f] |] eqn:E;
    [| vm_compute in E; discriminate].
  exists k, f. split; [reflexivity |].
  assert (Hq : Forall (fun t => (clock shipment + 2000 < deadline t)%N) (timers shipment)).
  { assert (Ht : timers shipment = []) by (vm_compute; reflexivity).
    rewrite Ht. constructor. }
  exact (proj1 (proj2 (copy_label_returns_after_two_seconds 1 shipment k f E Hq))).
Defined.


(** ** The email pattern *)

Section RegexFacts.

Lemma lang_seq_inv r1 r2 s :
  lang (Seq r1 r2) s -> exists s1 s2, s = s1 ++ s2 /\ lang r1 s1 /\ lang r2 s2.
Proof. inversion 1; subst. eauto. Qed.

Lemma nullable_lang r : nullable r = true <-> lang r [].
Proof.
  induction r; cbn [nullable].
  - split; [discriminate | inversion 1].
  - split; [constructor | reflexivity].
  - split; [discriminate | inversion 1].
  - rewrite andb_true_iff, IHr1, IHr2. split.
    + intros [H1 H2]. exact (lang_seq _ _ [] [] H1 H2).
    + intros H. apply lang_seq_inv in H as (s1 & s2 & E & H1 & H2).
      symmetry in E. apply app_eq_nil in E as [-> ->]. now split.
  - rewrite orb_true_iff, IHr1, IHr2. split.
    + intros [H | H]; [now apply lang_alt_l | now apply lang_alt_r].
    + inversion 1; subst; [now left | now right].
  - split; [constructor | reflexivity].
Qed.

Lemma star_head r c s :
  lang (Star r) (c :: s) ->
  exists s1 s2, s = s1 ++ s2 /\ lang r (c :: s1) /\ lang (Star r) s2.
Proof.
  intros H. remember (Star r) as r' eqn:Er. remember (c :: s) as s' eqn:Es.
  revert s Es. induction H as [| | | | | | r0 s1 s2 H1 _ H2 IH2]; try discriminate.
  injection Er as ->. intros s Es.
  destruct s1 as [| c1 s1].
  - apply IH2; [reflexivity | exact Es].
  - injection Es as -> <-. exists s1, s2. now repeat split.
Qed.

Lemma deriv_lang c r : forall s, lang (deriv c r) s <-> lang r (c :: s).
Proof.
  induction r as [| | p | r1 IH1 r2 IH2 | r1 IH1 r2 IH2 | r IH]; intros s; cbn [deriv].
  - split; inversion 1.
  - split; inversion 1.
  - destruct (p c) eqn:E.
    + split; inversion 1; subst; [now constructor | constructor].
    + split; inversion 1; subst. congruence.
  - assert (Hseq : lang (Seq (deriv c r1) r2) s
                   <-> exists s1 s2, s = s1 ++ s2 /\ lang r1 (c :: s1) /\ lang r2 s2).
    { split.
      - intros H. apply lang_seq_inv in H as (s1 & s2 & -> & H1 & H2).
        exists s1, s2. rewrite <- IH1. now repeat split.
      - intros (s1 & s2 & -> & H1 & H2). constructor; [now apply IH1 | exact H2]. }
    assert (Hgoal : lang (Seq r1 r2) (c :: s)
                    <-> (exists s1 s2, s = s1 ++ s2 /\ lang r1 (c :: s1) /\ lang r2 s2)
                        \/ (lang r1 [] /\ lang r2 (c :: s))).
    { split.
      - intros H. apply lang_seq_inv in H as (s1 & s2 & E & H1 & H2).
        destruct s1 as [| c1 s1].
        + right. simpl in E. subst. now split.
        + injection E as -> ->. left. exists s1, s2. now repeat split.
      - intros [(s1 & s2 & -> & H1 & H2) | [H1 H2]].
        + exact (lang_seq _ _ (c :: s1) s2 H1 H2).
        + exact (lang_seq _ _ [] (c :: s) H1 H2). }
    rewrite Hgoal. destruct (nullable r1) eqn:En.
    + split.
      * inversion 1; subst; [left; now apply Hseq |].
        right. split; [now apply nullable_lang | now apply IH2].
      * intros [H | [_ H]]; [apply lang_alt_l; now apply Hseq |].
        apply lang_alt_r. now apply IH2.
    + rewrite Hseq. split; [now left |].
      intros [H | [H _]]; [exact H |].
      apply nullable_lang in H. congruence.
  - split.
    + inversion 1; subst; [apply lang_alt_l; now apply IH1 | apply lang_alt_r; now apply IH2].
    + inversion 1; subst; [apply lang_alt_l; now apply IH1 | apply lang_alt_r; now apply IH2].
  - split.
    + intros H. apply lang_seq_inv in H as (s1 & s2 & -> & H1 & H2).
      apply IH in H1. exact (lang_star_more _ (c :: s1) s2 H1 H2).
    + intros H. apply star_head in H as (s1 & s2 & -> & H1 & H2).
      constructor; [now apply IH | exact H2].
Qed.

Lemma test_lang s : forall r, test r s = true <-> lang r s.
Proof.
  unfold test. induction s as [| c s IH]; intros r; cbn [foldl].
  - apply nullable_lang.
  - rewrite IH. apply deriv_lang.
Qed.

Lemma star_class p s : lang (Star (Class p)) s <-> Forall (fun c => p c = true) s.
Proof.
  split.
  - intros H. remember (Star (Class p)) as r eqn:Er.
    induction H as [| | | | | | r0 s1 s2 H1 _ H2 IH2]; try discriminate.
    + constructor.
    + injection Er as ->. inversion H1; subst. constructor; [assumption | now apply IH2].
  - induction 1 as [| c s Hc _ IH]; [constructor |].
    exact (lang_star_more _ [c] s (lang_class p c Hc) IH).
Qed.

Lemma plus_class p s :
  lang (Plus (Class p)) s <-> s <> [] /\ Forall (fun c => p c = true) s.
Proof.
  unfold Plus. split.
  - intros H. apply lang_seq_inv in H as (s1 & s2 & -> & H1 & H2).
    inversion H1; subst. split; [discriminate |].
    constructor; [assumption | now apply star_class].
  - intros [Hne H]. destruct H as [| c s Hc H]; [congruence |].
    exact (lang_seq _ _ [c] s (lang_class p c Hc) (proj2 (star_class p s) H)).
Qed.

Lemma lang_char (a : N) s : lang (Class (fun c => c =? a)%N) s <-> s = [a].
Proof.
  split.
  - inversion 1; subst. f_equal. now apply N.eqb_eq.
  - intros ->. constructor. apply N.eqb_refl.
Qed.

End RegexFacts.

Lemma emailPattern_lang s : test emailPattern s = true <-> address s.
Proof.
  rewrite test_lang. unfold emailPattern, address, addressPart. split.
  - intros H. apply lang_seq_inv in H as (a & s1 & -> & Ha & H).
    apply lang_seq_inv in H as (at' & s2 & -> & Hat & H).
    apply lang_seq_inv in H as (b & s3 & -> & Hb & H).
    apply lang_seq_inv in H as (dot & c & -> & Hdot & Hc).
    apply lang_char in Hat, Hdot. subst.
    apply plus_class in Ha, Hb, Hc. exists a, b, c. now repeat split.
  - intros (a & b & c & -> & Ha & Hb & Hc).
    apply plus_class in Ha, Hb, Hc.
    repeat (apply lang_seq; try assumption); now apply lang_char.
Qed.

(** X13. An email field, of the contact form or of the quote form, passes
    validation exactly when its trimmed value is an address: a part free of
    white space and [@], an [@], a second such part, a dot and a third such
    part, none of them empty. *)
Theorem email_field_accepts_addresses_only :
  forall (field : nat) (d : list Element),
    ((validateField field emailRules d).1 = true <-> address (trim (valueOf field d)))
    /\ ((validateField field quoteEmailRules d).1 = true
        <-> address (trim (valueOf field d))).
Proof.
  assert (H : forall field d,
            (validateField field emailRules d).1 = true
            <-> address (trim (valueOf field d))).
  { intros field d. rewrite validateField_verdict. cbn [fst].
    rewrite <- emailPattern_lang. unfold verdict.
    cbn [required pattern minLength emailRules truthy lit].
    destruct (trim (valueOf field d)) as [| c v] eqn:E.
    - cbn. split; discriminate.
    - cbn [nonEmpty negb andb].
      destruct (test emailPattern (c :: v)); cbn; split; congruence. }
  intros field d. split; apply H.
Qed.

(** ** Wiring, and the notice of the quote form *)

Section WiringFacts.

Lemma addEventListeners_changes l p : l <> [] -> addEventListeners l p <> p.
Proof.
  intros Hl H. apply (f_equal listeners) in H. cbn [listeners addEventListeners] in H.
  apply (f_equal length) in H. rewrite length_app in H.
  destruct l; [congruence | cbn [length] in H; lia].
Qed.

End WiringFacts.

(** X14. The contact form is wired exactly when the form, its three fields, its
    submit button and the success notice are all found; it then gets a blur
    listener for each field and the submit listener, and a blur validates the
    field that lost the focus and no other. *)
Theorem contact_form_is_wired_when_complete :
  forall (p : Page),
    (initContactForm p <> p
     <-> exists frm name email message submitBtn success,
           getElementById "contact-form" (doc p) = Some frm
           /\ getElementById "name" (doc p) = Some name
           /\ getElementById "email" (doc p) = Some email
           /\ getElementById "message" (doc p) = Some message
           /\ querySelector frm submitButton (doc p) = Some submitBtn
           /\ getElementById "form-success" (doc p) = Some success)
    /\ (forall frm name email message submitBtn success,
          getElementById "contact-form" (doc p) = Some frm ->
          getElementById "name" (doc p) = Some name ->
          getElementById "email" (doc p) = Some email ->
          getElementById "message" (doc p) = Some message ->
          querySelector frm submitButton (doc p) = Some submitBtn ->
          getElementById "form-success" (doc p) = Some success ->
          listeners p = [] ->
          let p0 := initContactForm p in
          listeners p0 = [Blur name nameRules; Blur email emailRules;
                          Blur message messageRules;
                          SubmitContact frm name email message submitBtn success]
          /\ doc p0 = doc p
          /\ dispatch (BlurOn name) p0 = setDoc (validateField name nameRules (doc p0)).2 p0
          /\ dispatch (BlurOn email) p0
             = setDoc (validateField email emailRules (doc p0)).2 p0
          /\ dispatch (BlurOn message) p0
             = setDoc (validateField message messageRules (doc p0)).2 p0
          /\ (forall h, h <> name -> h <> email -> h <> message ->
                dispatch (BlurOn h) p0 = p0)
          /\ (forall h, dispatch (ChangeOn h) p0 = p0)).
Proof.
  intros p. split.
  - split.
    + intros H. unfold initContactForm in H.
      destruct (getElementById "contact-form" (doc p)) as [frm |]; [| congruence].
      destruct (getElementById "name" (doc p)) as [name |],
               (getElementById "email" (doc p)) as [email |],
               (getElementById "message" (doc p)) as [message |],
               (querySelector frm submitButton (doc p)) as [submitBtn |] eqn:E5,
               (getElementById "form-success" (doc p)) as [success |];
        try congruence.
      exists frm, name, email, message, submitBtn, success. now repeat split.
    + intros (frm & name & email & message & submitBtn & success
               & H1 & H2 & H3 & H4 & H5 & H6).
      unfold initContactForm. rewrite H1, H2, H3, H4, H5, H6.
      apply addEventListeners_changes. discriminate.
  - intros frm name email message submitBtn success H1 H2 H3 H4 H5 H6 Hl p0.
    assert (E : p0 = addEventListeners
                       [Blur name nameRules; Blur email emailRules;
                        Blur message messageRules;
                        SubmitContact frm name email message submitBtn success] p).
    { unfold p0, initContactForm. now rewrite H1, H2, H3, H4, H5, H6. }
    clearbody p0. subst p0.
    assert (Hne : name <> email).
    { intros ->. pose proof (found_same_id _ _ _ _ H2 H3). discriminate. }
    assert (Hnm : name <> message).
    { intros ->. pose proof (found_same_id _ _ _ _ H2 H4). discriminate. }
    assert (Hem : email <> message).
    { intros ->. pose proof (found_same_id _ _ _ _ H3 H4). discriminate. }
    split; [cbn [listeners addEventListeners]; now rewrite Hl |].
    split; [reflexivity |].
    cbn [dispatch]. cbn [listeners addEventListeners]. rewrite Hl. cbn [app foldl handle].
    rewrite !Nat.eqb_refl.
    rewrite (proj2 (Nat.eqb_neq name email)), (proj2 (Nat.eqb_neq name message)),
      (proj2 (Nat.eqb_neq email name)), (proj2 (Nat.eqb_neq email message)),
      (proj2 (Nat.eqb_neq message name)), (proj2 (Nat.eqb_neq message email))
      by congruence.
    split; [reflexivity |]. split; [reflexivity |]. split; [reflexivity |].
    split; [| reflexivity].
    intros h N1 N2 N3.
    now rewrite (proj2 (Nat.eqb_neq h name)), (proj2 (Nat.eqb_neq h email)),
      (proj2 (Nat.eqb_neq h message)) by congruence.
Qed.



(** * Throttled handlers *)

Section ThrottleFacts.

Import Timers Throttle.
Context {E : Type} (func : E -> E) (limit : N).

Lemma throttled_windowed (s : State E) :
  windowed limit s -> windowed limit (throttled func limit s).
Proof.
  intros [H1 H2]. unfold throttled. destruct (inThrottle s) eqn:Ei; cbn [negb].
  - split; [intros _; now apply H1 | intros H; congruence].
  - rewrite (H2 eq_refl). split; cbn [inThrottle timers enqueue clock]; [| discriminate].
    intros _. eexists. split; [reflexivity |]. cbn [deadline]. lia.
Qed.

Lemma elapse_windowed dt (s : State E) : windowed limit s -> windowed limit (elapse dt s).
Proof.
  intros [H1 H2]. unfold elapse. destruct (inThrottle s) eqn:Ei.
  - destruct (H1 eq_refl) as (t & Ht & Hd). rewrite Ht. unfold due, later.
    rewrite !filter_cons, !filter_nil.
    destruct (decide (deadline t <= clock s + dt)%N) as [Hdue | Hnot].
    + rewrite decide_False by tauto. cbn [foldl release].
      split; cbn [inThrottle timers]; [discriminate | reflexivity].
    + rewrite decide_True by tauto. cbn [foldl].
      split; cbn [inThrottle timers clock]; [| intros; congruence].
      intros _. exists t. split; [reflexivity | lia].
  - rewrite (H2 eq_refl). unfold due, later. rewrite !filter_nil.
    cbn [foldl]. split; cbn [inThrottle timers]; [intros; congruence | reflexivity].
Qed.

Lemma run_windowed evs : forall s, windowed limit s -> windowed limit (run func limit evs s).
Proof.
  induction evs as [| ev evs IH]; intros s Hs; cbn [run foldl]; [exact Hs |].
  apply IH. destruct ev; cbn [step]; [now apply throttled_windowed | now apply elapse_windowed].
Qed.

Lemma released_env (q : list (timer unit)) : forall s0 : State E,
  env (foldl (fun acc _ => release acc) s0 q) = env s0.
Proof.
  induction q as [| t q IH]; intros s0; cbn [foldl]; [reflexivity |].
  now rewrite IH.
Qed.

Lemma elapse_env dt (s : State E) : env (elapse dt s) = env s.
Proof. unfold elapse. now rewrite released_env. Qed.

(** X17. A throttled handler runs [func] on the first call and drops every call
    of the following [limit] milliseconds: a dropped call changes nothing
    and is not made up for later, and once [limit] milliseconds have passed
    the next call runs [func] again. *)
Theorem throttle_runs_the_first_call_of_a_window :
  forall (e : E) (evs : list Event),
    let s := run func limit evs (create e) in
    (inThrottle s = true <-> timers s <> [])
    /\ (inThrottle s = true -> throttled func limit s = s)
    /\ (inThrottle s = false -> env (throttled func limit s) = func (env s))
    /\ throttled func limit (throttled func limit s) = throttled func limit s
    /\ (forall dt, env (elapse dt s) = env s)
    /\ (inThrottle s = false ->
        forall dt, (dt < limit)%N ->
          throttled func limit (elapse dt (throttled func limit s))
          = elapse dt (throttled func limit s))
    /\ (forall dt, (limit <= dt)%N -> inThrottle (elapse dt s) = false).
Proof.
  intros e evs s.
  assert (Hw : windowed limit s).
  { apply run_windowed. split; cbn; [discriminate | reflexivity]. }
  assert (Hrun : forall s0, throttled func limit (throttled func limit s0)
                            = throttled func limit s0).
  { intros s0. unfold throttled at 1.
    assert (Ht : inThrottle (throttled func limit s0) = true).
    { unfold throttled. destruct (inThrottle s0) eqn:E0; cbn; [exact E0 | reflexivity]. }
    now rewrite Ht. }
  destruct Hw as [H1 H2].
  split; [| split; [| split; [| split; [| split; [| split]]]]].
  - split.
    + intros H. destruct (H1 H) as (t & -> & _). discriminate.
    + intros H. destruct (inThrottle s); [reflexivity |]. now rewrite H2 in H.
  - intros H. unfold throttled. now rewrite H.
  - intros H. unfold throttled. now rewrite H.
  - apply Hrun.
  - intros dt. apply elapse_env.
  - intros Hi dt Hdt. unfold throttled at 1.
    assert (Ht : inThrottle (elapse dt (throttled func limit s)) = true);
      [| now rewrite Ht].
    unfold throttled. rewrite Hi. cbn [negb]. unfold elapse.
    cbn [timers clock inThrottle env nextId]. rewrite (H2 Hi). cbn [enqueue].
    unfold due, later. rewrite !filter_cons, !filter_nil. cbn [deadline].
    rewrite (decide_False (P := (clock s + limit <= clock s + dt)%N)) by lia.
    reflexivity.
  - intros dt Hdt. destruct (inThrottle s) eqn:Ei.
    + destruct (H1 eq_refl) as (t & Ht & Hd). unfold elapse. rewrite Ht.
      unfold due, later. rewrite !filter_cons, !filter_nil.
      rewrite (decide_True (P := (deadline t <= clock s + dt)%N)) by lia.
      reflexivity.
    + unfold elapse. rewrite (H2 eq_refl). unfold due. rewrite filter_nil. exact Ei.
Qed.

End ThrottleFacts.

(** * The mobile menu *)

Section MenuFacts.

Import JS Navigation.

Lemma toggleMenu_coherent s :
  (isExpanded s = true -> closed (toggleMenu s))
  /\ (isExpanded s = false -> opened (toggleMenu s)).
Proof.
  unfold toggleMenu, opened, closed.
  split; intros ->; cbn [ariaExpanded display overflow negb]; repeat split.
  intros H. vm_compute in H. discriminate H.
Qed.

Lemma opened_expanded s : opened s -> isExpanded s = true.
Proof. intros (H & _). unfold isExpanded. now apply bool_decide_eq_true_2. Qed.

Lemma closed_expanded s : closed s -> isExpanded s = false.
Proof. intros (H & _). unfold isExpanded. now apply bool_decide_eq_false_2. Qed.

Lemma hamburgerClick_toggles nested s : hamburgerClick nested s = toggleMenu s.
Proof.
  unfold hamburgerClick, onDocumentClick. cbn [inHamburger negb].
  now rewrite andb_false_r.
Qed.

Lemma dispatch_coherent nested ev s :
  opened s \/ closed s -> opened (dispatch nested ev s) \/ closed (dispatch nested ev s).
Proof.
  intros Hs.
  assert (Ht : opened (toggleMenu s) \/ closed (toggleMenu s)).
  { destruct (toggleMenu_coherent s) as [H1 H2].
    destruct (isExpanded s); [right; now apply H1 | left; now apply H2]. }
  destruct ev as [t | key]; cbn [dispatch].
  - unfold onDocumentClick, closeMenu. destruct (inHamburger t); cbn [negb].
    + now rewrite andb_false_r.
    + destruct (_ && _); [| exact Hs].
      destruct (isExpanded s); [| exact Hs]. now rewrite hamburgerClick_toggles.
  - unfold onDocumentKeydown, closeMenu.
    destruct (_ && _); [| exact Hs].
    destruct (isExpanded s); [| exact Hs]. now rewrite hamburgerClick_toggles.
Qed.

(** X18. As far as the listeners of [initMobileMenu] go: once the hamburger
    has been clicked, or from any page on which the three places agree, they
    agree for good, and the menu is either open ([aria-expanded] is "true",
    the menu is displayed as a block and the body does not scroll) or
    closed. Escape and a click outside the menu and the hamburger close an
    open menu and leave a closed one closed; a click on the hamburger opens
    a closed menu and closes an open one; a click inside the menu and any
    other key change nothing. *)
Theorem menu_is_open_or_closed :
  forall (nested : bool) (s0 : Menu) (evs : list Event),
    (opened s0 \/ closed s0
     \/ exists u b v, evs = u ++ Click {| inHamburger := true; inMenu := b |} :: v) ->
    let s := run nested evs s0 in
    (opened s \/ closed s)
    /\ closed (dispatch nested (Keydown (lit "Escape")) s)
    /\ closed (dispatch nested (Click {| inHamburger := false; inMenu := false |}) s)
    /\ dispatch nested (Click {| inHamburger := false; inMenu := true |}) s = s
    /\ (forall b,
          let onHamburger := Click {| inHamburger := true; inMenu := b |} in
          (opened s -> closed (dispatch nested onHamburger s))
          /\ (closed s -> opened (dispatch nested onHamburger s)))
    /\ (forall key, key <> lit "Escape" -> dispatch nested (Keydown key) s = s).
Proof.
  intros nested s0 evs H0 s.
  assert (Hrun : forall evs s1, opened s1 \/ closed s1 ->
            opened (run nested evs s1) \/ closed (run nested evs s1)).
  { induction evs0 as [| ev evs0 IH]; intros s1 H1; cbn [run foldl]; [exact H1 |].
    apply IH. now apply dispatch_coherent. }
  assert (Hs : opened s \/ closed s).
  { destruct H0 as [H0 | [H0 | (u & b & v & ->)]];
      [apply Hrun; now left | apply Hrun; now right |].
    unfold s, run. rewrite foldl_app. cbn [foldl]. apply Hrun.
    cbn [dispatch inHamburger]. unfold onDocumentClick. cbn [inHamburger negb].
    rewrite andb_false_r.
    destruct (toggleMenu_coherent (foldl (fun acc ev => dispatch nested ev acc) s0 u))
      as [H1 H2].
    destruct (isExpanded _); [right; now apply H1 | left; now apply H2]. }
  clearbody s. destruct (toggleMenu_coherent s) as [Hc Ho].
  split; [exact Hs |]. split; [| split; [| split; [| split]]].
  - cbn [dispatch]. unfold onDocumentKeydown, closeMenu.
    rewrite bool_decide_eq_true_2 by reflexivity. cbn [andb].
    destruct (isExpanded s) eqn:E.
    + rewrite hamburgerClick_toggles. now apply Hc.
    + destruct Hs as [Hs | Hs]; [| exact Hs]. apply opened_expanded in Hs. congruence.
  - cbn [dispatch inHamburger]. unfold onDocumentClick, closeMenu.
    cbn [inHamburger inMenu negb]. rewrite !andb_true_r. destruct Hs as [Hs | Hs].
    + rewrite bool_decide_eq_true_2 by apply Hs. rewrite (opened_expanded s Hs).
      rewrite hamburgerClick_toggles. apply Hc. now apply opened_expanded.
    + rewrite bool_decide_eq_false_2; [exact Hs |].
      destruct Hs as (_ & -> & _). intros H. vm_compute in H. discriminate H.
  - cbn [dispatch inHamburger]. unfold onDocumentClick. cbn [inMenu negb].
    now rewrite andb_false_r.
  - intros b. cbv zeta. cbn [dispatch inHamburger]. unfold onDocumentClick.
    cbn [inHamburger negb]. rewrite andb_false_r. split.
    + intros Hop. apply Hc. now apply opened_expanded.
    + intros Hcl. apply Ho. now apply closed_expanded.
  - intros key Hk. cbn [dispatch]. unfold onDocumentKeydown.
    now rewrite bool_decide_eq_false_2 by exact Hk.
Qed.

Lemma menu_is_open_or_closed_witness :
  closed (dispatch false (Keydown (lit "Escape"))
            (run false [Click {| inHamburger := true; inMenu := false |}]
               {| ariaExpanded := Some (lit "false"); display := []; overflow := [] |})).
Proof.
  refine (proj1 (proj2 (menu_is_open_or_closed false
                          {| ariaExpanded := Some (lit "false"); display := [];
                             overflow := [] |}
                          [Click {| inHamburger := true; inMenu := false |}] _))).
  right. left. unfold closed. cbn [ariaExpanded display overflow].
  split; [| split; reflexivity]. intros H. vm_compute in H. discriminate H.
Defined.

End MenuFacts.

(** * The accordions *)

Section AccordionFacts.

Import JS Accordion.

Lemma true_is_not_false : lit "false" <> lit "true".
Proof. intros H. vm_compute in H. discriminate H. Qed.

Lemma isExpanded_false p :
  isExpanded {| ariaExpanded := Some (lit "false"); panel := p |} = false.
Proof.
  apply bool_decide_eq_false_2. cbn [ariaExpanded]. intros H.
  vm_compute in H. discriminate H.
Qed.

Lemma isExpanded_true p :
  isExpanded {| ariaExpanded := Some (lit "true"); panel := p |} = true.
Proof. now apply bool_decide_eq_true_2. Qed.

Lemma isExpanded_closePanel b : panel b <> None -> isExpanded (closePanel b) = false.
Proof.
  intros H. unfold closePanel. destruct (panel b); [| contradiction].
  unfold isExpanded. cbn [ariaExpanded]. apply bool_decide_eq_false_2.
  intros E. injection E as E. now apply true_is_not_false.
Qed.

Lemma togglePanel_length i r a h ts : length (togglePanel i r a h ts) = length ts.
Proof.
  unfold togglePanel. destruct (ts !! i); [| reflexivity].
  destruct (panel t); [| reflexivity].
  rewrite length_insert. destruct (_ && _); [apply length_imap | reflexivity].
Qed.

(** A click on a toggle of the FAQ that opens it. *)
Lemma faq_opens i h ts b :
  ts !! i = Some b -> isExpanded b = false -> panel b <> None ->
  (forall j c, ts !! j = Some c -> isExpanded c = true -> panel c <> None) ->
  let ts' := togglePanel i "#faq-accordion" false h ts in
  (forall j, expandedAt ts' j <-> j = i)
  /\ (forall j c, ts' !! j = Some c -> isExpanded c = true -> panel c <> None).
Proof.
  intros Hi He Hp Hall ts'. unfold ts', togglePanel. rewrite Hi, He.
  destruct (panel b) as [m |] eqn:Ep; [| contradiction].
  cbn [negb andb]. rewrite bool_decide_eq_true_2 by reflexivity.
  assert (Hlen : (i < length ts)%nat) by (eapply lookup_lt_Some; exact Hi).
  split.
  - intros j. unfold expandedAt. destruct (decide (j = i)) as [-> | Hne].
    + rewrite list_lookup_insert_eq by now rewrite length_imap.
      split; [reflexivity |]. intros _. eexists. split; [reflexivity |].
      unfold isExpanded. cbn [ariaExpanded]. now apply bool_decide_eq_true_2.
    + rewrite list_lookup_insert_ne by congruence. rewrite list_lookup_imap.
      split; [| contradiction]. intros (c & Hc & Hx). exfalso.
      destruct (ts !! j) as [c0 |] eqn:Ej; [| discriminate]. cbn in Hc.
      injection Hc as <-. rewrite (proj2 (Nat.eqb_neq j i) Hne) in Hx. cbn [negb andb] in Hx.
      destruct (isExpanded c0) eqn:E0; [| congruence].
      rewrite isExpanded_closePanel in Hx; [discriminate |]. eapply Hall; eassumption.
  - intros j c Hc Hx. destruct (decide (j = i)) as [-> | Hne].
    + rewrite list_lookup_insert_eq in Hc by now rewrite length_imap.
      injection Hc as <-. discriminate.
    + rewrite list_lookup_insert_ne in Hc by congruence. rewrite list_lookup_imap in Hc.
      destruct (ts !! j) as [c0 |] eqn:Ej; [| discriminate]. cbn in Hc.
      injection Hc as <-. rewrite (proj2 (Nat.eqb_neq j i) Hne) in Hx |- *.
      cbn [negb andb] in Hx |- *.
      destruct (isExpanded c0) eqn:E0; [| congruence].
      rewrite isExpanded_closePanel in Hx; [discriminate |]. eapply Hall; eassumption.
Qed.

(** A click on an expanded toggle collapses it and leaves the others. *)
Lemma click_collapses i r a h ts b :
  ts !! i = Some b -> isExpanded b = true -> panel b <> None ->
  togglePanel i r a h ts
  = <[i := {| ariaExpanded := Some (lit "false"); panel := Some None |}]> ts.
Proof.
  intros Hi He Hp. unfold togglePanel. rewrite Hi, He.
  destruct (panel b); [reflexivity | contradiction].
Qed.

(** Away from the FAQ, and wherever several panels may be open, a click
    writes to the clicked toggle only. *)
Lemma click_elsewhere i r a h ts b :
  ts !! i = Some b -> panel b <> None ->
  a = true \/ r <> "#faq-accordion"%string ->
  togglePanel i r a h ts
  = <[i := {| ariaExpanded := Some (if isExpanded b then lit "false" else lit "true");
              panel := Some (if isExpanded b then None else Some h) |}]> ts.
Proof.
  intros Hi Hp Hr. unfold togglePanel. rewrite Hi.
  destruct (panel b); [| contradiction].
  assert (Hc : negb (isExpanded b) && negb a
               && bool_decide (r = "#faq-accordion"%string) = false).
  { destruct Hr as [-> | Hr]; [now rewrite andb_false_r |].
    rewrite (bool_decide_eq_false_2 _ Hr). now rewrite andb_false_r. }
  rewrite Hc. now destruct (isExpanded b).
Qed.

Lemma click_inert i r a h ts :
  (forall b, ts !! i = Some b -> panel b = None) -> togglePanel i r a h ts = ts.
Proof.
  intros H. unfold togglePanel. destruct (ts !! i) as [b |]; [| reflexivity].
  now rewrite (H b eq_refl).
Qed.

Lemma togglePanel_exclusive i h ts :
  exclusive ts -> exclusive (togglePanel i "#faq-accordion" false h ts).
Proof.
  intros [Hp Hu].
  destruct (ts !! i) as [b |] eqn:Hi; [| rewrite click_inert; [now split | intros b; congruence]].
  destruct (panel b) as [m |] eqn:Ep;
    [| rewrite click_inert; [now split | intros b' Hb'; congruence]].
  assert (Hlen : (i < length ts)%nat) by (eapply lookup_lt_Some; exact Hi).
  destruct (isExpanded b) eqn:He.
  - rewrite (click_collapses i _ _ h ts b Hi He) by congruence.
    assert (Hx : forall j, expandedAt (<[i := {| ariaExpanded := Some (lit "false");
                                                  panel := Some None |}]> ts) j ->
                           j <> i /\ expandedAt ts j).
    { intros j (c & Hc & Hj). destruct (decide (j = i)) as [-> | Hne].
      - rewrite list_lookup_insert_eq in Hc by exact Hlen. injection Hc as <-.
        rewrite isExpanded_false in Hj. discriminate.
      - rewrite list_lookup_insert_ne in Hc by congruence.
        split; [exact Hne | now exists c]. }
    split.
    + intros j c Hc Hj. destruct (decide (j = i)) as [-> | Hne].
      * rewrite list_lookup_insert_eq in Hc by exact Hlen. injection Hc as <-. discriminate.
      * rewrite list_lookup_insert_ne in Hc by congruence. eapply Hp; eassumption.
    + intros j k Hj Hk. apply Hx in Hj, Hk. apply Hu; tauto.
  - destruct (faq_opens i h ts b Hi He) as [H1 H2]; [congruence | exact Hp |].
    split; [exact H2 |]. intros j k Hj Hk. apply H1 in Hj, Hk. congruence.
Qed.

(** Toggles that are all collapsed, as on a page as served. *)
Lemma collapsed_exclusive ts :
  Forall (fun b => isExpanded b = false) ts -> exclusive ts.
Proof.
  intros H. rewrite list.Forall_forall in H.
  assert (Hno : forall i b, ts !! i = Some b -> isExpanded b = true -> False).
  { intros i b Hi Hb. rewrite (H b) in Hb; [discriminate |].
    eapply list_elem_of_lookup_2; exact Hi. }
  split.
  - intros i b Hi Hb. destruct (Hno i b Hi Hb).
  - intros i j (b & Hi & Hb). destruct (Hno i b Hi Hb).
Qed.

(** X19. The FAQ shows one answer at a time: when at most one toggle reads as
    expanded and each such toggle has its panel, this stays so whatever is
    clicked or keyed, and a click that opens a toggle leaves it the only one
    expanded, with its panel as high as its content. *)
Theorem faq_accordion_keeps_one_panel_open :
  forall (ts : list Toggle) (evs : list Event),
    exclusive ts ->
    let ts' := run "#faq-accordion" false evs ts in
    exclusive ts'
    /\ length ts' = length ts
    /\ (forall i h b, ts' !! i = Some b -> panel b <> None -> isExpanded b = false ->
          let ts'' := dispatch "#faq-accordion" false (Click i h) ts' in
          (forall j, expandedAt ts'' j <-> j = i)
          /\ panel <$> ts'' !! i = Some (Some (Some h))).
Proof.
  intros ts evs Hex ts'.
  assert (Hrun : forall evs ts0, exclusive ts0 ->
            exclusive (run "#faq-accordion" false evs ts0)
            /\ length (run "#faq-accordion" false evs ts0) = length ts0).
  { induction evs0 as [| ev evs0 IH]; intros ts0 H0; cbn [run foldl]; [now split |].
    assert (Hd : exclusive (dispatch "#faq-accordion" false ev ts0)
                 /\ length (dispatch "#faq-accordion" false ev ts0) = length ts0).
    { destruct ev as [i h | i key h]; cbn [dispatch].
      - split; [now apply togglePanel_exclusive | apply togglePanel_length].
      - destruct (_ || _); [| now split].
        split; [now apply togglePanel_exclusive | apply togglePanel_length]. }
    destruct Hd as [Hd1 Hd2]. destruct (IH _ Hd1) as [IH1 IH2].
    split; [exact IH1 | now rewrite <- Hd2]. }
  destruct (Hrun evs ts Hex) as [H1 H2]. fold ts' in H1, H2. clearbody ts'.
  split; [exact H1 |]. split; [exact H2 |].
  intros i h b Hi Hp He ts''. unfold ts''. cbn [dispatch].
  destruct (faq_opens i h ts' b Hi He Hp (proj1 H1)) as [Ho _].
  split; [exact Ho |].
  unfold togglePanel. rewrite Hi, He. destruct (panel b); [| contradiction].
  cbn [negb andb]. rewrite bool_decide_eq_true_2 by reflexivity.
  rewrite list_lookup_insert_eq; [reflexivity |].
  rewrite length_imap. eapply lookup_lt_Some; exact Hi.
Qed.

(** X20. Only the FAQ closes the other panels. Under any other root, the
    services accordion included although it is set up not to allow several
    open panels, a click writes to the clicked toggle alone, so that every
    panel that was open stays open; it expands a collapsed toggle to the
    height of its content and collapses an expanded one, and a second click
    undoes the first. A toggle without a panel does nothing. *)
Theorem other_accordions_leave_panels_open :
  forall (rootSelector : string) (allowMultiple : bool) (i : nat) (h : Z)
         (ts : list Toggle),
    allowMultiple = true \/ rootSelector <> "#faq-accordion"%string ->
    let ts' := togglePanel i rootSelector allowMultiple h ts in
    (forall j, j <> i -> ts' !! j = ts !! j)
    /\ (forall j, j <> i -> expandedAt ts j -> expandedAt ts' j)
    /\ (forall b, ts !! i = Some b -> panel b = None -> ts' = ts)
    /\ (forall b, ts !! i = Some b -> panel b <> None ->
          (isExpanded b = false -> expandedAt ts' i
                                   /\ panel <$> ts' !! i = Some (Some (Some h)))
          /\ (isExpanded b = true -> ~ expandedAt ts' i
                                     /\ panel <$> ts' !! i = Some (Some None))
          /\ forall h', togglePanel i rootSelector allowMultiple h' ts' !! i
                        = Some {| ariaExpanded :=
                                    Some (if isExpanded b then lit "true" else lit "false");
                                  panel := Some (if isExpanded b then Some h' else None) |}).
Proof.
  intros r a i h ts Hr ts'.
  assert (Hother : forall j, j <> i -> ts' !! j = ts !! j).
  { intros j Hne. unfold ts'. destruct (ts !! i) as [b |] eqn:Hi;
      [| rewrite click_inert; [reflexivity | intros b; congruence]].
    destruct (panel b) as [m |] eqn:Ep;
      [| rewrite click_inert; [reflexivity | intros b' Hb'; congruence]].
    rewrite (click_elsewhere i r a h ts b Hi) by (congruence || exact Hr).
    now rewrite list_lookup_insert_ne by congruence. }
  split; [exact Hother |]. split; [| split].
  - intros j Hne (c & Hc & Hj). exists c. now rewrite Hother.
  - intros b Hi Hp. unfold ts'. apply click_inert. intros b' Hb'. congruence.
  - intros b Hi Hp.
    assert (Hlen : (i < length ts)%nat) by (eapply lookup_lt_Some; exact Hi).
    unfold ts'. rewrite (click_elsewhere i r a h ts b Hi Hp Hr).
    split; [| split].
    + intros He. rewrite He. rewrite list_lookup_insert_eq by exact Hlen.
      split; [| reflexivity]. eexists. rewrite list_lookup_insert_eq by exact Hlen.
      split; [reflexivity |]. apply isExpanded_true.
    + intros He. rewrite He. rewrite list_lookup_insert_eq by exact Hlen.
      split; [| reflexivity]. intros (c & Hc & Hj).
      rewrite list_lookup_insert_eq in Hc by exact Hlen. injection Hc as <-.
      rewrite isExpanded_false in Hj. discriminate.
    + intros h'.
      erewrite click_elsewhere;
        [| rewrite list_lookup_insert_eq by exact Hlen; reflexivity
         | cbn [panel]; discriminate | exact Hr].
      rewrite list_lookup_insert_eq by (rewrite length_insert; exact Hlen).
      destruct (isExpanded b).
      * now rewrite isExpanded_false.
      * now rewrite isExpanded_true.
Qed.

Lemma faq_accordion_keeps_one_panel_open_witness :
  exclusive (run "#faq-accordion" false
               [Click 0 120; Click 1 80; Keydown 0 (lit "Enter") 120]
               [ {| ariaExpanded := Some (lit "false"); panel := Some None |};
                 {| ariaExpanded := None; panel := Some None |} ]).
Proof.
  refine (proj1 (faq_accordion_keeps_one_panel_open _ _ _)).
  apply collapsed_exclusive. repeat constructor.
Defined.

Lemma other_accordions_leave_panels_open_witness :
  togglePanel 1 "#services-accordion" false 80
    [ {| ariaExpanded := Some (lit "true"); panel := Some (Some 120) |};
      {| ariaExpanded := Some (lit "false"); panel := Some None |} ] !! 0%nat
  = Some {| ariaExpanded := Some (lit "true"); panel := Some (Some 120) |}.
Proof.
  refine (proj1 (other_accordions_leave_panels_open "#services-accordion" false 1 80
                   [ {| ariaExpanded := Some (lit "true"); panel := Some (Some 120) |};
                     {| ariaExpanded := Some (lit "false"); panel := Some None |} ] _)
            0%nat _).
  - right. discriminate.
  - discriminate.
Defined.

End AccordionFacts.

(** * Resource downloads *)

Section DownloadFacts.

Import Timers JS ResourceDownload.

Lemma runCallback_oneMessage cb p : oneMessage p -> oneMessage (runCallback cb p).
Proof.
  unfold oneMessage. intros H. destruct cb as [b rc rt ot | m | m]; cbn [runCallback].
  - unfold finish, showDownloadSuccess. destruct rc as [c |]; [| exact H].
    cbn [cards setButtons setTimeout].
    rewrite list.Forall_forall in *. intros x Hx.
    apply list_elem_of_lookup in Hx as [j Hj]. rewrite list_lookup_alter in Hj.
    destruct (decide (c = j)) as [-> | Hne].
    + destruct (cards p !! j) as [y |] eqn:Ey; [| discriminate]. cbn in Hj.
      injection Hj as <-. cbn [messages dropFirst]. rewrite length_app. cbn [length].
      assert (Hy : (length (messages y) <= 1)%nat).
      { apply H. eapply list_elem_of_lookup_2; exact Ey. }
      destruct (messages y) as [| m0 ms]; cbn [tail length] in *; lia.
    + apply H. eapply list_elem_of_lookup_2; exact Hj.
  - unfold fade. cbn [cards setTimeout setCards].
    apply Forall_fmap. eapply Forall_impl; [exact H |]. intros c Hc.
    cbn. now rewrite length_fmap.
  - unfold remove. cbn [cards setCards].
    apply Forall_fmap. eapply Forall_impl; [exact H |]. intros c Hc. cbn.
    etransitivity; [apply length_filter | exact Hc].
Qed.

Lemma fire_oneMessage fuel now : forall p, oneMessage p -> oneMessage (fire fuel now p).
Proof.
  induction fuel as [| k IH]; intros p Hp; cbn [fire]; [exact Hp |].
  destruct (timers p) as [| t q]; [exact Hp |].
  destruct (deadline t <=? now)%N; [| exact Hp].
  apply IH, runCallback_oneMessage. exact Hp.
Qed.

Lemma dispatch_oneMessage ev p : oneMessage p -> oneMessage (dispatch ev p).
Proof.
  intros Hp. destruct ev as [b | dt]; cbn [dispatch].
  - unfold handleDownload. destruct (buttons p !! b); exact Hp.
  - unfold elapse, oneMessage. cbn [cards]. now apply fire_oneMessage.
Qed.

Lemma fire_not_yet fuel now p :
  Forall (fun u => (now < deadline u)%N) (timers p) -> fire fuel now p = p.
Proof.
  intros H. destruct fuel as [| k]; [reflexivity |]. cbn [fire].
  destruct H as [| u q Hu H]; [reflexivity |].
  destruct (N.leb_spec (deadline u) now); [lia | reflexivity].
Qed.

Lemma fire_due k now p t q :
  timers p = t :: q -> (deadline t <= now)%N ->
  fire (S k) now p = fire k now (runCallback (callback t) (popTimer t q p)).
Proof.
  intros Ht Hd. cbn [fire]. rewrite Ht.
  destruct (N.leb_spec (deadline t) now); [reflexivity | lia].
Qed.

(** A wait during which exactly the first timer of the queue falls due, and
    nothing the callback schedules does. *)
Lemma elapse_one dt p t :
  timers p = [t] ->
  (deadline t <= clock p + dt)%N ->
  let p' := runCallback (callback t) (popTimer t [] p) in
  Forall (fun u => (clock p + dt < deadline u)%N) (timers p') ->
  elapse dt p = {| buttons := buttons p'; cards := cards p'; uncaught := uncaught p';
                   clock := (clock p + dt)%N; nextId := nextId p';
                   timers := timers p' |}.
Proof.
  intros Ht Hd p' Hq. unfold elapse. rewrite Ht. cbn [budget foldr].
  assert (Hw : exists k, (weight (callback t) + 0)%nat = S k).
  { destruct (callback t); cbn [weight]; eexists; reflexivity. }
  destruct Hw as [k ->]. rewrite (fire_due k _ p t [] Ht Hd).
  fold p'. now rewrite fire_not_yet.
Qed.


(** X21. Whatever is clicked and however long one waits, a card never shows two
    success messages: each new one replaces the one before. *)
Theorem card_shows_one_message_at_a_time :
  forall (p : Page) (evs : list Event),
    oneMessage p -> oneMessage (run evs p).
Proof.
  intros p evs. revert p. induction evs as [| ev evs IH]; intros p Hp; cbn [run foldl];
    [exact Hp |].
  apply IH. now apply dispatch_oneMessage.
Qed.


(** X23. A button outside every card: the title falls back to "Resource", but
    the callback then fails on the missing card before it resets the button,
    which stays disabled and busy with nothing left to restore it. *)
Theorem download_without_card_never_finishes :
  forall (p : Page) (b : nat) (button : Button) (dt : N),
    timers p = [] ->
    buttons p !! b = Some button ->
    card button = None ->
    (1500 <= dt)%N ->
    let p' := elapse dt (handleDownload b p) in
    buttons p' !! b = Some (busy button)
    /\ uncaught p' = S (uncaught p)
    /\ cards p' = cards p
    /\ timers p' = [].
Proof.
  intros p b button dt Ht Hb Hc Hdt p'.
  assert (E1 : handleDownload b p
               = {| buttons := <[b := busy button]> (buttons p); cards := cards p;
                    uncaught := uncaught p; clock := clock p; nextId := S (nextId p);
                    timers := [{| tid := nextId p; deadline := (clock p + 1500)%N;
                                  callback := Finish b None (Some (lit "Resource"))
                                                (textContent button) |}] |}).
  { unfold handleDownload, busy. rewrite Hb, Hc. unfold setTimeout, setButtons.
    cbn [timers clock nextId buttons cards uncaught]. rewrite Ht. reflexivity. }
  unfold p'. rewrite E1.
  erewrite elapse_one; [| reflexivity | cbn [deadline clock]; lia |].
  - cbn [callback runCallback finish showDownloadSuccess raise popTimer
         buttons cards uncaught nextId timers clock].
    split; [| repeat split].
    now rewrite list_lookup_insert_eq by (eapply lookup_lt_Some; exact Hb).
  - cbn [callback runCallback finish showDownloadSuccess raise popTimer timers].
    constructor.
Qed.

Lemma card_shows_one_message_at_a_time_witness :
  oneMessage (run [Click 0; Wait 1500; Click 0; Wait 1500]
                (load [ {| textContent := lit "Download"; spinner := false;
                           disabled := false; downloading := false;
                           card := Some 0%nat |} ]
                      [ {| title := Some (lit "Guide"); messages := [] |} ])).
Proof.
  apply card_shows_one_message_at_a_time. repeat constructor.
Defined.


Lemma download_without_card_never_finishes_witness :
  let p := load [ {| textContent := lit "Download"; spinner := false;
                     disabled := false; downloading := false; card := None |} ] [] in
  disabled <$> buttons (elapse 2000 (handleDownload 0 p)) !! 0%nat = Some true
  /\ uncaught (elapse 2000 (handleDownload 0 p)) = 1%nat.
Proof.
  intros p.
  destruct (download_without_card_never_finishes p 0 _ 2000 eq_refl eq_refl eq_refl
              ltac:(lia)) as (H1 & H2 & _).
  split; [now rewrite H1 | exact H2].
Defined.

End DownloadFacts.

(** * The hero video *)

Section VideoFacts.

Import JS VideoPlayer.

Lemma handleVideoError_twice c : handleVideoError (handleVideoError c) = handleVideoError c.
Proof.
  unfold handleVideoError. destruct (video c) as [v |]; cbn [video imgs error]; [| reflexivity].
  now destruct (imgs c).
Qed.

(** X24. The fallback image is added at most once: however many times the video
    reports an error, the container ends as after the first report, with the
    images it had, or the one fallback image if it had none, and the video
    hidden. Without a container or a video nothing is registered and nothing
    changes. *)
Theorem video_fallback_is_added_once :
  forall (playRejected : bool) (p : Page) (n : nat),
    listening p = false ->
    let p' := errors n (init playRejected p) in
    match container p ≫= (fun c => (fun v => (c, v)) <$> video c) with
    | None => p' = p
    | Some (c, v) =>
        container p'
        = Some (if error v || negb (Nat.eqb n 0) then handleVideoError c else c)
        /\ imgs (handleVideoError c)
           = (if decide (imgs c = []) then [lit "images/container_ship.jpg"] else imgs c)
        /\ (display <$> video (handleVideoError c)) = Some (lit "none")
        /\ length (console p')
           = (length (console p) + (if playRejected then 1 else 0) + n)%nat
    end.
Proof.
  intros r p n Hl p'. unfold p', init.
  destruct (container p) as [c |] eqn:Ec; cbn [mbind option_bind].
  - destruct (video c) as [v |] eqn:Ev; cbn [fmap option_fmap option_map].
    + set (p0 := {| container := Some (if error v then handleVideoError c else c);
                    console := console p ++ (if r then [lit "Auto-play prevented:"] else []);
                    listening := true |}).
      assert (Hlisten : forall k, listening (errors k p0) = true).
      { induction k as [| j IHj]; cbn [errors]; [reflexivity |].
        unfold onError. now rewrite IHj. }
      split; [| split; [| split]].
      * induction n as [| k IH]; cbn [errors].
        -- cbn [container p0 Nat.eqb negb]. now rewrite orb_false_r.
        -- unfold onError. rewrite Hlisten. cbn [container]. rewrite IH.
           cbn [fmap option_fmap option_map Nat.eqb negb].
           rewrite orb_true_r.
           destruct (error v || negb (Nat.eqb k 0));
             [now rewrite handleVideoError_twice | reflexivity].
      * unfold handleVideoError. rewrite Ev. cbn [imgs]. now destruct (imgs c).
      * unfold handleVideoError. now rewrite Ev.
      * induction n as [| k IH]; cbn [errors].
        -- cbn [console p0]. rewrite length_app. destruct r; cbn [length]; lia.
        -- unfold onError. rewrite Hlisten. cbn [console]. rewrite length_app, IH.
           cbn [length]. lia.
    + induction n as [| k IH]; cbn [errors]; [reflexivity |].
      rewrite IH. unfold onError. now rewrite Hl.
  - induction n as [| k IH]; cbn [errors]; [reflexivity |].
    rewrite IH. unfold onError. now rewrite Hl.
Qed.

Lemma video_fallback_is_added_once_witness :
  imgs <$> container
             (errors 2 (init true
                          {| container := Some {| videoError := false;
                                                  video := Some {| display := [];
                                                                   error := false |};
                                                  imgs := [] |};
                             console := []; listening := false |}))
  = Some [lit "images/container_ship.jpg"].
Proof.
  destruct (video_fallback_is_added_once true
              {| container := Some {| videoError := false;
                                      video := Some {| display := []; error := false |};
                                      imgs := [] |};
                 console := []; listening := false |} 2 eq_refl) as (H1 & H2 & _).
  cbv zeta in H1. rewrite H1. cbn [error orb Nat.eqb negb fmap option_fmap option_map].
  exact (f_equal Some H2).
Defined.

End VideoFacts.
